(** * The single-threaded reactor runtime (reactor.c)

    A shallow embedding of [schedule], [next], [wrapup] and [main] of
    src/xtext/org.icyphy.linguafranca/src/lib/C/reactor.c.

    The file includes "reactor_common.c", which is not among the sources.
    What reactor.c uses from it is either taken as a parameter (the record
    [env]: the generated tables and hooks, the reaction bodies, the physical
    clock and [wait_until]) or modelled from the specification and marked
    so ([pqueue_insert], [pqueue_peek], [pqueue_pop], [__schedule]).

    The runtime state is threaded explicitly.  Beside it a trace records,
    in order, what the runtime does to its surroundings, so that "before",
    "exactly once" and "never" can be stated.  The two loops of [next]
    whose number of turns has no bound in the source take a bound on their
    turns, and end in [Timeout] when it is used up. *)

From Stdlib Require Import String ZArith List Bool Lia Sorted Permutation.
Import ListNotations.
Open Scope Z_scope.

(** ** Machine integers

    [instant_t], [interval_t] and [handle_t] are signed 64-bit integers
    ([long long]).  Sums and differences are reduced to the signed 64-bit
    range, as two's complement hardware does. *)

Definition instant_t := Z.
Definition interval_t := Z.
Definition handle_t := Z.

Definition LLONG_MAX : Z := 9223372036854775807.
Definition LLONG_MIN : Z := -9223372036854775808.
Definition BILLION : Z := 1000000000.

Definition wrap64 (x : Z) : Z := (x + 2 ^ 63) mod 2 ^ 64 - 2 ^ 63.
Definition add64 (a b : Z) : Z := wrap64 (a + b).
Definition sub64 (a b : Z) : Z := wrap64 (a - b).
Definition mul64 (a b : Z) : Z := wrap64 (a * b).

(** [x] is representable as a [long long]. *)
Definition int64 (x : Z) : Prop := LLONG_MIN <= x <= LLONG_MAX.

(** ** Pointers and descriptors *)

(** A [void*] payload; [NULL] is address 0. *)
Definition ptr := Z.
Definition NULL : ptr := 0.

(** [trigger_t*] and [reaction_t*] point into the static tables emitted by
    the code generator; they are modelled as indices into those tables. *)
Definition trigger_id := nat.
Definition reaction_id := nat.

(** The fields of [trigger_t] that reactor.c reads.  [reactions] is the
    array [trigger->reactions] of length [trigger->number_of_reactions].
    The one field reactor.c writes, [trigger->payload], lives in the
    runtime state ([trigger_payload]). *)
Record trigger_t := mk_trigger {
  offset : interval_t;
  period : interval_t;
  reactions : list reaction_id
}.

Definition number_of_reactions (t : trigger_t) : Z := Z.of_nat (length (reactions t)).

(** The fields of [reaction_t] that reactor.c reads; [function] and [self]
    are in [env].  [deadline_violation] is [None] for a NULL pointer. *)
Record reaction_t := mk_reaction {
  index : Z;
  deadline : interval_t;
  deadline_violation : option trigger_id
}.

(** An [event_t] record.  [ev_addr] is the address of the record: two
    [event_t*] are equal when they have the same address.  A record is in at
    most one queue at a time, so it is carried by value with its address. *)
Record event_t := mk_event {
  ev_addr : Z;
  time : instant_t;
  trigger : trigger_id;
  payload : ptr
}.

(** Line 101: [event->time = 0LL]. *)
Definition zeroed (e : event_t) : event_t :=
  mk_event (ev_addr e) 0 (trigger e) (payload e).

Record timespec := mk_timespec {
  tv_sec : Z;
  tv_nsec : Z
}.

(** ** Priority queues *)

(** Modelled from the spec: pqueue.c ([pqueue_insert], [pqueue_peek],
    [pqueue_pop], [pqueue_size]) is missing.  Section 4.3: a min-heap with
    insert, peek (the minimum, not removed) and pop (the minimum, removed).
    The queue is kept as a list sorted by priority, smallest first; among
    equal priorities the order of insertion is kept (section 4.2, "ties
    break by FIFO insertion"). *)
Fixpoint pqueue_insert {A : Type} (pri : A -> Z) (x : A) (q : list A) : list A :=
  match q with
  | [] => [x]
  | y :: q' => if pri x <? pri y then x :: q else y :: pqueue_insert pri x q'
  end.

Definition pqueue_peek {A : Type} (q : list A) : option A :=
  match q with
  | [] => None
  | x :: _ => Some x
  end.

Definition pqueue_pop {A : Type} (q : list A) : option (A * list A) :=
  match q with
  | [] => None
  | x :: q' => Some (x, q')
  end.

Definition pqueue_size {A : Type} (q : list A) : Z := Z.of_nat (length q).

(** ** Observable actions

    What the runtime core does to its surroundings, in order: the calls it
    makes to functions defined elsewhere and the events it takes off the
    event queue. *)
Inductive action :=
| AWait (t : instant_t)                 (* wait_until(t) *)
| AStartTimeStep                        (* __start_time_step() *)
| APop (e : event_t)                    (* event = pqueue_pop(event_q) *)
| ASchedule (t : trigger_id) (d : interval_t) (p : ptr)
                                        (* __schedule(t, d, p), called by next() *)
| AClock (now : timespec)               (* clock_gettime(CLOCK_REALTIME, ..) *)
| AInvoke (r : reaction_id) (now : instant_t)
                                        (* r->function(r->self) at current_time now *)
| AOutputs (r : reaction_id)            (* trigger_output_reactions(r) *)
| AFree (p : ptr)                       (* free(p) *)
| AProcessArgs                          (* process_args(argc, argv) *)
| AInitialize                           (* initialize() *)
| AStartTimers                          (* __start_timers() *)
| APrintf (fmt : string) (v : Z).       (* printf(fmt, v) *)

Section Reactor.

(** The state of the reactors, opaque to the runtime ([self]). *)
Context {U : Type}.

(** ** Runtime state: the globals of reactor_common.c that reactor.c uses *)
Record runtime := mk_runtime {
  current_time : instant_t;
  stop_time : instant_t;
  stop_requested : bool;
  wait_specified : bool;
  physicalStartTime : timespec;
  event_q : list event_t;             (* ordered by [time] *)
  reaction_q : list reaction_id;      (* ordered by [index] *)
  recycle_q : list event_t;
  free_q : list event_t;
  trigger_payload : trigger_id -> ptr;  (* trigger->payload *)
  __handle : handle_t;
  brk : Z;                            (* next address malloc returns *)
  user : U
}.

Record world := mk_world {
  rt : runtime;
  trace : list action
}.

(** ** What reactor.c takes from elsewhere

    The tables and hooks emitted by the code generator, the reaction
    bodies, and the functions of reactor_common.c that reactor.c calls and
    that are not modelled here.  A function that is called sees the state
    and the actions so far and returns the state it leaves; what it does is
    not constrained, so a reaction body may call [schedule], and a wait may
    find events added by another thread. *)
Record env := mk_env {
  (* the static array of triggers *)
  triggers : trigger_id -> trigger_t;
  (* the static array of reactions *)
  reaction_tbl : reaction_id -> reaction_t;
  (* reaction->function(reaction->self) *)
  function : reaction_id -> world -> runtime;
  (* trigger_output_reactions(reaction) *)
  trigger_output_reactions : reaction_id -> world -> runtime;
  (* __start_time_step() *)
  __start_time_step : world -> runtime;
  (* wait_until(t): the value returned and the state left; it is
     wait_until that advances current_time *)
  wait_until : instant_t -> world -> Z * runtime;
  (* clock_gettime(CLOCK_REALTIME, &ts) *)
  clock_gettime : world -> timespec;
  (* process_args(argc, argv): non-zero on success *)
  process_args : Z -> list string -> world -> Z * runtime;
  (* initialize() *)
  initialize : world -> runtime;
  (* __start_timers() *)
  __start_timers : world -> runtime;
  (* whether __schedule adds trigger->offset to its delay; see __schedule *)
  offset_added_by___schedule : bool
}.

Variable E : env.

(** *** State updates *)

Definition set_event_q (q : list event_t) (r : runtime) : runtime :=
  mk_runtime (current_time r) (stop_time r) (stop_requested r) (wait_specified r)
    (physicalStartTime r) q (reaction_q r) (recycle_q r) (free_q r)
    (trigger_payload r) (__handle r) (brk r) (user r).

Definition set_reaction_q (q : list reaction_id) (r : runtime) : runtime :=
  mk_runtime (current_time r) (stop_time r) (stop_requested r) (wait_specified r)
    (physicalStartTime r) (event_q r) q (recycle_q r) (free_q r)
    (trigger_payload r) (__handle r) (brk r) (user r).

Definition set_recycle_q (q : list event_t) (r : runtime) : runtime :=
  mk_runtime (current_time r) (stop_time r) (stop_requested r) (wait_specified r)
    (physicalStartTime r) (event_q r) (reaction_q r) q (free_q r)
    (trigger_payload r) (__handle r) (brk r) (user r).

Definition set_free_q (q : list event_t) (r : runtime) : runtime :=
  mk_runtime (current_time r) (stop_time r) (stop_requested r) (wait_specified r)
    (physicalStartTime r) (event_q r) (reaction_q r) (recycle_q r) q
    (trigger_payload r) (__handle r) (brk r) (user r).

Definition set_stop_requested (b : bool) (r : runtime) : runtime :=
  mk_runtime (current_time r) (stop_time r) b (wait_specified r)
    (physicalStartTime r) (event_q r) (reaction_q r) (recycle_q r) (free_q r)
    (trigger_payload r) (__handle r) (brk r) (user r).

Definition set_trigger_payload (t : trigger_id) (p : ptr) (r : runtime) : runtime :=
  mk_runtime (current_time r) (stop_time r) (stop_requested r) (wait_specified r)
    (physicalStartTime r) (event_q r) (reaction_q r) (recycle_q r) (free_q r)
    (fun t' => if Nat.eqb t' t then p else trigger_payload r t')
    (__handle r) (brk r) (user r).

Definition set_current_time (c : instant_t) (r : runtime) : runtime :=
  mk_runtime c (stop_time r) (stop_requested r) (wait_specified r)
    (physicalStartTime r) (event_q r) (reaction_q r) (recycle_q r) (free_q r)
    (trigger_payload r) (__handle r) (brk r) (user r).

Definition set_user (u : U) (r : runtime) : runtime :=
  mk_runtime (current_time r) (stop_time r) (stop_requested r) (wait_specified r)
    (physicalStartTime r) (event_q r) (reaction_q r) (recycle_q r) (free_q r)
    (trigger_payload r) (__handle r) (brk r) u.

Definition on_rt (f : runtime -> runtime) (w : world) : world :=
  mk_world (f (rt w)) (trace w).

Definition log (a : action) (w : world) : world :=
  mk_world (rt w) (trace w ++ [a]).

(** A call to a function defined outside reactor.c: the action is recorded
    and the callee leaves the runtime in the state it returns. *)
Definition call (a : action) (f : world -> runtime) (w : world) : world :=
  mk_world (f w) (trace w ++ [a]).

(** ** Scheduling *)

(** Modelled from the spec: the delay that [__schedule] of
    reactor_common.c, which is missing, adds to the current instant.
    Whether [__schedule] adds [trigger->offset] to the delay it is given is
    not settled by reactor.c, whose two callers disagree: [schedule] adds
    the offset itself before the call (line 20, and section 4.1 gives
    [current + offset + extra_delay] as the result), while [next] subtracts
    the offset from the period before the call because "the __schedule
    function will add the trigger->offset" (lines 88-91, section 4.2 step
    5).  [offset_added_by___schedule] in [env] says which it is. *)
Definition effective_delay (t : trigger_id) (delay : interval_t) : interval_t :=
  if offset_added_by___schedule E
  then add64 (offset (triggers E t)) delay
  else delay.

(** Modelled from the spec: [__schedule] of reactor_common.c is missing.
    Section 4.1 describes the scheduler: it acquires an event record (from
    [recycle_q] if available, else fresh), stamps it with the current
    instant plus a delay, gives it the trigger and the payload, inserts it
    into [event_q] and returns a handle.  No clamp is applied (section 9,
    item 3: in the source a negative delay yields an event in the past).
    The source has no microstep field: an event stamped [current_time] is
    taken by the next call of [next]. *)
Definition __schedule (t : trigger_id) (delay : interval_t) (p : ptr)
    (r : runtime) : handle_t * runtime :=
  let '(a, rq, b) :=
    match pqueue_pop (recycle_q r) with
    | Some (e, q) => (ev_addr e, q, brk r)
    | None => (brk r, recycle_q r, brk r + 1)
    end in
  let e := mk_event a (add64 (current_time r) (effective_delay t delay)) t p in
  (__handle r,
   mk_runtime (current_time r) (stop_time r) (stop_requested r) (wait_specified r)
     (physicalStartTime r) (pqueue_insert time e (event_q r)) (reaction_q r) rq
     (free_q r) (trigger_payload r) (add64 (__handle r) 1) b (user r)).

(** reactor.c, lines 19-21. *)
Definition schedule (t : trigger_id) (extra_delay : interval_t) (p : ptr)
    (r : runtime) : handle_t * runtime :=
  __schedule t (add64 (offset (triggers E t)) extra_delay) p r.

(** ** The event loop *)

(** How a run of a loop ends: normally, by dereferencing a NULL pointer
    ([Fault]), or because the bound on loop iterations was used up
    ([Timeout]).  The last two carry the state reached. *)
Inductive outcome (A : Type) :=
| Done (a : A)
| Fault (w : world)
| Timeout (w : world).
Arguments Done {A} a.
Arguments Fault {A} w.
Arguments Timeout {A} w.

(** [new_event == event] on [event_t*], [None] being NULL. *)
Definition same_event (a b : option event_t) : bool :=
  match a, b with
  | None, None => true
  | Some x, Some y => ev_addr x =? ev_addr y
  | _, _ => false
  end.

Definition is_null {A : Type} (a : option A) : bool :=
  match a with
  | None => true
  | Some _ => false
  end.

Definition reaction_index (r : reaction_id) : Z := index (reaction_tbl E r).

(** Lines 81-85: the [for] loop over [event->trigger->reactions]. *)
Definition insert_reactions (rs : list reaction_id) (s : runtime) : runtime :=
  fold_left
    (fun s' r => set_reaction_q (pqueue_insert reaction_index r (reaction_q s')) s')
    rs s.

(** Lines 86-92: the trigger of a popped event is scheduled again when its
    period is positive. *)
Definition reschedule (t : trigger_id) (w : world) : world :=
  let tr := triggers E t in
  if period tr >? 0 then
    let d := sub64 (period tr) (offset tr) in
    log (ASchedule t d NULL) (on_rt (fun s => snd (__schedule t d NULL s)) w)
  else w.

(** Lines 101-106: the record, its time set to zero, goes to [recycle_q]
    when it carries no payload and to [free_q] otherwise. *)
Definition park (e : event_t) (s : runtime) : runtime :=
  if payload e =? NULL
  then set_recycle_q (pqueue_insert time (zeroed e) (recycle_q s)) s
  else set_free_q (pqueue_insert time (zeroed e) (free_q s)) s.

(** Lines 80-106: the body of the [do] loop for the event [e] just popped,
    [q'] being the rest of the event queue. *)
Definition pop_event (e : event_t) (q' : list event_t) (w : world) : world :=
  let w0 := log (APop e) (on_rt (set_event_q q') w) in
  let w1 := on_rt (insert_reactions (reactions (triggers E (trigger e)))) w0 in
  let w2 := reschedule (trigger e) w1 in
  let w3 := on_rt (set_trigger_payload (trigger e) (payload e)) w2 in
  on_rt (park e) w3.

(** Line 109: [event != NULL && event->time == current_time], [event]
    being the head of the event queue. *)
Definition more_now (s : runtime) : bool :=
  match pqueue_peek (event_q s) with
  | Some e => time e =? current_time s
  | None => false
  end.

(** Lines 79-109: [do { ... } while (event != NULL && event->time ==
    current_time)].  The first pop is unconditional; on an empty queue it
    returns NULL, which the body dereferences. *)
Fixpoint drain (fuel : nat) (w : world) : outcome world :=
  match fuel with
  | O => Timeout w
  | S n =>
    match pqueue_pop (event_q (rt w)) with
    | None => Fault w
    | Some (e, q') =>
      let w' := pop_event e q' w in
      if more_now (rt w') then drain n w' else Done w'
    end
  end.

(** [reaction->function(reaction->self)]. *)
Definition invoke (r : reaction_id) (w : world) : world :=
  call (AInvoke r (current_time (rt w))) (function E r) w.

(** Lines 125-127: [tv_sec * BILLION + tv_nsec]. *)
Definition physical_instant (ts : timespec) : instant_t :=
  add64 (mul64 (tv_sec ts) BILLION) (tv_nsec ts).

(** Lines 120-143: the deadline check made before a reaction runs. *)
Definition check_deadline (r : reaction_id) (w : world) : world :=
  let d := deadline (reaction_tbl E r) in
  if d >? 0 then
    let now := clock_gettime E w in
    let w1 := log (AClock now) w in
    if physical_instant now >? add64 (current_time (rt w1)) d then
      match deadline_violation (reaction_tbl E r) with
      | Some t => fold_left (fun w' h => invoke h w') (reactions (triggers E t)) w1
      | None => w1
      end
    else w1
  else w.

(** Lines 113-150: the body of the [while] loop for the reaction popped. *)
Definition run_reaction (r : reaction_id) (w : world) : world :=
  call (AOutputs r) (trigger_output_reactions E r) (invoke r (check_deadline r w)).

(** Lines 112-151: [while (pqueue_size(reaction_q) > 0)]; the size is
    positive exactly when the pop returns a reaction. *)
Fixpoint invoke_reactions (fuel : nat) (w : world) : outcome world :=
  match pqueue_pop (reaction_q (rt w)) with
  | None => Done w
  | Some (r, q') =>
    match fuel with
    | O => Timeout w
    | S n => invoke_reactions n (run_reaction r (on_rt (set_reaction_q q') w))
    end
  end.

(** Lines 154-159.  [q] is the content of [free_q]; every turn pops its
    head, frees the payload and inserts the record into [recycle_q]. *)
Fixpoint free_payloads (q : list event_t) (w : world) : world :=
  match q with
  | [] => w
  | e :: q' =>
    free_payloads q'
      (on_rt (fun s => set_recycle_q (pqueue_insert time e (recycle_q s)) s)
         (log (AFree (payload e)) (on_rt (set_free_q q') w)))
  end.

Definition free_all (w : world) : world := free_payloads (free_q (rt w)) w.

(** [stop_time > 0LL && current_time >= stop_time]. *)
Definition stop_reached (s : runtime) : bool :=
  (stop_time s >? 0) && (current_time s >=? stop_time s).

(** Lines 161-165. *)
Definition check_stop (w : world) : Z * world :=
  if stop_reached (rt w)
  then (0, on_rt (set_stop_requested true) w)
  else (1, w).

(** Lines 74-165: what [next] does once the wait is over. *)
Definition run_tag (fuel : nat) (w : world) : outcome (Z * world) :=
  let w1 := call AStartTimeStep (__start_time_step E) w in
  match drain fuel w1 with
  | Done w2 =>
    match invoke_reactions fuel w2 with
    | Done w3 => Done (check_stop (free_all w3))
    | Fault x => Fault x
    | Timeout x => Timeout x
    end
  | Fault x => Fault x
  | Timeout x => Timeout x
  end.

(** [wait_until(t)]: its result and the state it leaves. *)
Definition do_wait (t : instant_t) (w : world) : Z * world :=
  (fst (wait_until E t w), mk_world (snd (wait_until E t w)) (trace w ++ [AWait t])).

(** Lines 53-70: [res] is what [wait_until] returned, [event] the head of
    the event queue seen before the wait. *)
Definition after_wait (fuel : nat) (event : option event_t) (res : Z)
    (w : world) : outcome (Z * world) :=
  if res <? 0 then
    let new_event := pqueue_peek (event_q (rt w)) in
    if same_event new_event event then
      if stop_reached (rt w) || is_null new_event
      then Done (0, on_rt (set_stop_requested true) w)
      else run_tag fuel w
    else
      match new_event with
      | None => Fault w                 (* next_time = event->time on NULL *)
      | Some _ => run_tag fuel w
      end
  else run_tag fuel w.

(** Lines 42-50. *)
Definition next_time_of (event : option event_t) : instant_t :=
  match event with
  | None => LLONG_MAX
  | Some e => time e
  end.

(** Lines 38-166.  [fuel] bounds the turns of the [do] loop and of the
    [while] loop over [reaction_q]. *)
Definition next (fuel : nat) (w : world) : outcome (Z * world) :=
  let event := pqueue_peek (event_q (rt w)) in
  if is_null event && negb (wait_specified (rt w)) then Done (0, w)
  else
    let ww := do_wait (next_time_of event) w in
    after_wait fuel event (fst ww) (snd ww).

(** ** Start and end of the program *)

(** Lines 169-180. *)
Definition wrapup (w : world) : world :=
  let start := physical_instant (physicalStartTime (rt w)) in
  let w1 :=
    log (APrintf "Elapsed logical time (in nsec): %lld\n"
           (sub64 (current_time (rt w)) start)) w in
  let now := clock_gettime E w1 in
  let w2 := log (AClock now) w1 in
  log (APrintf "Elapsed physical time (in nsec): %lld\n"
         (sub64 (physical_instant now) start)) w2.

(** Line 186: [while (next() != 0 && !stop_requested);]. *)
Fixpoint event_loop (inner fuel : nat) (w : world) : outcome world :=
  match fuel with
  | O => Timeout w
  | S n =>
    match next inner w with
    | Done (r, w') =>
      if negb (r =? 0) && negb (stop_requested (rt w'))
      then event_loop inner n w'
      else Done w'
    | Fault x => Fault x
    | Timeout x => Timeout x
    end
  end.

(** Lines 182-192. *)
Definition main (inner fuel : nat) (argc : Z) (argv : list string)
    (w : world) : outcome (Z * world) :=
  let w1 := mk_world (snd (process_args E argc argv w)) (trace w ++ [AProcessArgs]) in
  if negb (fst (process_args E argc argv w) =? 0) then
    let w2 := call AInitialize (initialize E) w1 in
    let w3 := call AStartTimers (__start_timers E) w2 in
    match event_loop inner fuel w3 with
    | Done w4 => Done (0, wrapup w4)
    | Fault x => Fault x
    | Timeout x => Timeout x
    end
  else Done (-1, w1).

End Reactor.

Arguments Done {U A} a.
Arguments Fault {U A} w.
Arguments Timeout {U A} w.

(** ** Notions used in the statements *)

Section Notions.

Context {U : Type}.

(** The state in which a run of [next], [run_tag] or [main] ended. *)
Definition world_of (o : outcome (Z * @world U)) : world :=
  match o with
  | Done (_, w) => w
  | Fault w => w
  | Timeout w => w
  end.

(** The state in which a run of one loop ended. *)
Definition loop_world (o : outcome (@world U)) : world :=
  match o with
  | Done w => w
  | Fault w => w
  | Timeout w => w
  end.

(** [w'] continues [w]: its trace is the trace of [w] followed by actions
    that all satisfy [Q]. *)
Definition extends_by (Q : action -> Prop) (w w' : @world U) : Prop :=
  exists l, trace w' = trace w ++ l /\ Forall Q l.

(** The address [__schedule] gives the event record it acquires: the head
    of [recycle_q], or a fresh one. *)
Definition acquired_addr (r : @runtime U) : Z :=
  match pqueue_pop (recycle_q r) with
  | Some (e, _) => ev_addr e
  | None => brk r
  end.

(** A function called by the runtime leaves a part of the state as it
    found it. *)
Definition keeps {A : Type} (proj : @runtime U -> A) (f : @world U -> runtime) : Prop :=
  forall w, proj (f w) = proj (rt w).

End Notions.

(** The actions a time step is made of (everything [next] does after the
    wait). *)
Definition tag_action (a : action) : Prop :=
  match a with
  | AStartTimeStep | APop _ | ASchedule _ _ _ | AClock _
  | AInvoke _ _ | AOutputs _ | AFree _ => True
  | _ => False
  end.

(** [l] is one invocation of each reaction of [hs], in the order of [hs]. *)
Definition invocations_of (hs : list reaction_id) (l : list action) : Prop :=
  Forall2 (fun a h => exists c, a = AInvoke h c) l hs.

Definition is_wait (a : action) : Prop :=
  match a with
  | AWait _ => True
  | _ => False
  end.

(** The actions [next] is made of. *)
Definition loop_action (a : action) : Prop := tag_action a \/ is_wait a.

(** The actions of the [while] loop over [reaction_q]. *)
Definition reaction_action (a : action) : Prop :=
  match a with
  | AClock _ | AInvoke _ _ | AOutputs _ => True
  | _ => False
  end.

(** The actions of the [do] loop over [event_q]. *)
Definition drain_action (a : action) : Prop :=
  match a with
  | APop _ | ASchedule _ _ _ => True
  | _ => False
  end.

Definition is_free (a : action) : Prop :=
  match a with
  | AFree _ => True
  | _ => False
  end.

(** The events popped from the event queue, in order. *)
Fixpoint popped (l : list action) : list event_t :=
  match l with
  | [] => []
  | APop e :: l' => e :: popped l'
  | _ :: l' => popped l'
  end.

(** The reactions invoked, in order. *)
Fixpoint invoked (l : list action) : list reaction_id :=
  match l with
  | [] => []
  | AInvoke r _ :: l' => r :: invoked l'
  | _ :: l' => invoked l'
  end.

(** The payloads of the events of [l] that carry one. *)
Definition live_payloads (l : list event_t) : list ptr :=
  map payload (filter (fun e => negb (payload e =? NULL)) l).

(** The events with a payload, parked in [free_q] in the order in which
    the [do] loop popped them. *)
Definition parked (l : list event_t) : list event_t :=
  map zeroed (filter (fun e => negb (payload e =? NULL)) l).

(** [a] is not an invocation, or one made at logical time [c]. *)
Definition fired_at (c : instant_t) (a : action) : Prop :=
  match a with
  | AInvoke _ c' => c' = c
  | _ => True
  end.

(** [a] is not an invocation, or one made at a logical time not later
    than [c]. *)
Definition fired_by (c : instant_t) (a : action) : Prop :=
  match a with
  | AInvoke _ c' => c' <= c
  | _ => True
  end.

Section Disciplines.

Context {U : Type}.
Variable E : @env U.

(** The logical clock and the stop time, read together. *)
Definition clocks (s : @runtime U) : instant_t * instant_t :=
  (current_time s, stop_time s).

(** Reaction bodies and hooks do not set the logical clock or the stop
    time, and [wait_until] keeps the stop time and does not take logical
    time beyond a stop time that is set (the comment at its call: a negative
    result means the sleep was interrupted or the stop time has been
    reached). *)
Record clock_discipline : Prop := {
  function_clocks : forall r, keeps clocks (function E r);
  outputs_clocks : forall r, keeps clocks (trigger_output_reactions E r);
  start_clocks : keeps clocks (__start_time_step E);
  wait_stop_time : forall t w, stop_time (snd (wait_until E t w)) = stop_time (rt w);
  wait_bounded :
    forall t w,
      0 < stop_time (rt w) ->
      current_time (rt w) <= stop_time (rt w) ->
      current_time (snd (wait_until E t w)) <= stop_time (rt w)
}.

(** Reaction bodies leave the reaction queue alone, propagating outputs
    only adds to it, and the start-of-step hook leaves the event queue
    alone. *)
Record queue_discipline : Prop := {
  function_reaction_q : forall r, keeps reaction_q (function E r);
  outputs_reaction_q :
    forall r w x,
      In x (reaction_q (rt w)) -> In x (reaction_q (trigger_output_reactions E r w));
  start_event_q : keeps event_q (__start_time_step E)
}.

(** The number of events of [q] stamped [c]. *)
Definition count_now (c : instant_t) (q : list event_t) : nat :=
  length (filter (fun e => time e =? c) q).

(** The total weight of the reactions of [q]. *)
Definition weight (W : reaction_id -> nat) (q : list reaction_id) : nat :=
  fold_right (fun r n => (W r + n)%nat) O q.

(** What makes the two unbounded loops of [next] end.  No periodic
    trigger is scheduled again at the instant at which it fired (the net
    delay of its rescheduling is not zero).  Each reaction has a weight, at
    least 1, that exceeds the total weight of what propagating its outputs
    adds to the reaction queue (as when the reactions enqueued are
    downstream in an acyclic graph). *)
Record termination_discipline (W : reaction_id -> nat) : Prop := {
  reschedule_later :
    forall t, 0 < period (triggers E t) ->
      effective_delay E t (sub64 (period (triggers E t)) (offset (triggers E t))) <> 0;
  weight_positive : forall r, (1 <= W r)%nat;
  outputs_weight :
    forall r w,
      (weight W (reaction_q (trigger_output_reactions E r w)) + 1
       <= weight W (reaction_q (rt w)) + W r)%nat
}.

(** The delay that separates the current instant from the stamp of an
    event made by [schedule (t, d, _)], as an integer: the offset and [d],
    and the offset once more if [__schedule] adds it. *)
Definition schedule_net_delay (t : trigger_id) (d : interval_t) : Z :=
  if offset_added_by___schedule E
  then offset (triggers E t) + (offset (triggers E t) + d)
  else offset (triggers E t) + d.

End Disciplines.

(** ** Notions used in the further properties *)

(** The instants [wait_until] was asked to wait for, in order. *)
Fixpoint waits (l : list action) : list instant_t :=
  match l with
  | [] => []
  | AWait t :: l' => t :: waits l'
  | _ :: l' => waits l'
  end.

(** The readings of the physical clock, in order. *)
Fixpoint readings (l : list action) : list timespec :=
  match l with
  | [] => []
  | AClock ts :: l' => ts :: readings l'
  | _ :: l' => readings l'
  end.

(** The reactions for which [trigger_output_reactions] was called, in
    order: the reactions the [while] loop popped and ran, the handlers of
    a deadline violation left out. *)
Fixpoint propagated (l : list action) : list reaction_id :=
  match l with
  | [] => []
  | AOutputs r :: l' => r :: propagated l'
  | _ :: l' => propagated l'
  end.

(** What lines 93-95 leave in [trigger->payload] of the trigger [t] once
    the events of [l] were popped in this order, [p] being there before. *)
Definition last_payload (t : trigger_id) (l : list event_t) (p : ptr) : ptr :=
  fold_left (fun p' e => if Nat.eqb t (trigger e) then payload e else p') l p.

(** A [timespec] as [clock_gettime] fills it: nanoseconds below one
    second, and seconds since 1970 that, in nanoseconds, fit a
    [long long]. *)
Definition normalised (ts : timespec) : Prop :=
  0 <= tv_sec ts <= 9223372035 /\ 0 <= tv_nsec ts < BILLION.

(** The time [a] is not later than the time [b]. *)
Definition not_later (a b : timespec) : Prop :=
  tv_sec a < tv_sec b \/ (tv_sec a = tv_sec b /\ tv_nsec a <= tv_nsec b).

Section Orders.

Context {U : Type}.
Variable E : @env U.

(** The reactions of the triggers of the events of [l], event by event. *)
Definition triggered (l : list event_t) : list reaction_id :=
  flat_map (fun e => reactions (triggers E (trigger e))) l.

(** The reactions of [l] that have a deadline (line 120:
    [reaction->deadline > 0LL]). *)
Definition with_deadline (l : list reaction_id) : list reaction_id :=
  filter (fun r => deadline (reaction_tbl E r) >? 0) l.

(** In [l] the physical clock is read as many times as reactions with a
    deadline are run. *)
Definition balanced (l : list action) : Prop :=
  length (readings l) = length (with_deadline (propagated l)).

(** The reactions of [q] come by index, smallest first. *)
Definition by_index (q : list reaction_id) : Prop :=
  StronglySorted Z.le (map (reaction_index E) q).

(** No reaction of [q] has an index smaller than the number [b]. *)
Definition from_index (b : Z) (q : list reaction_id) : Prop :=
  Forall (fun x => b <= reaction_index E x) q.

(** No function called by [next] clears or sets [stop_requested]. *)
Record stop_flag_discipline : Prop := {
  function_stop_flag : forall r, keeps stop_requested (function E r);
  outputs_stop_flag : forall r, keeps stop_requested (trigger_output_reactions E r);
  hook_stop_flag : keeps stop_requested (__start_time_step E);
  wait_stop_flag :
    forall t w, stop_requested (snd (wait_until E t w)) = stop_requested (rt w)
}.

(** Reaction bodies and the start-of-step hook leave the reaction queue
    alone, and propagating the outputs of a reaction leaves the queue in
    the order of the indices with no reaction of a smaller index than its
    own in it, when the queue was so before (the reactions it inserts are
    downstream of it). *)
Record index_discipline : Prop := {
  bodies_reaction_q : forall r, keeps reaction_q (function E r);
  hook_reaction_q : keeps reaction_q (__start_time_step E);
  outputs_downstream :
    forall r w,
      by_index (reaction_q (rt w)) ->
      from_index (reaction_index E r) (reaction_q (rt w)) ->
      by_index (reaction_q (trigger_output_reactions E r w))
      /\ from_index (reaction_index E r) (reaction_q (trigger_output_reactions E r w))
}.

(** *** The loop of [main] and the waits *)

(** [ends_after inner w k w']: counted from the state [w], the [k]-th call
    of [next] is the first that returns 0 or leaves [stop_requested] set,
    and it leaves the state [w'] (line 186: the loop goes on while [next]
    returns a value other than 0 and no stop is requested). *)
Inductive ends_after (inner : nat) : world -> nat -> world -> Prop :=
| ends_now (w : world) (r : Z) (w' : world) :
    next E inner w = Done (r, w') ->
    r = 0 \/ stop_requested (rt w') = true ->
    ends_after inner w 1 w'
| ends_later (w : world) (r : Z) (w1 : world) (k : nat) (w' : world) :
    next E inner w = Done (r, w1) ->
    r <> 0 ->
    stop_requested (rt w1) = false ->
    ends_after inner w1 k w' ->
    ends_after inner w (S k) w'.

(** [wait_until] leaves the event queue alone and, asked for an instant
    beyond a stop time that is set, waits for the stop time only: it
    returns a negative value with logical time at the stop time (the
    comment at lines 54-55: the stop time has been reached, time has not
    advanced to the time of the event). *)
Record stop_aware_wait : Prop := {
  wait_event_q : forall t w, event_q (snd (wait_until E t w)) = event_q (rt w);
  wait_beyond :
    forall t w,
      0 < stop_time (rt w) -> stop_time (rt w) < t ->
      fst (wait_until E t w) < 0
      /\ stop_time (rt w) <= current_time (snd (wait_until E t w))
}.

(** Nothing interrupts [wait_until]: asked for an instant that is not
    beyond the stop time, it returns a non-negative value with logical
    time at that instant; and it leaves the reaction queue alone. *)
Record uninterrupted_wait : Prop := {
  wait_reaction_q :
    forall t w, reaction_q (snd (wait_until E t w)) = reaction_q (rt w);
  wait_reaches :
    forall t w,
      stop_time (rt w) <= 0 \/ t <= stop_time (rt w) ->
      0 <= fst (wait_until E t w)
      /\ current_time (snd (wait_until E t w)) = t
}.

(** Nothing but [next] puts events into the event queue or takes them out
    (the reactions schedule nothing), and the start-of-step hook leaves
    the reaction queue alone. *)
Record only_timers : Prop := {
  function_event_q : forall r, keeps event_q (function E r);
  outputs_event_q : forall r, keeps event_q (trigger_output_reactions E r);
  start_reaction_q : keeps reaction_q (__start_time_step E)
}.

(** Between two calls of [next] in a program whose only source of events
    is the timer [t0]: the one event queued is an event of [t0] stamped
    [c] without payload, no reaction is queued, no stop is requested and
    the stop time is [s]. *)
Definition timer_waiting (t0 : trigger_id) (c s : instant_t) (w : @world U) : Prop :=
  (exists a, event_q (rt w) = [mk_event a c t0 NULL])
  /\ reaction_q (rt w) = []
  /\ stop_requested (rt w) = false
  /\ stop_time (rt w) = s.

(** The calls of [__schedule] that lines 86-92 make for the events of [l],
    popped in this order: one for each event whose trigger has a positive
    period. *)
Definition reschedulings (l : list event_t) : list (trigger_id * interval_t * ptr) :=
  map (fun e => (trigger e,
                 sub64 (period (triggers E (trigger e))) (offset (triggers E (trigger e))),
                 NULL))
    (filter (fun e => period (triggers E (trigger e)) >? 0) l).

End Orders.

(** The calls of [__schedule] made by [next], in order. *)
Fixpoint rescheduled (l : list action) : list (trigger_id * interval_t * ptr) :=
  match l with
  | [] => []
  | ASchedule t d p :: l' => (t, d, p) :: rescheduled l'
  | _ :: l' => rescheduled l'
  end.

(** [c], [c + per], ..., [c + (k - 1) * per]. *)
Definition firings (c per : Z) (k : nat) : list instant_t :=
  map (fun j => c + Z.of_nat j * per) (seq 0 k).

(** ** Sample programs

    Small concrete programs on which the statements below are exercised. *)

(** A wait that never blocks: logical time jumps to the instant asked for,
    but not beyond the stop time, and a negative result reports that the
    stop time came first. *)
Definition fast_wait {U : Type} (t : instant_t) (w : @world U) : Z * runtime :=
  let s := rt w in
  if (stop_time s >? 0) && (t >? stop_time s)
  then (-1, set_current_time (stop_time s) s)
  else (0, set_current_time t s).

(** A wait that a signal interrupts at instant [at]. *)
Definition interrupted_wait {U : Type} (at_ : instant_t) (t : instant_t)
    (w : @world U) : Z * runtime :=
  (-1, set_current_time at_ (rt w)).

(** A wait that returns early at instant [at_] because another thread has
    put the event [e] into the event queue. *)
Definition async_wait {U : Type} (at_ : instant_t) (e : event_t) (t : instant_t)
    (w : @world U) : Z * runtime :=
  (-1, set_event_q (pqueue_insert time e (event_q (rt w)))
         (set_current_time at_ (rt w))).

(** The reaction body used in the samples: it appends the current logical
    time to the reactor state. *)
Definition record_time (r : reaction_id) (w : @world (list Z)) : runtime :=
  set_user (user (rt w) ++ [current_time (rt w)]) (rt w).

(** One trigger (number 0) with the given offset and period and one
    reaction (number 0) without deadline.  The timer is started at its
    offset; [adds] says whether [__schedule] adds the offset. *)
Definition timer_tables (adds : bool) (off per : interval_t)
    (start : @world (list Z) -> runtime) : @env (list Z) :=
  mk_env
    (fun _ => mk_trigger off per [0%nat])
    (fun _ => mk_reaction 0 0 None)
    record_time
    (fun _ w => rt w)
    (fun w => rt w)
    fast_wait
    (fun _ => mk_timespec 0 0)
    (fun _ _ w => (1, rt w))
    (fun w => rt w)
    start
    adds.

Definition timer_env (adds : bool) (off per : interval_t) : @env (list Z) :=
  timer_tables adds off per
    (fun w =>
       snd (__schedule (timer_tables adds off per (fun w' => rt w'))
              0%nat (if adds then 0 else off) NULL (rt w))).

(** Scenario S6: the tables of the timer program, with no timer started. *)
Definition idle_env : @env (list Z) :=
  timer_tables false 0 0 (fun w => rt w).

(** The same program with another [wait_until]. *)
Definition with_wait {U : Type} (wt : instant_t -> @world U -> Z * runtime)
    (E : @env U) : env :=
  mk_env (triggers E) (reaction_tbl E) (function E) (trigger_output_reactions E)
    (__start_time_step E) wt (clock_gettime E) (process_args E) (initialize E)
    (__start_timers E) (offset_added_by___schedule E).

(** The same program with another physical clock. *)
Definition with_clock {U : Type} (ck : @world U -> timespec) (E : @env U) : env :=
  mk_env (triggers E) (reaction_tbl E) (function E) (trigger_output_reactions E)
    (__start_time_step E) (wait_until E) ck (process_args E) (initialize E)
    (__start_timers E) (offset_added_by___schedule E).

(** The same program when [process_args] rejects the command line. *)
Definition with_bad_args {U : Type} (E : @env U) : env :=
  mk_env (triggers E) (reaction_tbl E) (function E) (trigger_output_reactions E)
    (__start_time_step E) (wait_until E) (clock_gettime E) (fun _ _ w => (0, rt w))
    (initialize E) (__start_timers E) (offset_added_by___schedule E).

(** Reaction 0 has a deadline of 1 ms and trigger 1 as its violation
    trigger; trigger 1 fires reaction 1, trigger 0 fires reaction 0. *)
Definition deadline_env : @env (list Z) :=
  mk_env
    (fun t => match t with
              | O => mk_trigger 0 0 [0%nat]
              | _ => mk_trigger 0 0 [1%nat]
              end)
    (fun r => match r with
              | O => mk_reaction 0 1000000 (Some 1%nat)
              | _ => mk_reaction 1 0 None
              end)
    record_time
    (fun _ w => rt w)
    (fun w => rt w)
    fast_wait
    (fun _ => mk_timespec 0 200000000)
    (fun _ _ w => (1, rt w))
    (fun w => rt w)
    (fun w => rt w)
    false.

(** Scenario S3: trigger 0 fires reaction 0, of index 5, and reaction 1,
    of index 2. *)
Definition two_reactions_env : @env (list Z) :=
  mk_env
    (fun _ => mk_trigger 0 0 [0%nat; 1%nat])
    (fun r => match r with
              | O => mk_reaction 5 0 None
              | _ => mk_reaction 2 0 None
              end)
    record_time
    (fun _ w => rt w)
    (fun w => rt w)
    fast_wait
    (fun _ => mk_timespec 0 0)
    (fun _ _ w => (1, rt w))
    (fun w => rt w)
    (fun w => rt w)
    false.

(** Scenario S2: trigger 0 fires reaction 0, whose body schedules trigger
    1 with no delay; trigger 1 fires reaction 1. *)
Definition chain_tables : @env (list Z) :=
  mk_env
    (fun t => match t with
              | O => mk_trigger 0 0 [0%nat]
              | _ => mk_trigger 0 0 [1%nat]
              end)
    (fun r => match r with
              | O => mk_reaction 0 0 None
              | _ => mk_reaction 1 0 None
              end)
    record_time
    (fun _ w => rt w)
    (fun w => rt w)
    fast_wait
    (fun _ => mk_timespec 0 0)
    (fun _ _ w => (1, rt w))
    (fun w => rt w)
    (fun w => rt w)
    false.

Definition chain_env : @env (list Z) :=
  mk_env (triggers chain_tables) (reaction_tbl chain_tables)
    (fun r w =>
       match r with
       | O => snd (schedule chain_tables 1%nat 0 NULL (record_time r w))
       | _ => record_time r w
       end)
    (trigger_output_reactions chain_tables) (__start_time_step chain_tables)
    (wait_until chain_tables) (clock_gettime chain_tables)
    (process_args chain_tables) (initialize chain_tables)
    (__start_timers chain_tables) false.

(** A wait that a signal interrupts before any time has passed. *)
Definition signal_wait {U : Type} (t : instant_t) (w : @world U) : Z * runtime :=
  (-1, rt w).

(** Three reactions, each with its number as index.  Trigger 0 lists
    reaction 2 before reaction 0, and reaction 0 has an output that
    triggers reaction 1. *)
Definition pipeline_env : @env (list Z) :=
  mk_env
    (fun _ => mk_trigger 0 0 [2%nat; 0%nat])
    (fun r => mk_reaction (Z.of_nat r) 0 None)
    record_time
    (fun r w =>
       match r with
       | O => set_reaction_q
                (pqueue_insert (fun x => Z.of_nat x) 1%nat (reaction_q (rt w))) (rt w)
       | _ => rt w
       end)
    (fun w => rt w)
    fast_wait
    (fun _ => mk_timespec 0 0)
    (fun _ _ w => (1, rt w))
    (fun w => rt w)
    (fun w => rt w)
    false.

(** The runtime [r] of a program started at the physical time [ts]. *)
Definition started_at {U : Type} (ts : timespec) (r : @runtime U) : runtime :=
  mk_runtime (current_time r) (stop_time r) (stop_requested r) (wait_specified r)
    ts (event_q r) (reaction_q r) (recycle_q r) (free_q r)
    (trigger_payload r) (__handle r) (brk r) (user r).

(** A runtime at logical time [now] with the given stop time and event
    queue, everything else empty. *)
Definition runtime_at {U : Type} (u : U) (now stop : instant_t) (wait : bool)
    (q : list event_t) : @runtime U :=
  mk_runtime now stop false wait (mk_timespec 0 0) q [] [] [] (fun _ => NULL) 0 1000 u.

Definition world_at {U : Type} (u : U) (now stop : instant_t) (wait : bool)
    (q : list event_t) : @world U :=
  mk_world (runtime_at u now stop wait q) [].

(** The first [k] instants [off], [off + per], [off + 2 * per], ... *)
Definition instants (off per : interval_t) (k : nat) : list instant_t :=
  map (fun j => off + Z.of_nat j * per) (seq 0 k).

(** The state of the timer program between two calls of [next], after [i]
    firings: one event in the queue, stamped with the instant number [i],
    and the instants at which the reaction ran so far. *)
Definition ticking (off per : interval_t) (i : nat) (w : @world (list Z)) : Prop :=
  stop_time (rt w) = 0
  /\ stop_requested (rt w) = false
  /\ reaction_q (rt w) = []
  /\ free_q (rt w) = []
  /\ (exists a, event_q (rt w) = [mk_event a (off + Z.of_nat i * per) 0%nat NULL])
  /\ user (rt w) = instants off per i.

(** * Properties *)

(** ** Arithmetic *)

Lemma wrap64_id (x : Z) : int64 x -> wrap64 x = x.
Proof.
  unfold int64, wrap64, LLONG_MIN, LLONG_MAX. intros H.
  change (2 ^ 63) with 9223372036854775808.
  change (2 ^ 64) with 18446744073709551616.
  rewrite Z.mod_small; lia.
Qed.

Lemma add64_exact (a b : Z) : int64 (a + b) -> add64 a b = a + b.
Proof. apply wrap64_id. Qed.

Lemma sub64_exact (a b : Z) : int64 (a - b) -> sub64 a b = a - b.
Proof. apply wrap64_id. Qed.

Lemma wrap64_range (x : Z) : int64 (wrap64 x).
Proof.
  unfold int64, wrap64, LLONG_MIN, LLONG_MAX.
  change (2 ^ 63) with 9223372036854775808.
  change (2 ^ 64) with 18446744073709551616.
  pose proof (Z.mod_pos_bound (x + 9223372036854775808) 18446744073709551616).
  lia.
Qed.

(** Adding a delay other than zero changes the instant. *)
Lemma add64_moves (c d : Z) : int64 d -> d <> 0 -> add64 c d <> c.
Proof.
  unfold add64, wrap64, int64, LLONG_MIN, LLONG_MAX.
  change (2 ^ 63) with 9223372036854775808.
  change (2 ^ 64) with 18446744073709551616.
  intros Hd Hz H.
  pose proof (Z.div_mod (c + d + 9223372036854775808) 18446744073709551616).
  lia.
Qed.

(** ** Priority queues *)

Lemma pqueue_insert_front {A : Type} (pri : A -> Z) (x : A) (q : list A) :
  Forall (fun y => pri x < pri y) q -> pqueue_insert pri x q = x :: q.
Proof.
  destruct q as [|y q]; simpl; [reflexivity|].
  intros H. inversion H; subst.
  destruct (Z.ltb_spec (pri x) (pri y)); [reflexivity | lia].
Qed.

Lemma pqueue_insert_back {A : Type} (pri : A -> Z) (x : A) (q : list A) :
  Forall (fun y => pri y <= pri x) q -> pqueue_insert pri x q = q ++ [x].
Proof.
  induction q as [|y q IH]; simpl; [reflexivity|].
  intros H. inversion H; subst.
  destruct (Z.ltb_spec (pri x) (pri y)); [lia|].
  now rewrite IH.
Qed.

Lemma pqueue_insert_app {A : Type} (pri : A -> Z) (x : A) (l1 l2 : list A) :
  Forall (fun y => pri y <= pri x) l1 ->
  pqueue_insert pri x (l1 ++ l2) = l1 ++ pqueue_insert pri x l2.
Proof.
  induction 1 as [|y l1 Hy _ IH]; simpl; [reflexivity|].
  destruct (Z.ltb_spec (pri x) (pri y)); [lia|]. now rewrite IH.
Qed.

(** Inserting splits the queue at the first element of greater priority
    value: what comes before is not greater. *)
Lemma pqueue_insert_split {A : Type} (pri : A -> Z) (x : A) (q : list A) :
  exists pre post,
    q = pre ++ post
    /\ pqueue_insert pri x q = pre ++ x :: post
    /\ Forall (fun y => pri y <= pri x) pre.
Proof.
  induction q as [|y q IH]; simpl.
  - exists [], []. auto.
  - destruct (Z.ltb_spec (pri x) (pri y)).
    + exists [], (y :: q). auto.
    + destruct IH as [pre [post [H1 [H2 H3]]]].
      exists (y :: pre), post. simpl. rewrite H2, <- H1. auto.
Qed.

Lemma pqueue_insert_In {A : Type} (pri : A -> Z) (x y : A) (q : list A) :
  In y (pqueue_insert pri x q) <-> y = x \/ In y q.
Proof.
  induction q as [|z q IH]; simpl.
  - intuition congruence.
  - destruct (pri x <? pri z); simpl; [intuition congruence|].
    rewrite IH. intuition.
Qed.

Lemma pqueue_size_positive {A : Type} (q : list A) :
  0 < pqueue_size q <-> pqueue_pop q <> None.
Proof.
  unfold pqueue_size. destruct q as [|x q]; simpl.
  - split; [lia | congruence].
  - split; [discriminate | lia].
Qed.

Lemma pqueue_insert_length {A : Type} (pri : A -> Z) (x : A) (q : list A) :
  length (pqueue_insert pri x q) = S (length q).
Proof.
  induction q as [|z q IH]; simpl; [reflexivity|].
  destruct (pri x <? pri z); simpl; congruence.
Qed.

Arguments pop_event : simpl never.
Arguments run_reaction : simpl never.
Arguments free_all : simpl never.

Section Facts.

Context {U : Type}.
Variable E : @env U.

(** ** Traces only grow *)

Lemma extends_by_refl (Q : action -> Prop) (w : @world U) : extends_by Q w w.
Proof. exists []. now rewrite app_nil_r. Qed.

Lemma extends_by_trans (Q : action -> Prop) (w1 w2 w3 : @world U) :
  extends_by Q w1 w2 -> extends_by Q w2 w3 -> extends_by Q w1 w3.
Proof.
  intros [l1 [H1 F1]] [l2 [H2 F2]]. exists (l1 ++ l2). split.
  - now rewrite H2, H1, app_assoc.
  - apply Forall_app; auto.
Qed.

Lemma extends_by_step (Q : action -> Prop) (a : action) (w w' : @world U) :
  Q a -> trace w' = trace w ++ [a] -> extends_by Q w w'.
Proof. intros Ha Ht. exists [a]. split; auto. Qed.

Lemma extends_by_same (Q : action -> Prop) (w w' : @world U) :
  trace w' = trace w -> extends_by Q w w'.
Proof. intros Ht. exists []. rewrite app_nil_r. auto. Qed.

Lemma extends_by_weaken (Q Q' : action -> Prop) (w w' : @world U) :
  (forall a, Q a -> Q' a) -> extends_by Q w w' -> extends_by Q' w w'.
Proof.
  intros HQ [l [Ht F]]. exists l. split; [auto|].
  eapply Forall_impl; eauto.
Qed.

Lemma reschedule_trace (t : trigger_id) (w : @world U) :
  trace (reschedule E t w) =
  trace w ++
  (if period (triggers E t) >? 0
   then [ASchedule t (sub64 (period (triggers E t)) (offset (triggers E t))) NULL]
   else []).
Proof.
  unfold reschedule. destruct (period (triggers E t) >? 0); simpl.
  - reflexivity.
  - now rewrite app_nil_r.
Qed.

Lemma pop_event_trace (e : event_t) (q : list event_t) (w : @world U) :
  trace (pop_event E e q w) =
  trace w ++ APop e ::
  (if period (triggers E (trigger e)) >? 0
   then [ASchedule (trigger e)
           (sub64 (period (triggers E (trigger e))) (offset (triggers E (trigger e))))
           NULL]
   else []).
Proof.
  unfold pop_event. simpl. rewrite reschedule_trace. simpl.
  now rewrite <- app_assoc.
Qed.

(** *** The loops, one turn at a time *)

Lemma drain_O (w : @world U) : drain E O w = Timeout w.
Proof. reflexivity. Qed.

Lemma drain_S (n : nat) (w : @world U) :
  drain E (S n) w =
  match event_q (rt w) with
  | [] => Fault w
  | e :: q =>
    if more_now (rt (pop_event E e q w))
    then drain E n (pop_event E e q w)
    else Done (pop_event E e q w)
  end.
Proof. simpl. destruct (event_q (rt w)); reflexivity. Qed.

Lemma invoke_reactions_nil (fuel : nat) (w : @world U) :
  reaction_q (rt w) = [] -> invoke_reactions E fuel w = Done w.
Proof. intros H. destruct fuel; simpl; rewrite H; reflexivity. Qed.

Lemma invoke_reactions_O (w : @world U) (r : reaction_id) (q : list reaction_id) :
  reaction_q (rt w) = r :: q -> invoke_reactions E O w = Timeout w.
Proof. intros H. simpl. rewrite H. reflexivity. Qed.

Lemma invoke_reactions_S (n : nat) (w : @world U) (r : reaction_id)
    (q : list reaction_id) :
  reaction_q (rt w) = r :: q ->
  invoke_reactions E (S n) w =
  invoke_reactions E n (run_reaction E r (on_rt (set_reaction_q q) w)).
Proof. intros H. simpl. rewrite H. reflexivity. Qed.

Section Growth.

Variable Q : action -> Prop.

Lemma pop_event_by (e : event_t) (q : list event_t) (w : @world U) :
  Q (APop e) -> (forall t d p, Q (ASchedule t d p)) ->
  extends_by Q w (pop_event E e q w).
Proof.
  intros Hp Hs. eexists. split; [apply pop_event_trace|].
  constructor; [exact Hp|].
  destruct (period _ >? 0); constructor; auto.
Qed.

Lemma drain_by (fuel : nat) (w : @world U) :
  (forall e, Q (APop e)) -> (forall t d p, Q (ASchedule t d p)) ->
  extends_by Q w (loop_world (drain E fuel w)).
Proof.
  intros Hp Hs. revert w.
  induction fuel as [|n IH]; intros w; [apply extends_by_refl|].
  rewrite drain_S.
  destruct (event_q (rt w)) as [|e q] eqn:Hq; [apply extends_by_refl|].
  assert (Hx : extends_by Q w (pop_event E e q w)) by (apply pop_event_by; auto).
  destruct (more_now (rt (pop_event E e q w))); [|exact Hx].
  eapply extends_by_trans; [exact Hx | apply IH].
Qed.

Lemma invoke_handlers_by (hs : list reaction_id) (w : @world U) :
  (forall r c, Q (AInvoke r c)) ->
  extends_by Q w (fold_left (fun w' h => invoke E h w') hs w).
Proof.
  intros Hi. revert w. induction hs as [|h hs IH]; intros w; simpl.
  - apply extends_by_refl.
  - eapply extends_by_trans; [|apply IH].
    eapply extends_by_step; [apply Hi | reflexivity].
Qed.

Lemma check_deadline_by (r : reaction_id) (w : @world U) :
  (forall ts, Q (AClock ts)) -> (forall r' c, Q (AInvoke r' c)) ->
  extends_by Q w (check_deadline E r w).
Proof.
  intros Hc Hi. unfold check_deadline.
  destruct (deadline (reaction_tbl E r) >? 0); [|apply extends_by_refl].
  set (w1 := log (AClock (clock_gettime E w)) w).
  assert (H1 : extends_by Q w w1) by (eapply extends_by_step; [apply Hc | reflexivity]).
  destruct (physical_instant _ >? _); [|exact H1].
  destruct (deadline_violation (reaction_tbl E r)); [|exact H1].
  eapply extends_by_trans; [exact H1 | apply invoke_handlers_by; auto].
Qed.

Lemma run_reaction_by (r : reaction_id) (w : @world U) :
  (forall ts, Q (AClock ts)) -> (forall r' c, Q (AInvoke r' c)) ->
  (forall r', Q (AOutputs r')) ->
  extends_by Q w (run_reaction E r w).
Proof.
  intros Hc Hi Ho. unfold run_reaction.
  set (w1 := check_deadline E r w). set (w2 := invoke E r w1).
  apply extends_by_trans with w1; [apply check_deadline_by; auto|].
  apply extends_by_trans with w2.
  - apply extends_by_step with (a := AInvoke r (current_time (rt w1))); auto.
  - apply extends_by_step with (a := AOutputs r); auto.
Qed.

Lemma invoke_reactions_by (fuel : nat) (w : @world U) :
  (forall ts, Q (AClock ts)) -> (forall r' c, Q (AInvoke r' c)) ->
  (forall r', Q (AOutputs r')) ->
  extends_by Q w (loop_world (invoke_reactions E fuel w)).
Proof.
  intros Hc Hi Ho. revert w.
  induction fuel as [|n IH]; intros w;
    destruct (reaction_q (rt w)) as [|r q] eqn:Hq.
  - rewrite invoke_reactions_nil by exact Hq. apply extends_by_refl.
  - rewrite (invoke_reactions_O _ _ _ Hq). apply extends_by_refl.
  - rewrite invoke_reactions_nil by exact Hq. apply extends_by_refl.
  - rewrite (invoke_reactions_S _ _ _ _ Hq).
  eapply extends_by_trans; [|apply IH].
  eapply extends_by_trans; [|apply run_reaction_by; auto].
  apply extends_by_same. reflexivity.
Qed.

End Growth.

Lemma free_payloads_trace (q : list event_t) (w : @world U) :
  trace (free_payloads q w) = trace w ++ map (fun e => AFree (payload e)) q.
Proof.
  revert w. induction q as [|e q IH]; intros w; simpl.
  - now rewrite app_nil_r.
  - rewrite IH. simpl. now rewrite <- app_assoc.
Qed.

Lemma free_payloads_free_q (q : list event_t) (w : @world U) :
  free_q (rt w) = q -> free_q (rt (free_payloads q w)) = [].
Proof.
  revert w. induction q as [|e q IH]; intros w H; simpl; [exact H|].
  apply IH. reflexivity.
Qed.

Lemma free_all_trace (w : @world U) :
  trace (free_all w) = trace w ++ map (fun e => AFree (payload e)) (free_q (rt w)).
Proof. apply free_payloads_trace. Qed.

Lemma free_all_free_q (w : @world U) : free_q (rt (free_all w)) = [].
Proof. now apply free_payloads_free_q. Qed.

(** *** A whole time step *)

Lemma check_stop_trace (w : @world U) : trace (snd (check_stop w)) = trace w.
Proof. unfold check_stop. destruct (stop_reached (rt w)); reflexivity. Qed.

Lemma run_tag_after_drain (fuel : nat) (w : @world U) :
  extends_by tag_action
    (loop_world (drain E fuel (call AStartTimeStep (__start_time_step E) w)))
    (world_of (run_tag E fuel w)).
Proof.
  unfold run_tag.
  destruct (drain E fuel _) as [w2|x|x]; simpl; try apply extends_by_refl.
  pose proof (invoke_reactions_by tag_action fuel w2) as Hi.
  destruct (invoke_reactions E fuel w2) as [w3|x|x]; simpl in *;
    try (apply Hi; simpl; auto).
  eapply extends_by_trans; [apply Hi; simpl; auto|].
  destruct (check_stop (free_all w3)) as [r w4] eqn:Hc. simpl.
  assert (Ht : trace w4 = trace (free_all w3)).
  { change w4 with (snd (r, w4)). rewrite <- Hc. apply check_stop_trace. }
  exists (map (fun e => AFree (payload e)) (free_q (rt w3))). split.
  - rewrite Ht. apply free_all_trace.
  - apply Forall_forall. intros a Ha. apply in_map_iff in Ha.
    destruct Ha as [e [<- _]]. exact I.
Qed.

Lemma run_tag_by (fuel : nat) (w : @world U) :
  extends_by tag_action w (world_of (run_tag E fuel w)).
Proof.
  eapply extends_by_trans; [|apply run_tag_after_drain].
  eapply extends_by_trans; [|apply drain_by; simpl; auto].
  apply extends_by_step with (a := AStartTimeStep); simpl; auto.
Qed.

Lemma after_wait_by (fuel : nat) (ev : option event_t) (res : Z) (w : @world U) :
  extends_by tag_action w (world_of (after_wait E fuel ev res w)).
Proof.
  unfold after_wait.
  destruct (res <? 0); [|apply run_tag_by].
  destruct (same_event _ ev).
  - destruct (stop_reached (rt w) || is_null _);
      [apply extends_by_same; reflexivity | apply run_tag_by].
  - destruct (pqueue_peek _); [apply run_tag_by | apply extends_by_refl].
Qed.

(** Whatever [next] does after the wait, it waits once and only once. *)
Lemma next_waits_once (fuel : nat) (w : @world U) :
  is_null (pqueue_peek (event_q (rt w))) && negb (wait_specified (rt w)) = false ->
  exists l,
    trace (world_of (next E fuel w)) =
      trace w ++ AWait (next_time_of (pqueue_peek (event_q (rt w)))) :: l
    /\ Forall tag_action l.
Proof.
  intros H. unfold next. rewrite H.
  destruct (after_wait_by fuel (pqueue_peek (event_q (rt w)))
              (fst (do_wait E (next_time_of (pqueue_peek (event_q (rt w)))) w))
              (snd (do_wait E (next_time_of (pqueue_peek (event_q (rt w)))) w)))
    as [l [Hl Fl]].
  exists l. split; [|exact Fl].
  rewrite Hl. simpl. now rewrite <- app_assoc.
Qed.

(** *** The [do] loop faults exactly on an empty event queue *)

Lemma drain_fault (fuel : nat) (w x : @world U) :
  drain E fuel w = Fault x -> event_q (rt w) = [] /\ x = w.
Proof.
  revert w. induction fuel as [|n IH]; intros w; [discriminate|].
  rewrite drain_S. destruct (event_q (rt w)) as [|e q] eqn:Hq.
  - intros H. inversion H. auto.
  - destruct (more_now (rt (pop_event E e q w))) eqn:Hm; [|discriminate].
    intros H. apply IH in H. destruct H as [H _].
    unfold more_now in Hm. rewrite H in Hm. discriminate.
Qed.

Lemma drain_empty (n : nat) (w : @world U) :
  event_q (rt w) = [] -> drain E (S n) w = Fault w.
Proof. intros H. rewrite drain_S, H. reflexivity. Qed.

(** With an event in the queue the first, unconditional pop returns it and
    the loop never dereferences NULL. *)
Lemma drain_safe (fuel : nat) (w : @world U) (e : event_t) (q : list event_t) :
  event_q (rt w) = e :: q -> forall x, drain E fuel w <> Fault x.
Proof.
  intros H x Hx. apply drain_fault in Hx. destruct Hx as [Hx _]. congruence.
Qed.

Lemma invoke_reactions_safe (fuel : nat) (w x : @world U) :
  invoke_reactions E fuel w <> Fault x.
Proof.
  revert w. induction fuel as [|n IH]; intros w;
    destruct (reaction_q (rt w)) as [|r q] eqn:Hq.
  - rewrite invoke_reactions_nil by exact Hq. discriminate.
  - rewrite (invoke_reactions_O _ _ _ Hq). discriminate.
  - rewrite invoke_reactions_nil by exact Hq. discriminate.
  - rewrite (invoke_reactions_S _ _ _ _ Hq). apply IH.
Qed.

(** A time step faults only if the event queue is empty when the [do]
    loop begins. *)
Lemma run_tag_fault (fuel : nat) (w x : @world U) :
  run_tag E fuel w = Fault x -> event_q (__start_time_step E w) = [].
Proof.
  unfold run_tag.
  destruct (drain E fuel _) as [w2|y|y] eqn:Hd; try discriminate.
  - pose proof (invoke_reactions_safe fuel w2) as Hs.
    destruct (invoke_reactions E fuel w2) as [w3|y|y]; try discriminate.
    intros H. exfalso. apply (Hs y). reflexivity.
  - intros _. apply drain_fault in Hd. destruct Hd as [Hd _]. exact Hd.
Qed.

(** On the paths on which [next] found an event before the wait and the
    queue is not empty after it, nothing dereferences NULL. *)
Lemma next_safe_with_event (fuel : nat) (w : @world U) (e e' : event_t)
    (q q' : list event_t) :
  event_q (rt w) = e :: q ->
  event_q (snd (wait_until E (time e) w)) = e' :: q' ->
  keeps event_q (__start_time_step E) ->
  forall x, next E fuel w <> Fault x.
Proof.
  intros Hq Hq' Hst x. unfold next. rewrite Hq. simpl.
  set (w1 := mk_world (snd (wait_until E (time e) w)) (trace w ++ [AWait (time e)])).
  assert (Hrun : run_tag E fuel w1 <> Fault x).
  { intros H. apply run_tag_fault in H. rewrite Hst in H.
    unfold w1 in H. simpl in H. congruence. }
  unfold after_wait.
  destruct (fst (wait_until E (time e) w) <? 0); [|exact Hrun].
  replace (event_q (rt w1)) with (e' :: q') by (symmetry; exact Hq').
  simpl. destruct (ev_addr e' =? ev_addr e); [|exact Hrun].
  destruct (stop_reached _ || false); [discriminate | exact Hrun].
Qed.

(** *** Return values *)

Lemma check_stop_value (w : @world U) :
  fst (check_stop w) = 0 \/ fst (check_stop w) = 1.
Proof. unfold check_stop. destruct (stop_reached (rt w)); auto. Qed.

Lemma run_tag_value (fuel : nat) (w : @world U) (r : Z) (w' : @world U) :
  run_tag E fuel w = Done (r, w') -> r = 0 \/ r = 1.
Proof.
  unfold run_tag.
  destruct (drain E fuel _) as [w2|x|x]; try discriminate.
  destruct (invoke_reactions E fuel w2) as [w3|x|x]; try discriminate.
  intros H. inversion H as [H'].
  pose proof (check_stop_value (free_all w3)) as Hv. rewrite H' in Hv. exact Hv.
Qed.

Lemma after_wait_value (fuel : nat) (ev : option event_t) (res : Z)
    (w : @world U) (r : Z) (w' : @world U) :
  after_wait E fuel ev res w = Done (r, w') -> r = 0 \/ r = 1.
Proof.
  unfold after_wait.
  destruct (res <? 0); [|apply run_tag_value].
  destruct (same_event _ ev).
  - destruct (stop_reached (rt w) || is_null _); [|apply run_tag_value].
    intros H. inversion H. auto.
  - destruct (pqueue_peek _); [apply run_tag_value | discriminate].
Qed.

(** C5.  [next] returns only 0 or 1.  With an empty event queue and
    [wait_specified] false it returns 0 at once: the state, and so the
    current time, is unchanged and nothing was invoked.  With an empty
    event queue and [wait_specified] true it calls [wait_until(LLONG_MAX)]
    first, and goes on from what that call returns. *)
Theorem next_return_values (fuel : nat) (w : @world U) :
  (forall r w', next E fuel w = Done (r, w') -> r = 0 \/ r = 1)
  /\ (event_q (rt w) = [] -> wait_specified (rt w) = false ->
      next E fuel w = Done (0, w))
  /\ (event_q (rt w) = [] -> wait_specified (rt w) = true ->
      next E fuel w =
        after_wait E fuel None (fst (wait_until E LLONG_MAX w))
          (mk_world (snd (wait_until E LLONG_MAX w)) (trace w ++ [AWait LLONG_MAX]))
      /\ exists l,
           trace (world_of (next E fuel w)) = trace w ++ AWait LLONG_MAX :: l
           /\ Forall tag_action l).
Proof.
  split; [|split].
  - intros r w'. unfold next.
    destruct (is_null _ && negb _).
    + intros H. inversion H. auto.
    + apply after_wait_value.
  - intros Hq Hw. unfold next. rewrite Hq, Hw. reflexivity.
  - intros Hq Hw. split.
    + unfold next. rewrite Hq, Hw. reflexivity.
    + pose proof (next_waits_once fuel w) as H.
      rewrite Hq, Hw in H. simpl in H. apply H. reflexivity.
Qed.

(** C9.  The path on which the claim fails: the event queue is empty,
    [wait_specified] is set, and [wait_until(LLONG_MAX)] returns a
    non-negative value with the queue still empty.  Then [next] goes on to
    [__start_time_step] and to the [do] loop, whose first pop returns NULL,
    and [event->trigger] dereferences it. *)
Theorem next_pops_empty_queue (n : nat) (w : @world U) :
  event_q (rt w) = [] ->
  wait_specified (rt w) = true ->
  0 <= fst (wait_until E LLONG_MAX w) ->
  event_q (snd (wait_until E LLONG_MAX w)) = [] ->
  keeps event_q (__start_time_step E) ->
  exists x,
    next E (S n) w = Fault x
    /\ event_q (rt x) = []
    /\ trace x = trace w ++ [AWait LLONG_MAX; AStartTimeStep].
Proof.
  intros Hq Hw Hres Hq' Hst.
  set (w1 := mk_world (snd (wait_until E LLONG_MAX w)) (trace w ++ [AWait LLONG_MAX])).
  set (w2 := call AStartTimeStep (__start_time_step E) w1).
  assert (H2 : event_q (rt w2) = []).
  { unfold w2, call. simpl. rewrite Hst. exact Hq'. }
  exists w2. split; [|split].
  - unfold next. rewrite Hq, Hw. simpl.
    unfold after_wait.
    destruct (Z.ltb_spec (fst (wait_until E LLONG_MAX w)) 0); [lia|].
    unfold run_tag. fold w1. fold w2.
    rewrite (drain_empty n w2 H2). reflexivity.
  - exact H2.
  - unfold w2, w1, call. simpl. now rewrite <- app_assoc.
Qed.

(** ** Scheduling *)

Lemma __schedule_event_q (t : trigger_id) (d : interval_t) (p : ptr)
    (r : @runtime U) :
  event_q (snd (__schedule E t d p r)) =
  pqueue_insert time
    (mk_event (acquired_addr r) (add64 (current_time r) (effective_delay E t d)) t p)
    (event_q r).
Proof.
  unfold __schedule, acquired_addr.
  destruct (pqueue_pop (recycle_q r)) as [[e q]|]; reflexivity.
Qed.

Lemma schedule_event_q (t : trigger_id) (d : interval_t) (p : ptr) (r : @runtime U) :
  event_q (snd (schedule E t d p r)) =
  pqueue_insert time
    (mk_event (acquired_addr r)
       (add64 (current_time r)
          (effective_delay E t (add64 (offset (triggers E t)) d))) t p)
    (event_q r).
Proof.
  unfold schedule, __schedule, acquired_addr.
  destruct (pqueue_pop (recycle_q r)) as [[e q]|]; reflexivity.
Qed.

Lemma schedule_current_time (t : trigger_id) (d : interval_t) (p : ptr)
    (r : @runtime U) :
  current_time (snd (schedule E t d p r)) = current_time r.
Proof.
  unfold schedule, __schedule.
  destruct (pqueue_pop (recycle_q r)) as [[e q]|]; reflexivity.
Qed.

Lemma effective_delay_exact (t : trigger_id) (d : interval_t) :
  int64 (offset (triggers E t) + d) ->
  int64 (schedule_net_delay E t d) ->
  effective_delay E t (add64 (offset (triggers E t)) d) = schedule_net_delay E t d.
Proof.
  unfold effective_delay, schedule_net_delay. intros Hn Hs.
  rewrite (add64_exact _ d) by exact Hn.
  destruct (offset_added_by___schedule E); [|reflexivity].
  apply add64_exact. exact Hs.
Qed.

Lemma schedule_stamp (t : trigger_id) (d : interval_t) (p : ptr) (r : @runtime U) :
  int64 (offset (triggers E t) + d) ->
  int64 (schedule_net_delay E t d) ->
  int64 (current_time r + schedule_net_delay E t d) ->
  event_q (snd (schedule E t d p r)) =
    pqueue_insert time
      (mk_event (acquired_addr r) (current_time r + schedule_net_delay E t d) t p)
      (event_q r).
Proof.
  intros Hn Hs Hc. rewrite schedule_event_q.
  rewrite effective_delay_exact by assumption.
  rewrite add64_exact by exact Hc. reflexivity.
Qed.

(** ** Deadlines *)

Lemma invoke_handlers_trace (hs : list reaction_id) (w : @world U) :
  exists l,
    trace (fold_left (fun w' h => invoke E h w') hs w) = trace w ++ l
    /\ invocations_of hs l.
Proof.
  revert w. induction hs as [|h hs IH]; intros w; simpl.
  - exists []. split; [now rewrite app_nil_r | constructor].
  - destruct (IH (invoke E h w)) as [l [Hl Fl]].
    exists (AInvoke h (current_time (rt w)) :: l). split.
    + rewrite Hl. simpl. now rewrite <- app_assoc.
    + constructor; [eexists; reflexivity | exact Fl].
Qed.

Lemma run_reaction_trace (r : reaction_id) (w : @world U) :
  trace (run_reaction E r w) =
  trace (check_deadline E r w) ++
  [AInvoke r (current_time (rt (check_deadline E r w))); AOutputs r].
Proof. unfold run_reaction. simpl. now rewrite <- app_assoc. Qed.

(** C3.  For a reaction [r] with a positive deadline the physical clock is
    read once, before anything else.  If the physical time [P] is later
    than [current_time + deadline] and [r] has a violation trigger, every
    reaction of that trigger is invoked once, in order, then [r] itself,
    and [trigger_output_reactions] is called for [r] only.  If [r] has no
    violation trigger, or [P] is not later, only [r] is invoked. *)
Theorem deadline_policy (r : reaction_id) (w : @world U) :
  let d := deadline (reaction_tbl E r) in
  let now := clock_gettime E w in
  let P := physical_instant now in
  let c := current_time (rt w) in
  0 < d -> int64 (c + d) ->
  (forall t, P > c + d -> deadline_violation (reaction_tbl E r) = Some t ->
     exists l c',
       trace (run_reaction E r w) =
         trace w ++ AClock now :: l ++ [AInvoke r c'; AOutputs r]
       /\ invocations_of (reactions (triggers E t)) l)
  /\ (P > c + d -> deadline_violation (reaction_tbl E r) = None ->
      trace (run_reaction E r w) = trace w ++ [AClock now; AInvoke r c; AOutputs r])
  /\ (P <= c + d ->
      trace (run_reaction E r w) = trace w ++ [AClock now; AInvoke r c; AOutputs r]).
Proof.
  intros d now P c Hd Hc.
  assert (Hgt : (d >? 0) = true) by (apply Z.gtb_lt; lia).
  assert (Hsum : add64 (current_time (rt (log (AClock now) w))) d = c + d).
  { simpl. apply add64_exact. exact Hc. }
  split; [|split].
  - intros t HP Hv.
    rewrite run_reaction_trace. unfold check_deadline.
    fold d now. rewrite Hgt. fold P. rewrite Hsum, Hv.
    destruct (Z.gtb_spec P (c + d)); [|lia].
    destruct (invoke_handlers_trace (reactions (triggers E t)) (log (AClock now) w))
      as [l [Hl Fl]].
    exists l. eexists. split; [|exact Fl].
    rewrite Hl. simpl. repeat rewrite <- app_assoc. reflexivity.
  - intros HP Hv.
    rewrite run_reaction_trace. unfold check_deadline.
    fold d now. rewrite Hgt. fold P. rewrite Hsum, Hv.
    destruct (Z.gtb_spec P (c + d)); [|lia].
    simpl. now rewrite <- app_assoc.
  - intros HP.
    rewrite run_reaction_trace. unfold check_deadline.
    fold d now. rewrite Hgt. fold P. rewrite Hsum.
    destruct (Z.gtb_spec P (c + d)); [lia|].
    simpl. now rewrite <- app_assoc.
Qed.

(** ** The program *)

Lemma next_by (fuel : nat) (w : @world U) :
  extends_by loop_action w (world_of (next E fuel w)).
Proof.
  destruct (is_null (pqueue_peek (event_q (rt w))) && negb (wait_specified (rt w)))
    eqn:H.
  - unfold next. rewrite H. apply extends_by_refl.
  - destruct (next_waits_once fuel w H) as [l [Hl Fl]].
    eexists. split; [exact Hl|].
    constructor; [right; exact I|].
    eapply Forall_impl; [|exact Fl]. intros a Ha. left. exact Ha.
Qed.

Lemma event_loop_by (inner fuel : nat) (w : @world U) :
  extends_by loop_action w (loop_world (event_loop E inner fuel w)).
Proof.
  revert w. induction fuel as [|n IH]; intros w; simpl; [apply extends_by_refl|].
  pose proof (next_by inner w) as Hn.
  destruct (next E inner w) as [[r w']|x|x]; simpl in *; try exact Hn.
  destruct (negb (r =? 0) && negb (stop_requested (rt w'))); [|exact Hn].
  eapply extends_by_trans; [exact Hn | apply IH].
Qed.

(** The loop of [main] ends normally only after a call of [next] that
    returned 0 or left [stop_requested] set. *)
Lemma event_loop_exit (inner fuel : nat) (w w' : @world U) :
  event_loop E inner fuel w = Done w' ->
  exists w0 r,
    next E inner w0 = Done (r, w')
    /\ (r = 0 \/ stop_requested (rt w') = true).
Proof.
  revert w. induction fuel as [|n IH]; intros w; simpl; [discriminate|].
  destruct (next E inner w) as [[r w1]|x|x] eqn:Hn; try discriminate.
  destruct (negb (r =? 0) && negb (stop_requested (rt w1))) eqn:Hc.
  - apply IH.
  - intros H. inversion H; subst. exists w, r. split; [exact Hn|].
    apply andb_false_iff in Hc. destruct Hc as [Hc|Hc].
    + left. apply negb_false_iff in Hc. now apply Z.eqb_eq.
    + right. now apply negb_false_iff in Hc.
Qed.

Lemma wrapup_trace (w : @world U) :
  trace (wrapup E w) =
  trace w ++
  [APrintf "Elapsed logical time (in nsec): %lld\n"
     (sub64 (current_time (rt w)) (physical_instant (physicalStartTime (rt w))));
   AClock (clock_gettime E
             (log (APrintf "Elapsed logical time (in nsec): %lld\n"
                     (sub64 (current_time (rt w))
                        (physical_instant (physicalStartTime (rt w))))) w));
   APrintf "Elapsed physical time (in nsec): %lld\n"
     (sub64
        (physical_instant
           (clock_gettime E
              (log (APrintf "Elapsed logical time (in nsec): %lld\n"
                      (sub64 (current_time (rt w))
                         (physical_instant (physicalStartTime (rt w))))) w)))
        (physical_instant (physicalStartTime (rt w))))].
Proof. unfold wrapup. simpl. repeat rewrite <- app_assoc. reflexivity. Qed.



(** ** An interrupted wait *)

(** C7, as the source has it.  When [wait_until] returns a negative value,
    [next] peeks at the event queue once more.  If the head is the one seen
    before and the stop time has been reached or the head is NULL, it sets
    [stop_requested] and returns 0.  If the head is another event, [next]
    goes on to the time step with the queue as it now is, and does not wait
    a second time. *)
Theorem interrupted_wait_handling (fuel : nat) (w : @world U) :
  let ev := pqueue_peek (event_q (rt w)) in
  let t := next_time_of ev in
  let w1 := mk_world (snd (wait_until E t w)) (trace w ++ [AWait t]) in
  let new_ev := pqueue_peek (event_q (rt w1)) in
  is_null ev && negb (wait_specified (rt w)) = false ->
  fst (wait_until E t w) < 0 ->
  (same_event new_ev ev = true ->
   stop_reached (rt w1) = true \/ new_ev = None ->
   next E fuel w = Done (0, on_rt (set_stop_requested true) w1))
  /\ (forall e', same_event new_ev ev = false -> new_ev = Some e' ->
      next E fuel w = run_tag E fuel w1
      /\ exists l, trace (world_of (next E fuel w)) = trace w ++ AWait t :: l
                   /\ Forall tag_action l).
Proof.
  intros ev t w1 new_ev Hgo Hres.
  assert (Hn : next E fuel w = after_wait E fuel ev (fst (wait_until E t w)) w1).
  { unfold next. fold ev. rewrite Hgo. reflexivity. }
  assert (Hlt : (fst (wait_until E t w) <? 0) = true) by (apply Z.ltb_lt; exact Hres).
  split.
  - intros Hsame Hstop. rewrite Hn. unfold after_wait. rewrite Hlt.
    fold new_ev. rewrite Hsame.
    destruct Hstop as [Hs|Hs].
    + rewrite Hs. reflexivity.
    + rewrite Hs. rewrite orb_true_r. reflexivity.
  - intros e' Hdiff Hnew. split.
    + rewrite Hn. unfold after_wait. rewrite Hlt.
      fold new_ev. rewrite Hdiff, Hnew. reflexivity.
    + apply next_waits_once. exact Hgo.
Qed.

(** ** Payloads *)

Lemma insert_reactions_frame {A : Type} (proj : @runtime U -> A)
    (rs : list reaction_id) (s : @runtime U) :
  (forall q s', proj (set_reaction_q q s') = proj s') ->
  proj (insert_reactions E rs s) = proj s.
Proof.
  intros H. unfold insert_reactions. revert s.
  induction rs as [|r rs IH]; intros s; simpl; [reflexivity|].
  rewrite IH. apply H.
Qed.

Lemma reschedule_free_q (t : trigger_id) (w : @world U) :
  free_q (rt (reschedule E t w)) = free_q (rt w).
Proof.
  unfold reschedule. destruct (period (triggers E t) >? 0); [|reflexivity].
  simpl. unfold __schedule.
  destruct (pqueue_pop (recycle_q (rt w))) as [[e q]|]; reflexivity.
Qed.

Lemma pop_event_free_q (e : event_t) (q : list event_t) (w : @world U) :
  free_q (rt (pop_event E e q w)) =
  if payload e =? NULL then free_q (rt w)
  else pqueue_insert time (zeroed e) (free_q (rt w)).
Proof.
  unfold pop_event, park. simpl.
  destruct (payload e =? NULL); simpl; rewrite reschedule_free_q; simpl;
    now rewrite (insert_reactions_frame free_q).
Qed.

Lemma pop_event_trigger_payload (e : event_t) (q : list event_t) (w : @world U) :
  trigger_payload (rt (pop_event E e q w)) (trigger e) = payload e.
Proof.
  unfold pop_event, park. simpl.
  destruct (payload e =? NULL); simpl; now rewrite Nat.eqb_refl.
Qed.

Lemma pop_event_recycled (e : event_t) (q : list event_t) (w : @world U) :
  payload e = NULL -> In (zeroed e) (recycle_q (rt (pop_event E e q w))).
Proof.
  intros H. unfold pop_event, park. simpl. rewrite H. simpl.
  apply pqueue_insert_In. auto.
Qed.

Lemma popped_app (l1 l2 : list action) : popped (l1 ++ l2) = popped l1 ++ popped l2.
Proof.
  induction l1 as [|a l1 IH]; simpl; [reflexivity|].
  destruct a; simpl; congruence.
Qed.

Lemma popped_reaction_actions (l : list action) :
  Forall reaction_action l -> popped l = [].
Proof.
  induction 1 as [|a l Ha _ IH]; simpl; [reflexivity|].
  destruct a; simpl in *; tauto.
Qed.

Lemma live_payloads_app (l1 l2 : list event_t) :
  live_payloads (l1 ++ l2) = live_payloads l1 ++ live_payloads l2.
Proof. unfold live_payloads. now rewrite filter_app, map_app. Qed.

Lemma parked_app (l1 l2 : list event_t) : parked (l1 ++ l2) = parked l1 ++ parked l2.
Proof. unfold parked. now rewrite filter_app, map_app. Qed.

Lemma parked_payloads (l : list event_t) :
  map (fun e => AFree (payload e)) (parked l) = map AFree (live_payloads l).
Proof.
  unfold parked, live_payloads. rewrite !map_map. reflexivity.
Qed.

Lemma parked_zero (l : list event_t) : Forall (fun e => time e <= 0) (parked l).
Proof.
  unfold parked. apply Forall_forall. intros e He.
  apply in_map_iff in He. destruct He as [x [<- _]]. simpl. lia.
Qed.

Lemma parked_single (e : event_t) :
  parked [e] = if payload e =? NULL then [] else [zeroed e].
Proof. unfold parked. simpl. destruct (payload e =? NULL); reflexivity. Qed.

Lemma pop_event_parked (e : event_t) (q : list event_t) (w : @world U)
    (ps : list event_t) :
  free_q (rt w) = parked ps ->
  free_q (rt (pop_event E e q w)) = parked (ps ++ [e]).
Proof.
  intros H. rewrite pop_event_free_q, parked_app, parked_single, H.
  destruct (payload e =? NULL).
  - now rewrite app_nil_r.
  - apply pqueue_insert_back. eapply Forall_impl; [|apply parked_zero].
    intros x Hx. simpl. exact Hx.
Qed.

(** The [do] loop: what it pops with a payload is what it leaves in
    [free_q]. *)
Lemma drain_parked (fuel : nat) (w : @world U) (ps : list event_t) :
  free_q (rt w) = parked ps ->
  exists l,
    trace (loop_world (drain E fuel w)) = trace w ++ l
    /\ Forall drain_action l
    /\ free_q (rt (loop_world (drain E fuel w))) = parked (ps ++ popped l).
Proof.
  revert w ps. induction fuel as [|n IH]; intros w ps Hf.
  - exists []. simpl. rewrite !app_nil_r. auto.
  - rewrite drain_S. destruct (event_q (rt w)) as [|e q] eqn:Hq.
    + exists []. simpl. rewrite !app_nil_r. auto.
    + pose proof (pop_event_parked e q w ps Hf) as Hp.
      pose proof (pop_event_trace e q w) as Ht.
      set (sch := if period (triggers E (trigger e)) >? 0
                  then [ASchedule (trigger e)
                          (sub64 (period (triggers E (trigger e)))
                             (offset (triggers E (trigger e)))) NULL]
                  else []) in *.
      assert (Hs : Forall drain_action sch /\ popped sch = []).
      { unfold sch. destruct (period _ >? 0);
          (split; [repeat constructor | reflexivity]). }
      destruct Hs as [Hs1 Hs2].
      destruct (more_now (rt (pop_event E e q w))).
      * destruct (IH _ _ Hp) as [l [Hl [Fl Hfl]]].
        exists (APop e :: sch ++ l). split; [|split].
        -- rewrite Hl, Ht. rewrite <- app_assoc. reflexivity.
        -- constructor; [exact I|]. apply Forall_app. auto.
        -- rewrite Hfl. simpl. rewrite popped_app, Hs2. simpl.
           now rewrite <- app_assoc.
      * exists (APop e :: sch). split; [|split].
        -- exact Ht.
        -- constructor; [exact I | exact Hs1].
        -- simpl. rewrite Hs2. exact Hp.
Qed.

Section FreeQueueKept.

Hypothesis function_keeps : forall r, keeps free_q (function E r).
Hypothesis outputs_keep : forall r, keeps free_q (trigger_output_reactions E r).

Lemma invoke_handlers_free_q (hs : list reaction_id) (w : @world U) :
  free_q (rt (fold_left (fun w' h => invoke E h w') hs w)) = free_q (rt w).
Proof.
  revert w. induction hs as [|h hs IH]; intros w; simpl; [reflexivity|].
  rewrite IH. simpl. apply function_keeps.
Qed.

Lemma run_reaction_free_q (r : reaction_id) (w : @world U) :
  free_q (rt (run_reaction E r w)) = free_q (rt w).
Proof.
  unfold run_reaction. simpl. rewrite outputs_keep. simpl.
  rewrite function_keeps. unfold check_deadline.
  destruct (deadline (reaction_tbl E r) >? 0); [|reflexivity].
  destruct (physical_instant _ >? _); [|reflexivity].
  destruct (deadline_violation (reaction_tbl E r)); [|reflexivity].
  rewrite invoke_handlers_free_q. reflexivity.
Qed.

Lemma invoke_reactions_free_q (fuel : nat) (w : @world U) :
  free_q (rt (loop_world (invoke_reactions E fuel w))) = free_q (rt w).
Proof.
  revert w. induction fuel as [|n IH]; intros w;
    destruct (reaction_q (rt w)) as [|r q] eqn:Hq.
  - now rewrite invoke_reactions_nil.
  - now rewrite (invoke_reactions_O _ _ _ Hq).
  - now rewrite invoke_reactions_nil.
  - rewrite (invoke_reactions_S _ _ _ _ Hq), IH, run_reaction_free_q.
    reflexivity.
Qed.

End FreeQueueKept.

Lemma free_payloads_recycled (q : list event_t) (w : @world U) (e : event_t) :
  In e q \/ In e (recycle_q (rt w)) -> In e (recycle_q (rt (free_payloads q w))).
Proof.
  revert w. induction q as [|x q IH]; intros w; simpl.
  - intros [[]|H]; exact H.
  - intros H. apply IH. simpl. rewrite pqueue_insert_In.
    destruct H as [[H|H]|H]; auto.
Qed.

Lemma check_stop_free_q (w : @world U) :
  free_q (rt (snd (check_stop w))) = free_q (rt w).
Proof. unfold check_stop. destruct (stop_reached (rt w)); reflexivity. Qed.


(** ** Stop time *)

Lemma reschedule_clocks (t : trigger_id) (w : @world U) :
  clocks (rt (reschedule E t w)) = clocks (rt w).
Proof.
  unfold reschedule. destruct (period (triggers E t) >? 0); [|reflexivity].
  simpl. unfold __schedule.
  destruct (pqueue_pop (recycle_q (rt w))) as [[e q]|]; reflexivity.
Qed.

Lemma pop_event_clocks (e : event_t) (q : list event_t) (w : @world U) :
  clocks (rt (pop_event E e q w)) = clocks (rt w).
Proof.
  unfold pop_event, park. simpl.
  destruct (payload e =? NULL); simpl;
    change (clocks (rt (reschedule E (trigger e)
              (on_rt (insert_reactions E (reactions (triggers E (trigger e))))
                 (log (APop e) (on_rt (set_event_q q) w))))) = clocks (rt w));
    rewrite reschedule_clocks; simpl;
    now rewrite (insert_reactions_frame clocks).
Qed.

Lemma drain_clocks (fuel : nat) (w : @world U) :
  clocks (rt (loop_world (drain E fuel w))) = clocks (rt w).
Proof.
  revert w. induction fuel as [|n IH]; intros w; [reflexivity|].
  rewrite drain_S. destruct (event_q (rt w)) as [|e q]; [reflexivity|].
  destruct (more_now (rt (pop_event E e q w))).
  - rewrite IH. apply pop_event_clocks.
  - apply pop_event_clocks.
Qed.

Lemma free_payloads_clocks (q : list event_t) (w : @world U) :
  clocks (rt (free_payloads q w)) = clocks (rt w).
Proof.
  revert w. induction q as [|e q IH]; intros w; simpl; [reflexivity|].
  rewrite IH. reflexivity.
Qed.

Lemma check_stop_clocks (w : @world U) :
  clocks (rt (snd (check_stop w))) = clocks (rt w).
Proof. unfold check_stop. destruct (stop_reached (rt w)); reflexivity. Qed.

Lemma clocks_current_time (s s' : @runtime U) :
  clocks s = clocks s' -> current_time s = current_time s'.
Proof. unfold clocks. congruence. Qed.

Lemma clocks_stop_time (s s' : @runtime U) :
  clocks s = clocks s' -> stop_time s = stop_time s'.
Proof. unfold clocks. congruence. Qed.

Lemma clocks_stop_reached (s s' : @runtime U) :
  clocks s = clocks s' -> stop_reached s = stop_reached s'.
Proof. unfold clocks, stop_reached. intros H. inversion H. congruence. Qed.

Section ClocksKept.

Hypothesis HC : clock_discipline E.

Lemma invoke_handlers_at (hs : list reaction_id) (w : @world U) :
  clocks (rt (fold_left (fun w' h => invoke E h w') hs w)) = clocks (rt w)
  /\ extends_by (fired_at (current_time (rt w))) w
       (fold_left (fun w' h => invoke E h w') hs w).
Proof.
  revert w. induction hs as [|h hs IH]; intros w; simpl.
  - split; [reflexivity | apply extends_by_refl].
  - assert (Hk : clocks (rt (invoke E h w)) = clocks (rt w)).
    { simpl. apply (function_clocks E HC). }
    destruct (IH (invoke E h w)) as [H1 H2]. split; [congruence|].
    rewrite (clocks_current_time _ _ Hk) in H2.
    eapply extends_by_trans; [|exact H2].
    apply extends_by_step with (a := AInvoke h (current_time (rt w)));
      [reflexivity | reflexivity].
Qed.

Lemma check_deadline_at (r : reaction_id) (w : @world U) :
  clocks (rt (check_deadline E r w)) = clocks (rt w)
  /\ extends_by (fired_at (current_time (rt w))) w (check_deadline E r w).
Proof.
  unfold check_deadline.
  destruct (deadline (reaction_tbl E r) >? 0);
    [|split; [reflexivity | apply extends_by_refl]].
  set (w1 := log (AClock (clock_gettime E w)) w).
  assert (H1 : extends_by (fired_at (current_time (rt w))) w w1).
  { apply extends_by_step with (a := AClock (clock_gettime E w));
      [exact I | reflexivity]. }
  destruct (physical_instant _ >? _); [|split; [reflexivity | exact H1]].
  destruct (deadline_violation (reaction_tbl E r)) as [t|];
    [|split; [reflexivity | exact H1]].
  destruct (invoke_handlers_at (reactions (triggers E t)) w1) as [Ha Hb].
  split; [exact Ha|].
  eapply extends_by_trans; [exact H1 | exact Hb].
Qed.

Lemma run_reaction_at (r : reaction_id) (w : @world U) :
  clocks (rt (run_reaction E r w)) = clocks (rt w)
  /\ extends_by (fired_at (current_time (rt w))) w (run_reaction E r w)
  /\ exists l, trace (run_reaction E r w) = trace w ++ l
               /\ In (AInvoke r (current_time (rt w))) l.
Proof.
  destruct (check_deadline_at r w) as [Hk [l [Hl Fl]]].
  assert (Hk2 : clocks (rt (run_reaction E r w)) = clocks (rt w)).
  { unfold run_reaction. simpl. rewrite (outputs_clocks E HC). simpl.
    rewrite (function_clocks E HC). exact Hk. }
  assert (Ht : trace (run_reaction E r w) =
               trace w ++ l ++ [AInvoke r (current_time (rt w)); AOutputs r]).
  { rewrite run_reaction_trace, Hl, (clocks_current_time _ _ Hk).
    now rewrite <- app_assoc. }
  split; [exact Hk2|]. split.
  - eexists. split; [exact Ht|].
    apply Forall_app. split; [exact Fl|].
    constructor; [reflexivity|]. constructor; [exact I | constructor].
  - eexists. split; [exact Ht|].
    apply in_or_app. right. simpl. auto.
Qed.

Lemma invoke_reactions_at (fuel : nat) (w : @world U) :
  clocks (rt (loop_world (invoke_reactions E fuel w))) = clocks (rt w)
  /\ extends_by (fired_at (current_time (rt w))) w
       (loop_world (invoke_reactions E fuel w)).
Proof.
  revert w. induction fuel as [|n IH]; intros w;
    destruct (reaction_q (rt w)) as [|r q] eqn:Hq.
  - rewrite invoke_reactions_nil by exact Hq.
    split; [reflexivity | apply extends_by_refl].
  - rewrite (invoke_reactions_O _ _ _ Hq).
    split; [reflexivity | apply extends_by_refl].
  - rewrite invoke_reactions_nil by exact Hq.
    split; [reflexivity | apply extends_by_refl].
  - rewrite (invoke_reactions_S _ _ _ _ Hq).
    set (w0 := on_rt (set_reaction_q q) w).
    destruct (run_reaction_at r w0) as [Hk [Hx _]].
    destruct (IH (run_reaction E r w0)) as [Hk' Hx'].
    split; [rewrite Hk', Hk; reflexivity|].
    rewrite (clocks_current_time _ _ Hk) in Hx'.
    change (current_time (rt w0)) with (current_time (rt w)) in *.
    eapply extends_by_trans; [|exact Hx'].
    eapply extends_by_trans; [|exact Hx].
    apply extends_by_same. reflexivity.
Qed.

Lemma run_tag_at (fuel : nat) (w : @world U) :
  clocks (rt (world_of (run_tag E fuel w))) = clocks (rt w)
  /\ extends_by (fired_at (current_time (rt w))) w (world_of (run_tag E fuel w)).
Proof.
  unfold run_tag.
  set (w1 := call AStartTimeStep (__start_time_step E) w).
  assert (Hk1 : clocks (rt w1) = clocks (rt w)) by apply (start_clocks E HC).
  assert (Hx1 : extends_by (fired_at (current_time (rt w))) w w1).
  { apply extends_by_step with (a := AStartTimeStep); [exact I | reflexivity]. }
  pose proof (drain_clocks fuel w1) as Hk2.
  assert (Hx2 : extends_by (fired_at (current_time (rt w))) w1
                  (loop_world (drain E fuel w1))).
  { eapply extends_by_weaken; [|apply (drain_by drain_action); simpl; auto].
    intros a Ha. destruct a; simpl in *; tauto. }
  destruct (drain E fuel w1) as [w2|x|x]; simpl in *;
    try (split; [congruence | eapply extends_by_trans; eauto]).
  destruct (invoke_reactions_at fuel w2) as [Hk3 Hx3].
  rewrite (clocks_current_time _ _ Hk2), (clocks_current_time _ _ Hk1) in Hx3.
  destruct (invoke_reactions E fuel w2) as [w3|x|x]; simpl in *;
    try (split; [congruence|];
         eapply extends_by_trans; [exact Hx1|];
         eapply extends_by_trans; [exact Hx2 | exact Hx3]).
  destruct (check_stop (free_all w3)) as [res w4] eqn:Hc. simpl.
  assert (Hw4 : w4 = snd (check_stop (free_all w3))) by (rewrite Hc; reflexivity).
  split.
  - rewrite Hw4, check_stop_clocks. unfold free_all.
    rewrite free_payloads_clocks. congruence.
  - eapply extends_by_trans; [exact Hx1|].
    eapply extends_by_trans; [exact Hx2|].
    eapply extends_by_trans; [exact Hx3|].
    eexists. split.
    + rewrite Hw4, check_stop_trace. apply free_all_trace.
    + apply Forall_forall. intros a Ha. apply in_map_iff in Ha.
      destruct Ha as [e [<- _]]. exact I.
Qed.

Lemma after_wait_at (fuel : nat) (ev : option event_t) (res : Z) (w : @world U) :
  clocks (rt (world_of (after_wait E fuel ev res w))) = clocks (rt w)
  /\ extends_by (fired_at (current_time (rt w))) w
       (world_of (after_wait E fuel ev res w)).
Proof.
  unfold after_wait.
  destruct (res <? 0); [|apply run_tag_at].
  destruct (same_event _ ev).
  - destruct (stop_reached (rt w) || is_null _); [|apply run_tag_at].
    split; [reflexivity | apply extends_by_same; reflexivity].
  - destruct (pqueue_peek _); [apply run_tag_at|].
    split; [reflexivity | apply extends_by_refl].
Qed.

(** With a stop time set and not yet passed, a call of [next] invokes no
    reaction at a logical time later than the stop time, and leaves the
    stop time set and not passed. *)
Lemma next_by_stop_time (fuel : nat) (w : @world U) :
  0 < stop_time (rt w) ->
  current_time (rt w) <= stop_time (rt w) ->
  stop_time (rt (world_of (next E fuel w))) = stop_time (rt w)
  /\ current_time (rt (world_of (next E fuel w))) <= stop_time (rt w)
  /\ extends_by (fired_by (stop_time (rt w))) w (world_of (next E fuel w)).
Proof.
  intros Hs Hc. unfold next.
  destruct (is_null _ && negb _).
  - split; [reflexivity|]. split; [exact Hc | apply extends_by_refl].
  - set (t := next_time_of (pqueue_peek (event_q (rt w)))).
    set (w1 := snd (do_wait E t w)).
    assert (H1 : stop_time (rt w1) = stop_time (rt w)) by apply (wait_stop_time E HC).
    assert (H2 : current_time (rt w1) <= stop_time (rt w))
      by (apply (wait_bounded E HC); assumption).
    destruct (after_wait_at fuel (pqueue_peek (event_q (rt w)))
                (fst (do_wait E t w)) w1) as [Hk Hx].
    split; [rewrite (clocks_stop_time _ _ Hk); exact H1|].
    split; [rewrite (clocks_current_time _ _ Hk); exact H2|].
    eapply extends_by_trans.
    + apply extends_by_step with (a := AWait t) (w' := w1); [exact I | reflexivity].
    + eapply extends_by_weaken; [|exact Hx].
      intros a Ha. destruct a; simpl in *; try exact I. lia.
Qed.

Lemma event_loop_by_stop_time (inner fuel : nat) (w : @world U) :
  0 < stop_time (rt w) ->
  current_time (rt w) <= stop_time (rt w) ->
  extends_by (fired_by (stop_time (rt w))) w
    (loop_world (event_loop E inner fuel w)).
Proof.
  revert w. induction fuel as [|n IH]; intros w Hs Hc; simpl;
    [apply extends_by_refl|].
  destruct (next_by_stop_time inner w Hs Hc) as [H1 [H2 H3]].
  destruct (next E inner w) as [[r w']|x|x]; simpl in *; try exact H3.
  destruct (negb (r =? 0) && negb (stop_requested (rt w'))); [|exact H3].
  eapply extends_by_trans; [exact H3|].
  rewrite <- H1. apply IH; rewrite H1; assumption.
Qed.

End ClocksKept.

(** *** What is enqueued is invoked *)

Lemma insert_reactions_In (rs : list reaction_id) (s : @runtime U) (x : reaction_id) :
  In x (reaction_q (insert_reactions E rs s)) <-> In x rs \/ In x (reaction_q s).
Proof.
  unfold insert_reactions. revert s.
  induction rs as [|r rs IH]; intros s; simpl; [tauto|].
  rewrite IH. simpl. rewrite pqueue_insert_In. intuition congruence.
Qed.

Lemma reschedule_reaction_q (t : trigger_id) (w : @world U) :
  reaction_q (rt (reschedule E t w)) = reaction_q (rt w).
Proof.
  unfold reschedule. destruct (period (triggers E t) >? 0); [|reflexivity].
  simpl. unfold __schedule.
  destruct (pqueue_pop (recycle_q (rt w))) as [[e q]|]; reflexivity.
Qed.

Lemma pop_event_reaction_q (e : event_t) (q : list event_t) (w : @world U)
    (x : reaction_id) :
  In x (reaction_q (rt (pop_event E e q w))) <->
  In x (reactions (triggers E (trigger e))) \/ In x (reaction_q (rt w)).
Proof.
  assert (H : reaction_q (rt (pop_event E e q w)) =
              reaction_q (insert_reactions E (reactions (triggers E (trigger e)))
                            (set_event_q q (rt w)))).
  { unfold pop_event, park. simpl.
    destruct (payload e =? NULL); simpl; now rewrite reschedule_reaction_q. }
  rewrite H, insert_reactions_In. reflexivity.
Qed.

Lemma drain_reaction_q_mono (fuel : nat) (w : @world U) (x : reaction_id) :
  In x (reaction_q (rt w)) ->
  In x (reaction_q (rt (loop_world (drain E fuel w)))).
Proof.
  revert w. induction fuel as [|n IH]; intros w H; [exact H|].
  rewrite drain_S. destruct (event_q (rt w)) as [|e q]; [exact H|].
  assert (H' : In x (reaction_q (rt (pop_event E e q w))))
    by (apply pop_event_reaction_q; auto).
  destruct (more_now (rt (pop_event E e q w))); [apply IH|]; exact H'.
Qed.

Lemma drain_enqueues_head (n : nat) (w : @world U) (e : event_t)
    (q : list event_t) (x : reaction_id) :
  event_q (rt w) = e :: q ->
  In x (reactions (triggers E (trigger e))) ->
  In x (reaction_q (rt (loop_world (drain E (S n) w)))).
Proof.
  intros Hq Hx. rewrite drain_S, Hq.
  assert (H' : In x (reaction_q (rt (pop_event E e q w))))
    by (apply pop_event_reaction_q; auto).
  destruct (more_now (rt (pop_event E e q w)));
    [apply drain_reaction_q_mono|]; exact H'.
Qed.

Section QueuesKept.

Hypothesis HC : clock_discipline E.
Hypothesis HQ : queue_discipline E.

Lemma invoke_handlers_reaction_q (hs : list reaction_id) (w : @world U) :
  reaction_q (rt (fold_left (fun w' h => invoke E h w') hs w)) = reaction_q (rt w).
Proof.
  revert w. induction hs as [|h hs IH]; intros w; simpl; [reflexivity|].
  rewrite IH. simpl. apply (function_reaction_q E HQ).
Qed.

Lemma check_deadline_reaction_q (r : reaction_id) (w : @world U) :
  reaction_q (rt (check_deadline E r w)) = reaction_q (rt w).
Proof.
  unfold check_deadline.
  destruct (deadline (reaction_tbl E r) >? 0); [|reflexivity].
  destruct (physical_instant _ >? _); [|reflexivity].
  destruct (deadline_violation (reaction_tbl E r)); [|reflexivity].
  rewrite invoke_handlers_reaction_q. reflexivity.
Qed.

Lemma run_reaction_reaction_q_mono (r : reaction_id) (w : @world U) (x : reaction_id) :
  In x (reaction_q (rt w)) -> In x (reaction_q (rt (run_reaction E r w))).
Proof.
  intros H. unfold run_reaction. simpl.
  apply (outputs_reaction_q E HQ). simpl.
  rewrite (function_reaction_q E HQ), check_deadline_reaction_q. exact H.
Qed.

Lemma invoke_reactions_fires (fuel : nat) (w w' : @world U) (x : reaction_id) :
  invoke_reactions E fuel w = Done w' ->
  In x (reaction_q (rt w)) ->
  exists l, trace w' = trace w ++ l /\ In (AInvoke x (current_time (rt w))) l.
Proof.
  revert w. induction fuel as [|n IH]; intros w Hd Hx;
    destruct (reaction_q (rt w)) as [|r q] eqn:Hq; try contradiction.
  - rewrite (invoke_reactions_O _ _ _ Hq) in Hd. discriminate.
  - rewrite (invoke_reactions_S _ _ _ _ Hq) in Hd.
    set (w0 := on_rt (set_reaction_q q) w) in *.
    destruct (run_reaction_at HC r w0) as [Hk [_ [l0 [Hl0 Hin0]]]].
    change (current_time (rt w0)) with (current_time (rt w)) in Hin0.
    change (trace w0) with (trace w) in Hl0.
    destruct Hx as [Hx|Hx].
    + subst x.
      destruct (invoke_reactions_by (fun _ => True) n (run_reaction E r w0))
        as [l1 [Hl1 _]]; auto.
      rewrite Hd in Hl1.
      change (trace w' = trace (run_reaction E r w0) ++ l1) in Hl1.
      exists (l0 ++ l1). split.
      * rewrite Hl1, Hl0. now rewrite app_assoc.
      * apply in_or_app. left. exact Hin0.
    + assert (Hx' : In x (reaction_q (rt (run_reaction E r w0))))
        by (apply run_reaction_reaction_q_mono; exact Hx).
      destruct (IH _ Hd Hx') as [l1 [Hl1 Hin1]].
      rewrite (clocks_current_time _ _ Hk) in Hin1.
      change (current_time (rt w0)) with (current_time (rt w)) in Hin1.
      exists (l0 ++ l1). split.
      * rewrite Hl1, Hl0. now rewrite app_assoc.
      * apply in_or_app. right. exact Hin1.
Qed.

(** A time step that begins with [e] at the head of the event queue and
    runs to its end invokes every reaction of the trigger of [e], at the
    logical time at which the step began. *)
Lemma run_tag_fires_head (fuel : nat) (w : @world U) (e : event_t)
    (q : list event_t) (res : Z) (w' : @world U) :
  event_q (rt w) = e :: q ->
  run_tag E fuel w = Done (res, w') ->
  exists l,
    trace w' = trace w ++ l
    /\ forall x, In x (reactions (triggers E (trigger e))) ->
                 In (AInvoke x (current_time (rt w))) l.
Proof.
  intros Hq Hrun. unfold run_tag in Hrun.
  set (w1 := call AStartTimeStep (__start_time_step E) w) in *.
  assert (Hq1 : event_q (rt w1) = e :: q).
  { unfold w1, call. simpl. rewrite (start_event_q E HQ). exact Hq. }
  assert (Hk1 : clocks (rt w1) = clocks (rt w)) by apply (start_clocks E HC).
  pose proof (drain_clocks fuel w1) as Hk2.
  destruct (drain_by (fun _ => True) fuel w1) as [l1 [Hl1 _]]; auto.
  destruct fuel as [|n]; [discriminate|].
  pose proof (drain_enqueues_head n w1 e q) as He.
  destruct (drain E (S n) w1) as [w2|x|x]; try discriminate.
  simpl in Hk2, Hl1, He.
  destruct (invoke_reactions E (S n) w2) as [w3|x|x] eqn:Hi; try discriminate.
  inversion Hrun as [Hc].
  assert (Hw' : w' = snd (check_stop (free_all w3))) by (rewrite Hc; reflexivity).
  assert (Hall : forall x, In x (reactions (triggers E (trigger e))) ->
                 exists l, trace w3 = trace w2 ++ l
                           /\ In (AInvoke x (current_time (rt w))) l).
  { intros x Hx.
    destruct (invoke_reactions_fires _ _ _ x Hi (He x Hq1 Hx)) as [l [Hl Hin]].
    exists l. split; [exact Hl|].
    rewrite (clocks_current_time (rt w2) (rt w1) Hk2) in Hin.
    rewrite (clocks_current_time (rt w1) (rt w) Hk1) in Hin.
    exact Hin. }
  destruct (invoke_reactions_by (fun _ => True) (S n) w2) as [l2 [Hl2 _]]; auto.
  rewrite Hi in Hl2. simpl in Hl2.
  exists (AStartTimeStep :: l1 ++ l2 ++
          map (fun e0 => AFree (payload e0)) (free_q (rt w3))).
  split.
  - rewrite Hw', check_stop_trace, free_all_trace, Hl2, Hl1. unfold w1. simpl.
    repeat rewrite <- app_assoc. reflexivity.
  - intros x Hx. destruct (Hall x Hx) as [l [Hl Hin]].
    assert (l = l2).
    { rewrite Hl2 in Hl. apply app_inv_head in Hl. congruence. }
    subst l. right. apply in_or_app. right. apply in_or_app. left. exact Hin.
Qed.

End QueuesKept.

Lemma check_stop_spec (w : @world U) :
  (stop_reached (rt (snd (check_stop w))) = true ->
   fst (check_stop w) = 0 /\ stop_requested (rt (snd (check_stop w))) = true)
  /\ (fst (check_stop w) = 1 -> stop_reached (rt (snd (check_stop w))) = false).
Proof.
  unfold check_stop. destruct (stop_reached (rt w)) eqn:H; simpl.
  - split; [auto | discriminate].
  - split; [rewrite H; discriminate | auto].
Qed.

Lemma run_tag_stop (fuel : nat) (w : @world U) (res : Z) (w' : @world U) :
  run_tag E fuel w = Done (res, w') ->
  (stop_reached (rt w') = true -> res = 0 /\ stop_requested (rt w') = true)
  /\ (res = 1 -> stop_reached (rt w') = false).
Proof.
  unfold run_tag.
  destruct (drain E fuel _) as [w2|x|x]; try discriminate.
  destruct (invoke_reactions E fuel w2) as [w3|x|x]; try discriminate.
  intros H. inversion H as [Hc].
  pose proof (check_stop_spec (free_all w3)) as Hs. rewrite Hc in Hs. exact Hs.
Qed.

(** *** What rescheduling puts into the event queue *)

Lemma insert_reactions_ext (rs : list reaction_id) (s s' : @runtime U) :
  reaction_q s = reaction_q s' ->
  reaction_q (insert_reactions E rs s) = reaction_q (insert_reactions E rs s').
Proof.
  unfold insert_reactions. revert s s'.
  induction rs as [|r rs IH]; intros s s' H; simpl; [exact H|].
  apply IH. simpl. now rewrite H.
Qed.

Lemma pop_event_reaction_q_eq (e : event_t) (q : list event_t) (w : @world U) :
  reaction_q (rt (pop_event E e q w)) =
  reaction_q (insert_reactions E (reactions (triggers E (trigger e))) (rt w)).
Proof.
  unfold pop_event, park. simpl.
  destruct (payload e =? NULL); simpl; rewrite reschedule_reaction_q; simpl;
    apply insert_reactions_ext; reflexivity.
Qed.

Lemma reschedule_rest (t : trigger_id) (w : @world U) :
  user (rt (reschedule E t w)) = user (rt w)
  /\ stop_requested (rt (reschedule E t w)) = stop_requested (rt w).
Proof.
  unfold reschedule. destruct (period (triggers E t) >? 0); [|split; reflexivity].
  simpl. unfold __schedule.
  destruct (pqueue_pop (recycle_q (rt w))) as [[e q]|]; split; reflexivity.
Qed.

Lemma pop_event_rest (e : event_t) (q : list event_t) (w : @world U) :
  user (rt (pop_event E e q w)) = user (rt w)
  /\ stop_requested (rt (pop_event E e q w)) = stop_requested (rt w).
Proof.
  unfold pop_event, park. simpl.
  set (w0 := on_rt (insert_reactions E (reactions (triggers E (trigger e))))
               (log (APop e) (on_rt (set_event_q q) w))).
  destruct (reschedule_rest (trigger e) w0) as [Hu Hs].
  assert (H0 : user (rt w0) = user (rt w) /\ stop_requested (rt w0) = stop_requested (rt w)).
  { unfold w0. simpl. split.
    - now rewrite (insert_reactions_frame user).
    - now rewrite (insert_reactions_frame stop_requested). }
  destruct H0 as [Hu0 Hs0].
  destruct (payload e =? NULL); simpl; split; congruence.
Qed.


Lemma reschedule_event_q (t : trigger_id) (w : @world U) :
  (period (triggers E t) >? 0) = true ->
  event_q (rt (reschedule E t w)) =
  pqueue_insert time
    (mk_event (acquired_addr (rt w))
       (add64 (current_time (rt w))
          (effective_delay E t (sub64 (period (triggers E t)) (offset (triggers E t)))))
       t NULL)
    (event_q (rt w)).
Proof.
  intros H. unfold reschedule. rewrite H. simpl. apply __schedule_event_q.
Qed.

Lemma pop_event_event_q (e : event_t) (q : list event_t) (w : @world U) :
  event_q (rt (pop_event E e q w)) =
  event_q (rt (reschedule E (trigger e)
                 (on_rt (insert_reactions E (reactions (triggers E (trigger e))))
                    (log (APop e) (on_rt (set_event_q q) w))))).
Proof.
  unfold pop_event, park. simpl. destruct (payload e =? NULL); reflexivity.
Qed.

(** ** What [schedule] does *)

(** C1, as the source has it.  [schedule] applies the net delay as it is,
    whatever its sign: the event is stamped with the current instant plus
    the net delay ([trigger->offset + extra_delay], and the offset once
    more if [__schedule] adds it), so it is in the past exactly when the
    net delay is negative. *)
Theorem schedule_applies_net_delay (t : trigger_id) (d : interval_t) (p : ptr)
    (r : @runtime U) :
  let net := schedule_net_delay E t d in
  let e := mk_event (acquired_addr r) (current_time r + net) t p in
  int64 (offset (triggers E t) + d) -> int64 net -> int64 (current_time r + net) ->
  event_q (snd (schedule E t d p r)) = pqueue_insert time e (event_q r)
  /\ In e (event_q (snd (schedule E t d p r)))
  /\ (net < 0 <-> time e < current_time r).
Proof.
  intros net e Hn Hs Hc.
  pose proof (schedule_stamp t d p r Hn Hs Hc) as Hq. fold net e in Hq.
  split; [exact Hq|]. split.
  - rewrite Hq. apply pqueue_insert_In. auto.
  - unfold e. simpl. lia.
Qed.

(** When [next] finds the event [e] at the head of the queue, and neither
    the wait nor the start-of-step hook touches the queue, then either the
    wait reports that the stop time has come and [next] returns 0 at once,
    or the time step begins by popping [e]. *)
Lemma next_pops_head (n : nat) (w : @world U) (e : event_t) (q : list event_t) :
  event_q (rt w) = e :: q ->
  event_q (snd (wait_until E (time e) w)) = e :: q ->
  keeps event_q (__start_time_step E) ->
  (exists w', next E (S n) w = Done (0, w')
              /\ trace w' = trace w ++ [AWait (time e)]
              /\ stop_requested (rt w') = true)
  \/ (exists l, trace (world_of (next E (S n) w)) =
                trace w ++ AWait (time e) :: AStartTimeStep :: APop e :: l).
Proof.
  intros Hq Hw Hst.
  set (w1 := mk_world (snd (wait_until E (time e) w)) (trace w ++ [AWait (time e)])).
  set (w2 := call AStartTimeStep (__start_time_step E) w1).
  assert (Hrun : exists l, trace (world_of (run_tag E (S n) w1)) =
                           trace w ++ AWait (time e) :: AStartTimeStep :: APop e :: l).
  { assert (H2 : event_q (rt w2) = e :: q).
    { unfold w2, call. simpl. rewrite Hst. exact Hw. }
    destruct (run_tag_after_drain (S n) w1) as [l1 [Hl1 _]]. fold w2 in Hl1.
    assert (Hd : extends_by (fun _ => True) (pop_event E e q w2)
                   (loop_world (drain E (S n) w2))).
    { rewrite drain_S, H2.
      destruct (more_now (rt (pop_event E e q w2))).
      - apply drain_by; auto.
      - apply extends_by_refl. }
    destruct Hd as [l0 [Hl0 _]].
    rewrite Hl1, Hl0, pop_event_trace. unfold w2, w1. simpl.
    repeat rewrite <- app_assoc. simpl. eexists. reflexivity. }
  unfold next. rewrite Hq. simpl. fold w1.
  unfold after_wait.
  destruct (fst (wait_until E (time e) w) <? 0); [|right; exact Hrun].
  replace (event_q (rt w1)) with (e :: q) by (symmetry; exact Hw).
  simpl. rewrite Z.eqb_refl. rewrite orb_false_r.
  destruct (stop_reached _); [left | right; exact Hrun].
  eexists. split; [reflexivity|]. split; reflexivity.
Qed.

(** *** Events at the current instant are popped in the same time step *)

Lemma pop_event_event_q_cases (e : event_t) (q : list event_t) (w : @world U) :
  event_q (rt (pop_event E e q w)) = q
  \/ (0 < period (triggers E (trigger e))
      /\ exists a,
           event_q (rt (pop_event E e q w)) =
           pqueue_insert time
             (mk_event a
                (add64 (current_time (rt w))
                   (effective_delay E (trigger e)
                      (sub64 (period (triggers E (trigger e)))
                         (offset (triggers E (trigger e))))))
                (trigger e) NULL) q).
Proof.
  rewrite pop_event_event_q.
  destruct (period (triggers E (trigger e)) >? 0) eqn:HP.
  - right. split; [apply Z.gtb_lt; exact HP|].
    rewrite reschedule_event_q by exact HP. simpl.
    rewrite (insert_reactions_frame event_q) by reflexivity.
    rewrite (insert_reactions_frame current_time) by reflexivity.
    eexists. reflexivity.
  - left. unfold reschedule. rewrite HP. simpl.
    now rewrite (insert_reactions_frame event_q).
Qed.

Lemma pop_event_current_time (e : event_t) (q : list event_t) (w : @world U) :
  current_time (rt (pop_event E e q w)) = current_time (rt w).
Proof.
  unfold pop_event, park. simpl.
  destruct (payload e =? NULL); simpl;
    (replace (current_time (rt (reschedule E (trigger e)
               (on_rt (insert_reactions E (reactions (triggers E (trigger e))))
                  (log (APop e) (on_rt (set_event_q q) w))))))
       with (current_time (rt w)); [reflexivity|]);
    unfold reschedule; destruct (period (triggers E (trigger e)) >? 0); simpl;
    try (unfold __schedule;
         destruct (pqueue_pop _) as [[x y]|]; simpl);
    now rewrite (insert_reactions_frame current_time).
Qed.

(** If the queue begins with events stamped with the current time, [e]
    among them, and triggers are rescheduled to later instants only, the
    [do] loop pops [e]. *)
Lemma drain_reaches (c : instant_t) (e : event_t) :
  (forall t, 0 < period (triggers E t) ->
     c < add64 c (effective_delay E t
                    (sub64 (period (triggers E t)) (offset (triggers E t))))) ->
  time e = c ->
  forall (pre : list event_t) (w : @world U) (post : list event_t) (n : nat),
    event_q (rt w) = pre ++ e :: post ->
    Forall (fun y => time y = c) pre ->
    current_time (rt w) = c ->
    (length pre < n)%nat ->
    exists l, trace (loop_world (drain E n w)) = trace w ++ l /\ In (APop e) l.
Proof.
  intros Hlater He. induction pre as [|y pre IH]; intros w post n Hq Hpre Hc Hn.
  - destruct n as [|n]; [simpl in Hn; lia|].
    change ([] ++ e :: post) with (e :: post) in Hq.
    rewrite drain_S, Hq.
    assert (Hx : extends_by (fun _ => True) (pop_event E e post w)
                   (loop_world (if more_now (rt (pop_event E e post w))
                                then drain E n (pop_event E e post w)
                                else Done (pop_event E e post w)))).
    { destruct (more_now _); [apply drain_by; auto | apply extends_by_refl]. }
    destruct Hx as [l [Hl _]]. rewrite Hl, pop_event_trace.
    eexists. split; [rewrite <- app_assoc; reflexivity|]. left. reflexivity.
  - destruct n as [|n]; [simpl in Hn; lia|].
    change ((y :: pre) ++ e :: post) with (y :: (pre ++ e :: post)) in Hq.
    rewrite drain_S, Hq.
    inversion Hpre as [|? ? Hy Hpre']; subst.
    set (w' := pop_event E y (pre ++ e :: post) w).
    assert (Hc' : current_time (rt w') = time e)
      by (unfold w'; rewrite pop_event_current_time; exact Hc).
    assert (Hq' : exists post', event_q (rt w') = pre ++ e :: post').
    { destruct (pop_event_event_q_cases y (pre ++ e :: post) w) as [H|[HP [a H]]];
        fold w' in H.
      - exists post. exact H.
      - rewrite Hc in H. eexists. rewrite H.
        replace (pre ++ e :: post) with ((pre ++ [e]) ++ post)
          by (rewrite <- app_assoc; reflexivity).
        rewrite pqueue_insert_app.
        + rewrite <- app_assoc. reflexivity.
        + apply Forall_app. split.
          * eapply Forall_impl; [|exact Hpre']. intros z Hz. simpl.
            rewrite Hz. specialize (Hlater _ HP). lia.
          * constructor; [|constructor]. simpl. specialize (Hlater _ HP). lia. }
    destruct Hq' as [post' Hq'].
    assert (Hm : more_now (rt w') = true).
    { unfold more_now. rewrite Hq', Hc'.
      destruct pre as [|z pre]; simpl.
      - apply Z.eqb_refl.
      - inversion Hpre'; subst. apply Z.eqb_eq. assumption. }
    rewrite Hm.
    destruct (IH w' post' n Hq' Hpre' Hc' ltac:(simpl in Hn; lia)) as [l [Hl Hin]].
    exists (APop y ::
            (if period (triggers E (trigger y)) >? 0
             then [ASchedule (trigger y)
                     (sub64 (period (triggers E (trigger y)))
                        (offset (triggers E (trigger y)))) NULL]
             else []) ++ l).
    split.
    + rewrite Hl. unfold w'. rewrite pop_event_trace.
      rewrite <- app_assoc. reflexivity.
    + right. apply in_or_app. right. exact Hin.
Qed.

(** When the queue begins with events stamped [c], [e] among them, and the
    wait brings logical time to [c] and leaves the queue alone, the time
    step that [next] runs pops [e], unless the wait reports that the stop
    time has come. *)
Lemma next_reaches (n : nat) (w : @world U) (e : event_t) (pre post : list event_t) :
  event_q (rt w) = pre ++ e :: post ->
  Forall (fun y => time y = time e) pre ->
  event_q (snd (wait_until E (time e) w)) = pre ++ e :: post ->
  current_time (snd (wait_until E (time e) w)) = time e ->
  keeps event_q (__start_time_step E) ->
  keeps current_time (__start_time_step E) ->
  (forall t, 0 < period (triggers E t) ->
     time e < add64 (time e)
                (effective_delay E t
                   (sub64 (period (triggers E t)) (offset (triggers E t))))) ->
  (length pre < n)%nat ->
  (exists w', next E n w = Done (0, w')
              /\ trace w' = trace w ++ [AWait (time e)]
              /\ stop_requested (rt w') = true)
  \/ (exists l, trace (world_of (next E n w)) =
                trace w ++ AWait (time e) :: AStartTimeStep :: l
                /\ In (APop e) l).
Proof.
  intros Hq Hpre Hqw Hcw Hsq Hsc Hlater Hn.
  assert (Hhead : exists h rest, pre ++ e :: post = h :: rest /\ time h = time e).
  { destruct pre as [|h pre]; simpl.
    - exists e, post. auto.
    - inversion Hpre; subst. exists h, (pre ++ e :: post). auto. }
  destruct Hhead as [h [rest [Hh Hth]]].
  set (w1 := mk_world (snd (wait_until E (time e) w)) (trace w ++ [AWait (time e)])).
  set (w2 := call AStartTimeStep (__start_time_step E) w1).
  assert (Hrun : exists l, trace (world_of (run_tag E n w1)) =
                           trace w ++ AWait (time e) :: AStartTimeStep :: l
                           /\ In (APop e) l).
  { assert (H2 : event_q (rt w2) = pre ++ e :: post).
    { unfold w2, call. simpl. rewrite Hsq. exact Hqw. }
    assert (H2c : current_time (rt w2) = time e).
    { unfold w2, call. simpl. rewrite Hsc. exact Hcw. }
    destruct (drain_reaches (time e) e Hlater eq_refl pre w2 post n H2 Hpre H2c Hn)
      as [l1 [Hl1 Hin]].
    destruct (run_tag_after_drain n w1) as [l2 [Hl2 _]]. fold w2 in Hl2.
    exists (l1 ++ l2). split.
    - rewrite Hl2, Hl1. unfold w2, w1. simpl.
      repeat rewrite <- app_assoc. reflexivity.
    - apply in_or_app. left. exact Hin. }
  unfold next. rewrite Hq, Hh. simpl. rewrite Hth. fold w1.
  unfold after_wait.
  destruct (fst (wait_until E (time e) w) <? 0); [|right; exact Hrun].
  replace (event_q (rt w1)) with (h :: rest) by (rewrite <- Hh; symmetry; exact Hqw).
  simpl. rewrite Z.eqb_refl. rewrite orb_false_r.
  destruct (stop_reached _); [left | right; exact Hrun].
  eexists. split; [reflexivity|]. split; reflexivity.
Qed.



(** ** The loops end *)

Lemma effective_delay_range (t : trigger_id) (d : interval_t) :
  int64 d -> int64 (effective_delay E t d).
Proof.
  intros H. unfold effective_delay.
  destruct (offset_added_by___schedule E); [apply wrap64_range | exact H].
Qed.

Lemma count_now_insert (c : instant_t) (x : event_t) (q : list event_t) :
  count_now c (pqueue_insert time x q) =
  ((if (time x =? c)%Z then 1 else 0) + count_now c q)%nat.
Proof.
  unfold count_now. induction q as [|y q IH]; simpl.
  - destruct (time x =? c); reflexivity.
  - destruct (time x <? time y); simpl.
    + destruct (time x =? c); reflexivity.
    + destruct (time y =? c); simpl; rewrite IH; lia.
Qed.

Lemma drain_more (n : nat) (w w' : @world U) :
  drain E n w = Done w' -> drain E (S n) w = Done w'.
Proof.
  revert w. induction n as [|n IH]; intros w; [discriminate|].
  rewrite drain_S. intros H. rewrite drain_S.
  destruct (event_q (rt w)) as [|e q]; [exact H|].
  destruct (more_now (rt (pop_event E e q w))); [|exact H].
  apply IH. exact H.
Qed.

Lemma drain_enough (n m : nat) (w w' : @world U) :
  (n <= m)%nat -> drain E n w = Done w' -> drain E m w = Done w'.
Proof.
  intros Hle H. induction Hle as [|m Hle IH]; [exact H|].
  apply drain_more. exact IH.
Qed.

Lemma invoke_reactions_more (n : nat) (w w' : @world U) :
  invoke_reactions E n w = Done w' -> invoke_reactions E (S n) w = Done w'.
Proof.
  revert w. induction n as [|n IH]; intros w;
    destruct (reaction_q (rt w)) as [|r q] eqn:Hq.
  - rewrite !invoke_reactions_nil by exact Hq. auto.
  - rewrite (invoke_reactions_O _ _ _ Hq). discriminate.
  - rewrite !invoke_reactions_nil by exact Hq. auto.
  - rewrite (invoke_reactions_S n _ _ _ Hq), (invoke_reactions_S (S n) _ _ _ Hq).
    apply IH.
Qed.

Lemma invoke_reactions_enough (n m : nat) (w w' : @world U) :
  (n <= m)%nat -> invoke_reactions E n w = Done w' -> invoke_reactions E m w = Done w'.
Proof.
  intros Hle H. induction Hle as [|m Hle IH]; [exact H|].
  apply invoke_reactions_more. exact IH.
Qed.

Section LoopsEnd.

Variable W : reaction_id -> nat.
Hypothesis HQ : queue_discipline E.
Hypothesis HT : termination_discipline E W.

Lemma pop_event_count_now (e : event_t) (q : list event_t) (w : @world U) :
  count_now (current_time (rt (pop_event E e q w))) (event_q (rt (pop_event E e q w)))
  = count_now (current_time (rt w)) q.
Proof.
  rewrite (clocks_current_time _ _ (pop_event_clocks e q w)).
  rewrite pop_event_event_q.
  destruct (period (triggers E (trigger e)) >? 0) eqn:HP.
  - rewrite reschedule_event_q by exact HP. simpl.
    rewrite (insert_reactions_frame event_q) by reflexivity.
    rewrite (insert_reactions_frame current_time) by reflexivity.
    simpl. rewrite count_now_insert. simpl.
    destruct (Z.eqb_spec
                (add64 (current_time (rt w))
                   (effective_delay E (trigger e)
                      (sub64 (period (triggers E (trigger e)))
                         (offset (triggers E (trigger e))))))
                (current_time (rt w))) as [Heq|]; [|reflexivity].
    exfalso. revert Heq. apply add64_moves.
    + apply effective_delay_range. apply wrap64_range.
    + apply (reschedule_later E W HT). apply Z.gtb_lt. exact HP.
  - unfold reschedule. rewrite HP. simpl.
    now rewrite (insert_reactions_frame event_q).
Qed.

Lemma drain_ends_again (n : nat) (w : @world U) :
  more_now (rt w) = true ->
  (count_now (current_time (rt w)) (event_q (rt w)) <= n)%nat ->
  exists w', drain E n w = Done w'.
Proof.
  revert w. induction n as [|n IH]; intros w Hm Hc.
  - exfalso. unfold more_now in Hm.
    destruct (event_q (rt w)) as [|e q]; [discriminate|].
    simpl in Hm. unfold count_now in Hc. simpl in Hc. rewrite Hm in Hc.
    simpl in Hc. lia.
  - rewrite drain_S. unfold more_now in Hm.
    destruct (event_q (rt w)) as [|e q] eqn:Hq; [discriminate|].
    simpl in Hm.
    assert (Hc' : (count_now (current_time (rt (pop_event E e q w)))
                     (event_q (rt (pop_event E e q w))) <= n)%nat).
    { rewrite pop_event_count_now. unfold count_now in *. simpl in Hc.
      rewrite Hm in Hc. simpl in Hc. lia. }
    destruct (more_now (rt (pop_event E e q w))) eqn:Hm'.
    + apply IH; assumption.
    + eexists. reflexivity.
Qed.

(** With an event in the queue the [do] loop ends, after at most one turn
    more than there are events stamped with the current time. *)
Lemma drain_ends (w : @world U) (e : event_t) (q : list event_t) :
  event_q (rt w) = e :: q ->
  exists w', drain E (S (count_now (current_time (rt w)) q)) w = Done w'.
Proof.
  intros Hq. rewrite drain_S, Hq.
  destruct (more_now (rt (pop_event E e q w))) eqn:Hm.
  - apply drain_ends_again; [exact Hm|].
    rewrite pop_event_count_now. lia.
  - eexists. reflexivity.
Qed.

Lemma run_reaction_weight (r : reaction_id) (w : @world U) :
  (weight W (reaction_q (rt (run_reaction E r w))) + 1
   <= weight W (reaction_q (rt w)) + W r)%nat.
Proof.
  unfold run_reaction. simpl.
  pose proof (outputs_weight E W HT r (invoke E r (check_deadline E r w))) as H.
  assert (Hq : reaction_q (rt (invoke E r (check_deadline E r w))) = reaction_q (rt w)).
  { simpl. rewrite (function_reaction_q E HQ).
    apply (check_deadline_reaction_q HQ). }
  rewrite Hq in H. exact H.
Qed.

(** The [while] loop ends, after at most as many turns as the weight of
    the reaction queue. *)
Lemma invoke_reactions_ends (n : nat) (w : @world U) :
  (weight W (reaction_q (rt w)) <= n)%nat ->
  exists w', invoke_reactions E n w = Done w'.
Proof.
  revert w. induction n as [|n IH]; intros w Hw;
    destruct (reaction_q (rt w)) as [|r q] eqn:Hq.
  - rewrite invoke_reactions_nil by exact Hq. eexists. reflexivity.
  - change (weight W (r :: q)) with (W r + weight W q)%nat in Hw.
    pose proof (weight_positive E W HT r). lia.
  - rewrite invoke_reactions_nil by exact Hq. eexists. reflexivity.
  - rewrite (invoke_reactions_S _ _ _ _ Hq). apply IH.
    pose proof (run_reaction_weight r (on_rt (set_reaction_q q) w)) as H.
    change (reaction_q (rt (on_rt (set_reaction_q q) w))) with q in H.
    change (weight W (r :: q)) with (W r + weight W q)%nat in Hw. lia.
Qed.

(** A time step that begins with an event in the queue returns, given
    enough turns. *)
Lemma run_tag_returns (w : @world U) (e : event_t) (q : list event_t) :
  event_q (rt w) = e :: q ->
  exists N, forall fuel, (N <= fuel)%nat ->
    exists res w', run_tag E fuel w = Done (res, w').
Proof.
  intros Hq0. unfold run_tag.
  set (w1 := call AStartTimeStep (__start_time_step E) w).
  assert (Hq : event_q (rt w1) = e :: q).
  { unfold w1, call. simpl. rewrite (start_event_q E HQ). exact Hq0. }
  destruct (drain_ends w1 e q Hq) as [w2 Hd].
  destruct (invoke_reactions_ends (weight W (reaction_q (rt w2))) w2 (le_n _))
    as [w3 Hi].
  exists (Nat.max (S (count_now (current_time (rt w1)) q))
                  (weight W (reaction_q (rt w2)))).
  intros fuel Hf.
  assert (H1 : (S (count_now (current_time (rt w1)) q) <= fuel)%nat) by lia.
  assert (H2 : (weight W (reaction_q (rt w2)) <= fuel)%nat) by lia.
  rewrite (drain_enough _ fuel _ _ H1 Hd).
  rewrite (invoke_reactions_enough _ fuel _ _ H2 Hi).
  destruct (check_stop (free_all w3)) as [res w'] eqn:Hc.
  exists res, w'. reflexivity.
Qed.

(** A call of [next] that finds an event in the queue, and still finds one
    after the wait, returns, given enough turns. *)
Lemma next_returns (w : @world U) (e e' : event_t) (q q' : list event_t) :
  event_q (rt w) = e :: q ->
  event_q (snd (wait_until E (time e) w)) = e' :: q' ->
  exists N, forall fuel, (N <= fuel)%nat ->
    exists res w', next E fuel w = Done (res, w').
Proof.
  intros Hq Hq'.
  set (w1 := mk_world (snd (wait_until E (time e) w)) (trace w ++ [AWait (time e)])).
  destruct (run_tag_returns w1 e' q' Hq') as [N HN].
  exists N. intros fuel Hf. unfold next. rewrite Hq. simpl. fold w1.
  unfold after_wait.
  destruct (fst (wait_until E (time e) w) <? 0); [|apply HN; exact Hf].
  replace (event_q (rt w1)) with (e' :: q') by (symmetry; exact Hq').
  simpl.
  destruct (ev_addr e' =? ev_addr e); [|apply HN; exact Hf].
  rewrite orb_false_r.
  destruct (stop_reached _); [|apply HN; exact Hf].
  do 2 eexists. reflexivity.
Qed.

End LoopsEnd.


Lemma after_wait_stop (fuel : nat) (ev : option event_t) (r : Z) (w : @world U)
    (res : Z) (w' : @world U) :
  after_wait E fuel ev r w = Done (res, w') ->
  (stop_reached (rt w') = true -> res = 0 /\ stop_requested (rt w') = true)
  /\ (res = 1 -> stop_reached (rt w') = false).
Proof.
  unfold after_wait.
  destruct (r <? 0); [|apply run_tag_stop].
  destruct (same_event _ ev).
  - destruct (stop_reached (rt w) || is_null _); [|apply run_tag_stop].
    intros H. inversion H; subst. simpl. split; [auto | discriminate].
  - destruct (pqueue_peek _); [apply run_tag_stop | discriminate].
Qed.



(** ** Periodic triggers *)

(** The event a popped periodic event leaves in the queue, when
    [__schedule] adds the offset and when it does not. *)
Lemma pop_event_reschedules (e : event_t) (q : list event_t) (w : @world U) :
  let t := trigger e in
  let P := period (triggers E t) in
  let off := offset (triggers E t) in
  let c := current_time (rt w) in
  0 < P -> int64 (P - off) ->
  (offset_added_by___schedule E = true -> int64 P -> int64 (c + P) ->
   event_q (rt (pop_event E e q w)) =
     pqueue_insert time (mk_event (acquired_addr (rt w)) (c + P) t NULL) q)
  /\ (offset_added_by___schedule E = false -> int64 (c + (P - off)) ->
      event_q (rt (pop_event E e q w)) =
        pqueue_insert time (mk_event (acquired_addr (rt w)) (c + (P - off)) t NULL) q).
Proof.
  intros t P off c HP Hd.
  assert (Hq : event_q (rt (pop_event E e q w)) =
               pqueue_insert time
                 (mk_event (acquired_addr (rt w))
                    (add64 c (effective_delay E t (P - off))) t NULL) q).
  { rewrite pop_event_event_q, reschedule_event_q
      by (apply Z.gtb_lt; exact HP).
    simpl. rewrite (insert_reactions_frame event_q) by reflexivity.
    rewrite (insert_reactions_frame current_time) by reflexivity.
    rewrite (insert_reactions_frame acquired_addr) by reflexivity.
    simpl. fold t P off c.
    rewrite (sub64_exact P off) by exact Hd. reflexivity. }
  split.
  - intros Hflag HiP Hc. rewrite Hq. unfold effective_delay. rewrite Hflag.
    fold t off.
    rewrite (add64_exact off (P - off))
      by (replace (off + (P - off)) with P by lia; exact HiP).
    replace (off + (P - off)) with P by lia.
    rewrite add64_exact by exact Hc. reflexivity.
  - intros Hflag Hc. rewrite Hq. unfold effective_delay. rewrite Hflag.
    rewrite add64_exact by exact Hc. reflexivity.
Qed.

(** The two callers of [__schedule] cannot both be right about the offset:
    if [schedule (t, d, _)] stamps its event [current + offset + d] and the
    rescheduling of [t] stamps its event [current + period], the offset of
    [t] is zero. *)
Lemma offset_counted_once (t : trigger_id) (d c c' : Z) :
  let P := period (triggers E t) in
  let off := offset (triggers E t) in
  int64 (off + d) -> int64 (schedule_net_delay E t d) ->
  int64 (c + schedule_net_delay E t d) ->
  int64 P -> int64 (P - off) -> int64 (c' + P) -> int64 (c' + (P - off)) ->
  add64 c (effective_delay E t (add64 off d)) = c + off + d ->
  add64 c' (effective_delay E t (sub64 P off)) = c' + P ->
  off = 0.
Proof.
  intros P off H1 H2 H3 H4 H5 H6 H7 Hs Hr.
  unfold off in Hs. rewrite effective_delay_exact in Hs by assumption.
  rewrite add64_exact in Hs by assumption.
  fold P off in Hr. rewrite (sub64_exact P off) in Hr by exact H5.
  unfold schedule_net_delay in Hs. unfold effective_delay in Hr.
  destruct (offset_added_by___schedule E).
  - fold off in Hs. lia.
  - rewrite add64_exact in Hr by exact H7. lia.
Qed.



End Facts.

(** * Further properties of [next], [wrapup] and the time conversion *)

(** ** The conversion of a [timespec] (lines 125-127, 171, 177-178) *)

Lemma physical_instant_exact (ts : timespec) :
  normalised ts -> physical_instant ts = tv_sec ts * BILLION + tv_nsec ts.
Proof.
  unfold normalised, physical_instant, add64, mul64, BILLION.
  intros [Hs Hn].
  rewrite (wrap64_id (tv_sec ts * 1000000000)).
  - apply wrap64_id. unfold int64, LLONG_MIN, LLONG_MAX. lia.
  - unfold int64, LLONG_MIN, LLONG_MAX. lia.
Qed.

Lemma physical_instant_range (ts : timespec) :
  normalised ts -> 0 <= physical_instant ts <= 9223372035999999999.
Proof.
  intros H. rewrite (physical_instant_exact ts H).
  unfold normalised, BILLION in *. lia.
Qed.

(** X1.  On normalised [timespec]s the conversion
    [tv_sec * BILLION + tv_nsec] does not wrap around and keeps the order
    of time: one reading is not later than another exactly when its
    instant is not greater, and equal instants come from equal readings. *)
Theorem physical_instant_keeps_order (a b : timespec) :
  normalised a -> normalised b ->
  physical_instant a = tv_sec a * BILLION + tv_nsec a
  /\ (not_later a b <-> physical_instant a <= physical_instant b)
  /\ (physical_instant a = physical_instant b ->
      tv_sec a = tv_sec b /\ tv_nsec a = tv_nsec b).
Proof.
  intros Ha Hb.
  rewrite (physical_instant_exact a Ha), (physical_instant_exact b Hb).
  unfold normalised, not_later, BILLION in *.
  split; [reflexivity|]. split; [split|]; intros H; nia.
Qed.

Section MoreFacts.

Context {U : Type}.
Variable E : @env U.

(** ** The end of the program (lines 169-180) *)

Lemma wrapup_rt (w : @world U) : rt (wrapup E w) = rt w.
Proof. reflexivity. Qed.

(** X2.  [wrapup] changes nothing of the runtime state and reads the
    physical clock once, between its two lines of output.  With a
    normalised start time and clock reading and a logical time that is
    not negative, the numbers printed are the very differences
    [current_time - start] and [now - start], without wrap-around, and the
    elapsed physical time is not negative exactly when the clock reading
    is not earlier than the start time. *)
Theorem wrapup_elapsed_times (w : @world U) :
  let start := physicalStartTime (rt w) in
  let S := tv_sec start * BILLION + tv_nsec start in
  let logical := current_time (rt w) - S in
  let now :=
    clock_gettime E (log (APrintf "Elapsed logical time (in nsec): %lld\n" logical) w) in
  let physical := tv_sec now * BILLION + tv_nsec now - S in
  normalised start -> normalised now ->
  0 <= current_time (rt w) <= LLONG_MAX ->
  rt (wrapup E w) = rt w
  /\ trace (wrapup E w) =
       trace w ++
       [APrintf "Elapsed logical time (in nsec): %lld\n" logical;
        AClock now;
        APrintf "Elapsed physical time (in nsec): %lld\n" physical]
  /\ (0 <= physical <-> not_later start now).
Proof.
  intros start S logical now physical Hs Hn Hc.
  assert (HS : physical_instant start = S) by (apply physical_instant_exact; exact Hs).
  assert (HSr : 0 <= S <= 9223372035999999999).
  { rewrite <- HS. apply physical_instant_range. exact Hs. }
  assert (Hl : sub64 (current_time (rt w)) (physical_instant start) = logical).
  { rewrite HS. apply sub64_exact. unfold int64, LLONG_MIN, LLONG_MAX in *.
    unfold logical. lia. }
  split; [reflexivity|]. split.
  - rewrite wrapup_trace. fold start. rewrite Hl. fold now.
    assert (HN : physical_instant now = tv_sec now * BILLION + tv_nsec now)
      by (apply physical_instant_exact; exact Hn).
    assert (HNr : 0 <= physical_instant now <= 9223372035999999999)
      by (apply physical_instant_range; exact Hn).
    assert (Hp : sub64 (physical_instant now) (physical_instant start) = physical).
    { rewrite HS. rewrite sub64_exact.
      - unfold physical. rewrite HN. reflexivity.
      - unfold int64, LLONG_MIN, LLONG_MAX. lia. }
    rewrite Hp. reflexivity.
  - unfold physical, S, not_later. unfold normalised, BILLION in *. split; intros H; nia.
Qed.

(** ** What the [do] loop pops (lines 79-109) *)

Lemma popped_pop_event (e : event_t) :
  popped
    (APop e ::
     (if period (triggers E (trigger e)) >? 0
      then [ASchedule (trigger e)
              (sub64 (period (triggers E (trigger e))) (offset (triggers E (trigger e))))
              NULL]
      else [])) = [e].
Proof. simpl. destruct (period _ >? 0); reflexivity. Qed.

Lemma pop_event_drain_actions (e : event_t) :
  Forall drain_action
    (if period (triggers E (trigger e)) >? 0
     then [ASchedule (trigger e)
             (sub64 (period (triggers E (trigger e))) (offset (triggers E (trigger e))))
             NULL]
     else []).
Proof. destruct (period _ >? 0); repeat constructor. Qed.

Lemma popped_drain_tail (e : event_t) :
  popped
    (if period (triggers E (trigger e)) >? 0
     then [ASchedule (trigger e)
             (sub64 (period (triggers E (trigger e))) (offset (triggers E (trigger e))))
             NULL]
     else []) = [].
Proof. destruct (period _ >? 0); reflexivity. Qed.

(** A run of the [do] loop that comes to its end has popped the head of
    the queue, then only events stamped with the current time, and stops
    in front of an event of another time or an empty queue. *)
Lemma drain_pops (fuel : nat) (w w' : @world U) :
  drain E fuel w = Done w' ->
  exists e q l,
    event_q (rt w) = e :: q
    /\ trace w' = trace w ++ APop e :: l
    /\ Forall drain_action l
    /\ Forall (fun y => time y = current_time (rt w)) (popped l)
    /\ current_time (rt w') = current_time (rt w)
    /\ more_now (rt w') = false.
Proof.
  revert w. induction fuel as [|n IH]; intros w; [discriminate|].
  rewrite drain_S. destruct (event_q (rt w)) as [|e q] eqn:Hq; [discriminate|].
  destruct (more_now (rt (pop_event E e q w))) eqn:Hm.
  - intros Hd. destruct (IH _ Hd) as [e1 [q1 [l1 [Hq1 [Ht [Fa [Fp [Hc Hn]]]]]]]].
    exists e, q. eexists. split; [reflexivity|].
    rewrite pop_event_current_time in Hc.
    rewrite pop_event_current_time in Fp.
    split; [|split; [|split; [|split; [exact Hc | exact Hn]]]].
    + rewrite Ht, pop_event_trace, <- app_assoc. reflexivity.
    + apply Forall_app. split; [apply pop_event_drain_actions|].
      constructor; [exact I | exact Fa].
    + rewrite popped_app, popped_drain_tail. simpl. constructor; [|exact Fp].
      unfold more_now in Hm. rewrite pop_event_current_time, Hq1 in Hm.
      apply Z.eqb_eq. exact Hm.
  - intros Hd. inversion Hd; subst w'. exists e, q. eexists.
    split; [reflexivity|].
    split; [apply pop_event_trace|].
    split; [apply pop_event_drain_actions|].
    split; [rewrite popped_drain_tail; constructor|].
    split; [apply pop_event_current_time | exact Hm].
Qed.

(** X3.  The [do] loop pops the head of the event queue whatever its
    time is, and after it exactly the events that are stamped with the
    current time: when it ends, every event popped after the first bears
    the current time, the current time is unchanged, and the head of the
    queue, if there is one, is of another time. *)
Theorem drain_takes_simultaneous_events (fuel : nat) (w w' : @world U) :
  drain E fuel w = Done w' ->
  exists e l,
    pqueue_peek (event_q (rt w)) = Some e
    /\ trace w' = trace w ++ APop e :: l
    /\ Forall (fun y => time y = current_time (rt w)) (popped l)
    /\ current_time (rt w') = current_time (rt w)
    /\ forall y, pqueue_peek (event_q (rt w')) = Some y ->
                 time y <> current_time (rt w).
Proof.
  intros Hd. destruct (drain_pops fuel w w' Hd) as [e [q [l [Hq [Ht [_ [Fp [Hc Hn]]]]]]]].
  exists e, l. split; [rewrite Hq; reflexivity|].
  split; [exact Ht|]. split; [exact Fp|]. split; [exact Hc|].
  intros y Hy. unfold more_now in Hn. rewrite Hy in Hn.
  rewrite Hc in Hn. apply Z.eqb_neq. exact Hn.
Qed.

(** ** What the [do] loop puts into the reaction queue (lines 81-85) *)

Lemma pqueue_insert_perm {A : Type} (pri : A -> Z) (x : A) (q : list A) :
  Permutation (pqueue_insert pri x q) (x :: q).
Proof.
  induction q as [|y q IH]; simpl; [reflexivity|].
  destruct (pri x <? pri y); [reflexivity|].
  rewrite IH. apply perm_swap.
Qed.

Lemma insert_reactions_perm (rs : list reaction_id) (s : @runtime U) :
  Permutation (reaction_q (insert_reactions E rs s)) (reaction_q s ++ rs).
Proof.
  unfold insert_reactions. revert s.
  induction rs as [|r rs IH]; intros s; simpl.
  - rewrite app_nil_r. reflexivity.
  - rewrite IH. simpl. rewrite pqueue_insert_perm.
    apply Permutation_cons_app. reflexivity.
Qed.

Lemma pop_event_reaction_q_perm (e : event_t) (q : list event_t) (w : @world U) :
  Permutation (reaction_q (rt (pop_event E e q w)))
    (reaction_q (rt w) ++ reactions (triggers E (trigger e))).
Proof. rewrite pop_event_reaction_q_eq. apply insert_reactions_perm. Qed.

Lemma drain_reaction_q_perm (fuel : nat) (w : @world U) :
  exists l,
    trace (loop_world (drain E fuel w)) = trace w ++ l
    /\ Forall drain_action l
    /\ Permutation (reaction_q (rt (loop_world (drain E fuel w))))
         (reaction_q (rt w) ++ triggered E (popped l)).
Proof.
  revert w. induction fuel as [|n IH]; intros w.
  - exists []. simpl. rewrite !app_nil_r. repeat split; constructor || reflexivity.
  - rewrite drain_S. destruct (event_q (rt w)) as [|e q] eqn:Hq.
    + exists []. simpl. rewrite !app_nil_r. repeat split; constructor || reflexivity.
    + assert (H1 : Permutation (reaction_q (rt (pop_event E e q w)))
                     (reaction_q (rt w) ++ triggered E [e])).
      { unfold triggered. simpl. rewrite app_nil_r. apply pop_event_reaction_q_perm. }
      destruct (more_now (rt (pop_event E e q w))).
      * destruct (IH (pop_event E e q w)) as [l [Hl [Fl Pl]]].
        eexists. split; [|split].
        -- rewrite Hl, pop_event_trace, <- app_assoc. reflexivity.
        -- apply Forall_app. split; [|exact Fl].
           constructor; [exact I | apply pop_event_drain_actions].
        -- rewrite Pl, H1, popped_app, popped_pop_event.
           unfold triggered. simpl. rewrite app_nil_r.
           rewrite <- app_assoc. reflexivity.
      * eexists. split; [apply pop_event_trace|]. split.
        -- constructor; [exact I | apply pop_event_drain_actions].
        -- rewrite popped_pop_event. exact H1.
Qed.

(** X4.  The [do] loop queues the reactions of the trigger of every event
    it pops, once for each event: the reaction queue it leaves holds what
    it held before and the reactions of the triggers of the popped events,
    each as many times as it is listed there.  A reaction triggered by two
    popped events is queued twice. *)
Theorem reactions_queued_once_per_event (fuel : nat) (w : @world U) :
  exists l,
    trace (loop_world (drain E fuel w)) = trace w ++ l
    /\ Permutation (reaction_q (rt (loop_world (drain E fuel w))))
         (reaction_q (rt w) ++ triggered E (popped l))
    /\ forall x,
         count_occ Nat.eq_dec (reaction_q (rt (loop_world (drain E fuel w)))) x =
         (count_occ Nat.eq_dec (reaction_q (rt w)) x
          + count_occ Nat.eq_dec (triggered E (popped l)) x)%nat.
Proof.
  destruct (drain_reaction_q_perm fuel w) as [l [Hl [_ Pl]]].
  exists l. split; [exact Hl|]. split; [exact Pl|].
  intros x. rewrite <- count_occ_app.
  apply Permutation_count_occ. exact Pl.
Qed.

(** ** What is queued is run (lines 79-151) *)

Lemma invoke_reactions_done_empty (fuel : nat) (w w' : @world U) :
  invoke_reactions E fuel w = Done w' -> reaction_q (rt w') = [].
Proof.
  revert w. induction fuel as [|n IH]; intros w;
    destruct (reaction_q (rt w)) as [|r q] eqn:Hq.
  - rewrite invoke_reactions_nil by exact Hq. intros H. inversion H; subst. exact Hq.
  - rewrite (invoke_reactions_O _ _ _ _ Hq). discriminate.
  - rewrite invoke_reactions_nil by exact Hq. intros H. inversion H; subst. exact Hq.
  - rewrite (invoke_reactions_S _ _ _ _ _ Hq). apply IH.
Qed.

Lemma free_payloads_reaction_q (q : list event_t) (w : @world U) :
  reaction_q (rt (free_payloads q w)) = reaction_q (rt w).
Proof.
  revert w. induction q as [|e q IH]; intros w; simpl; [reflexivity|].
  rewrite IH. reflexivity.
Qed.

Lemma check_stop_reaction_q (w : @world U) :
  reaction_q (rt (snd (check_stop w))) = reaction_q (rt w).
Proof. unfold check_stop. destruct (stop_reached (rt w)); reflexivity. Qed.

Lemma popped_frees (q : list event_t) :
  popped (map (fun e => AFree (payload e)) q) = [].
Proof. induction q as [|e q IH]; simpl; [reflexivity | exact IH]. Qed.

(** The parts of the trace of a time step that comes to its end: the
    hook, what the [do] loop did, what the [while] loop did, and the
    payloads freed. *)
Lemma run_tag_parts (fuel : nat) (w : @world U) (res : Z) (w' : @world U) :
  run_tag E fuel w = Done (res, w') ->
  exists w2 w3,
    drain E fuel (call AStartTimeStep (__start_time_step E) w) = Done w2
    /\ invoke_reactions E fuel w2 = Done w3
    /\ (res, w') = check_stop (free_all w3)
    /\ trace w' = trace w3 ++ map (fun e => AFree (payload e)) (free_q (rt w3)).
Proof.
  unfold run_tag.
  destruct (drain E fuel _) as [w2|x|x]; try discriminate.
  destruct (invoke_reactions E fuel w2) as [w3|x|x] eqn:Hi; try discriminate.
  intros H. inversion H as [Hc]. exists w2, w3.
  split; [reflexivity|]. split; [exact Hi|]. split; [reflexivity|].
  change w' with (snd (res, w')). rewrite <- Hc.
  rewrite check_stop_trace. apply free_all_trace.
Qed.

(** X5.  No triggered reaction is lost: a time step that comes to its
    end, in a program whose reaction bodies leave the logical clock and the
    reaction queue alone and whose output propagation only adds to that
    queue, has invoked every reaction of the trigger of every event it
    popped, at the logical time at which the step began, and leaves the
    reaction queue empty. *)
Theorem popped_events_fire (fuel : nat) (w : @world U) (res : Z) (w' : @world U) :
  clock_discipline E -> queue_discipline E ->
  run_tag E fuel w = Done (res, w') ->
  exists l,
    trace w' = trace w ++ l
    /\ (forall e x,
          In e (popped l) -> In x (reactions (triggers E (trigger e))) ->
          In (AInvoke x (current_time (rt w))) l)
    /\ reaction_q (rt w') = [].
Proof.
  intros HC HQ Hrun.
  destruct (run_tag_parts fuel w res w' Hrun) as [w2 [w3 [Hd [Hi [Hc Hf]]]]].
  set (w1 := call AStartTimeStep (__start_time_step E) w) in *.
  destruct (drain_reaction_q_perm fuel w1) as [l1 [Hl1 [F1 P1]]].
  rewrite Hd in Hl1, P1. simpl in Hl1, P1.
  assert (Hi' : extends_by reaction_action w2 (loop_world (invoke_reactions E fuel w2)))
    by (apply invoke_reactions_by; simpl; auto).
  rewrite Hi in Hi'. destruct Hi' as [l2 [Hl2 F2]]. simpl in Hl2.
  assert (Hct : current_time (rt w2) = current_time (rt w)).
  { pose proof (drain_clocks E fuel w1) as Hk. rewrite Hd in Hk. simpl in Hk.
    rewrite (clocks_current_time _ _ Hk). unfold w1. simpl.
    apply (clocks_current_time _ _ (start_clocks E HC w)). }
  exists (AStartTimeStep :: l1 ++ l2 ++ map (fun e => AFree (payload e)) (free_q (rt w3))).
  split; [|split].
  - rewrite Hf, Hl2, Hl1. unfold w1. simpl. repeat rewrite <- app_assoc. reflexivity.
  - intros e x He Hx. simpl in He.
    rewrite !popped_app, popped_frees, (popped_reaction_actions l2 F2) in He.
    rewrite !app_nil_r in He.
    assert (Hin : In x (reaction_q (rt w2))).
    { apply (Permutation_in x (Permutation_sym P1)).
      apply in_or_app. right. unfold triggered. apply in_flat_map.
      exists e. split; assumption. }
    destruct (invoke_reactions_fires E HC HQ fuel w2 w3 x Hi Hin) as [l2' [Hl2' Hin']].
    assert (l2' = l2).
    { rewrite Hl2 in Hl2'. apply app_inv_head in Hl2'. congruence. }
    subst l2'. rewrite Hct in Hin'.
    right. apply in_or_app. right. apply in_or_app. left. exact Hin'.
  - change w' with (snd (res, w')). rewrite Hc, check_stop_reaction_q.
    unfold free_all. rewrite free_payloads_reaction_q.
    apply (invoke_reactions_done_empty fuel w2 w3 Hi).
Qed.

(** ** The order in which reactions run (lines 81-85 and 112-151) *)

Lemma pqueue_insert_sorted {A : Type} (pri : A -> Z) (x : A) (q : list A) :
  StronglySorted Z.le (map pri q) ->
  StronglySorted Z.le (map pri (pqueue_insert pri x q)).
Proof.
  induction q as [|y q IH]; simpl; intros H.
  - constructor; constructor.
  - inversion H as [|a l Hs Hf]; subst.
    destruct (Z.ltb_spec (pri x) (pri y)); simpl.
    + constructor; [exact H|].
      constructor; [lia|].
      eapply Forall_impl; [|exact Hf]. simpl. intros; lia.
    + constructor; [apply IH; exact Hs|].
      apply Forall_forall. intros z Hz.
      apply in_map_iff in Hz. destruct Hz as [u [<- Hu]].
      apply pqueue_insert_In in Hu. destruct Hu as [->|Hu]; [lia|].
      rewrite Forall_forall in Hf. apply Hf. apply in_map. exact Hu.
Qed.

Lemma insert_reactions_by_index (rs : list reaction_id) (s : @runtime U) :
  by_index E (reaction_q s) -> by_index E (reaction_q (insert_reactions E rs s)).
Proof.
  unfold insert_reactions, by_index. revert s.
  induction rs as [|r rs IH]; intros s H; simpl; [exact H|].
  apply IH. simpl. apply pqueue_insert_sorted. exact H.
Qed.

Lemma drain_by_index (fuel : nat) (w : @world U) :
  by_index E (reaction_q (rt w)) ->
  by_index E (reaction_q (rt (loop_world (drain E fuel w)))).
Proof.
  revert w. induction fuel as [|n IH]; intros w H; [exact H|].
  rewrite drain_S. destruct (event_q (rt w)) as [|e q]; [exact H|].
  assert (H1 : by_index E (reaction_q (rt (pop_event E e q w)))).
  { rewrite pop_event_reaction_q_eq. apply insert_reactions_by_index. exact H. }
  destruct (more_now (rt (pop_event E e q w))); [apply IH|]; exact H1.
Qed.

Lemma propagated_app (l1 l2 : list action) :
  propagated (l1 ++ l2) = propagated l1 ++ propagated l2.
Proof.
  induction l1 as [|a l1 IH]; simpl; [reflexivity|].
  destruct a; simpl; congruence.
Qed.

(** The actions that are no call of [trigger_output_reactions]. *)
Lemma propagated_none (l : list action) :
  Forall (fun a => match a with AOutputs _ => False | _ => True end) l ->
  propagated l = [].
Proof.
  induction 1 as [|a l Ha _ IH]; simpl; [reflexivity|].
  destruct a; simpl in *; tauto.
Qed.

Section IndexKept.

Hypothesis HI : index_discipline E.

Lemma invoke_handlers_keep_reaction_q (hs : list reaction_id) (w : @world U) :
  reaction_q (rt (fold_left (fun w' h => invoke E h w') hs w)) = reaction_q (rt w).
Proof.
  revert w. induction hs as [|h hs IH]; intros w; simpl; [reflexivity|].
  rewrite IH. simpl. apply (bodies_reaction_q E HI).
Qed.

Lemma check_deadline_keeps_reaction_q (r : reaction_id) (w : @world U) :
  reaction_q (rt (check_deadline E r w)) = reaction_q (rt w).
Proof.
  unfold check_deadline.
  destruct (deadline (reaction_tbl E r) >? 0); [|reflexivity].
  destruct (physical_instant _ >? _); [|reflexivity].
  destruct (deadline_violation (reaction_tbl E r)); [|reflexivity].
  rewrite invoke_handlers_keep_reaction_q. reflexivity.
Qed.

(** One turn of the [while] loop for the reaction [r] taken from the head
    of an ordered queue. *)
Lemma run_reaction_by_index (r : reaction_id) (q : list reaction_id) (w : @world U) :
  reaction_q (rt w) = q ->
  by_index E q -> from_index E (reaction_index E r) q ->
  by_index E (reaction_q (rt (run_reaction E r w)))
  /\ from_index E (reaction_index E r) (reaction_q (rt (run_reaction E r w)))
  /\ exists l, trace (run_reaction E r w) = trace w ++ l /\ propagated l = [r].
Proof.
  intros Hq Hs Hf. unfold run_reaction.
  set (w1 := invoke E r (check_deadline E r w)).
  assert (Hq1 : reaction_q (rt w1) = q).
  { unfold w1. simpl. rewrite (bodies_reaction_q E HI).
    rewrite check_deadline_keeps_reaction_q. exact Hq. }
  destruct (outputs_downstream E HI r w1) as [Hs' Hf'];
    [rewrite Hq1; exact Hs | rewrite Hq1; exact Hf |].
  split; [exact Hs'|]. split; [exact Hf'|].
  destruct (check_deadline_by E
              (fun a => match a with AOutputs _ => False | _ => True end) r w)
    as [l0 [Hl0 F0]]; [intros; exact I | intros; exact I |].
  exists (l0 ++ [AInvoke r (current_time (rt (check_deadline E r w))); AOutputs r]).
  split.
  - simpl. rewrite Hl0. repeat rewrite <- app_assoc. reflexivity.
  - rewrite propagated_app, (propagated_none l0 F0). reflexivity.
Qed.

Lemma invoke_reactions_by_index (fuel : nat) (w : @world U) (b : Z) :
  by_index E (reaction_q (rt w)) -> from_index E b (reaction_q (rt w)) ->
  exists l,
    trace (loop_world (invoke_reactions E fuel w)) = trace w ++ l
    /\ Forall reaction_action l
    /\ StronglySorted Z.le (map (reaction_index E) (propagated l))
    /\ Forall (fun x => b <= reaction_index E x) (propagated l).
Proof.
  revert w b. induction fuel as [|n IH]; intros w b Hs Hf;
    destruct (reaction_q (rt w)) as [|r q] eqn:Hq;
    try (rewrite invoke_reactions_nil by exact Hq);
    try (rewrite (invoke_reactions_O _ _ _ _ Hq));
    try (exists []; simpl; rewrite app_nil_r;
         repeat split; constructor).
  rewrite (invoke_reactions_S _ _ _ _ _ Hq).
  set (w0 := on_rt (set_reaction_q q) w).
  unfold by_index in Hs. simpl in Hs. inversion Hs as [|a l Hsq Hfq]; subst.
  inversion Hf as [|a l Hbr Hbq]; subst.
  assert (Hfr : from_index E (reaction_index E r) q).
  { unfold from_index. apply Forall_forall. intros x Hx.
    rewrite Forall_forall in Hfq. apply Hfq. apply in_map. exact Hx. }
  destruct (run_reaction_by_index r q w0 eq_refl Hsq Hfr) as [Hs1 [Hf1 [l0 [Hl0 Hp0]]]].
  destruct (IH _ _ Hs1 Hf1) as [l1 [Hl1 [F1 [S1 B1]]]].
  assert (F0 : extends_by reaction_action w0 (run_reaction E r w0))
    by (apply run_reaction_by; simpl; auto).
  destruct F0 as [l0' [Hl0' F0]].
  assert (l0' = l0) by (rewrite Hl0 in Hl0'; apply app_inv_head in Hl0'; congruence).
  subst l0'.
  exists (l0 ++ l1). split; [|split; [|split]].
  - rewrite Hl1, Hl0. unfold w0. simpl. rewrite <- app_assoc. reflexivity.
  - apply Forall_app. split; assumption.
  - rewrite propagated_app, Hp0. simpl. constructor; [exact S1|].
    apply Forall_forall. intros z Hz. apply in_map_iff in Hz.
    destruct Hz as [u [<- Hu]]. rewrite Forall_forall in B1. apply B1. exact Hu.
  - rewrite propagated_app, Hp0. simpl. constructor; [exact Hbr|].
    eapply Forall_impl; [|exact B1]. simpl. intros; lia.
Qed.

End IndexKept.

(** X6.  Reactions run in the order of their indices: in a program in
    which the bodies and the start-of-step hook leave the reaction queue
    alone and a reaction's outputs queue only reactions of an index not
    smaller than its own, the reactions that a time step pops and runs, one
    after the other, have indices that never decrease, whatever the events
    popped put into the queue and however the step ends. *)
Theorem reactions_run_in_index_order (fuel : nat) (w : @world U) :
  index_discipline E ->
  by_index E (reaction_q (rt w)) ->
  exists l,
    trace (world_of (run_tag E fuel w)) = trace w ++ l
    /\ StronglySorted Z.le (map (reaction_index E) (propagated l)).
Proof.
  intros HI Hs. unfold run_tag.
  set (w1 := call AStartTimeStep (__start_time_step E) w).
  assert (Hs1 : by_index E (reaction_q (rt w1))).
  { unfold w1. simpl. rewrite (hook_reaction_q E HI). exact Hs. }
  pose proof (drain_by_index fuel w1 Hs1) as Hs2.
  destruct (drain_reaction_q_perm fuel w1) as [l1 [Hl1 [F1 _]]].
  assert (P1 : propagated l1 = []).
  { apply propagated_none. eapply Forall_impl; [|exact F1].
    intros a Ha. destruct a; simpl in *; tauto. }
  destruct (drain E fuel w1) as [w2|x|x]; simpl in *;
    try (exists (AStartTimeStep :: l1); split;
         [rewrite Hl1; unfold w1; simpl; rewrite <- app_assoc; reflexivity
         | simpl; rewrite P1; constructor]).
  set (b := match reaction_q (rt w2) with
            | [] => 0
            | r :: _ => reaction_index E r
            end).
  assert (Hb : from_index E b (reaction_q (rt w2))).
  { unfold b, from_index. unfold by_index in Hs2.
    destruct (reaction_q (rt w2)) as [|r q]; [constructor|].
    simpl in Hs2. inversion Hs2 as [|a l Hsq Hfq]; subst.
    constructor; [lia|]. apply Forall_forall. intros x Hx.
    rewrite Forall_forall in Hfq. apply Hfq. apply in_map. exact Hx. }
  destruct (invoke_reactions_by_index HI fuel w2 b Hs2 Hb) as [l2 [Hl2 [F2 [S2 _]]]].
  assert (Hstart : trace w2 ++ l2 = trace w ++ AStartTimeStep :: l1 ++ l2).
  { rewrite Hl1. unfold w1. simpl. repeat rewrite <- app_assoc. reflexivity. }
  assert (Hp : propagated (AStartTimeStep :: l1 ++ l2) = propagated l2).
  { simpl. rewrite propagated_app, P1. reflexivity. }
  destruct (invoke_reactions E fuel w2) as [w3|x|x]; simpl in Hl2 |- *;
    try (exists (AStartTimeStep :: l1 ++ l2); split;
         [rewrite Hl2; exact Hstart | rewrite Hp; exact S2]).
  destruct (check_stop (free_all w3)) as [res w4] eqn:Hc. simpl.
  assert (Ht : trace w4 = trace w3 ++ map (fun e => AFree (payload e)) (free_q (rt w3))).
  { change w4 with (snd (res, w4)). rewrite <- Hc, check_stop_trace.
    apply free_all_trace. }
  exists ((AStartTimeStep :: l1 ++ l2)
          ++ map (fun e => AFree (payload e)) (free_q (rt w3))).
  split.
  - rewrite Ht, Hl2, Hstart. repeat rewrite <- app_assoc. reflexivity.
  - rewrite propagated_app, Hp.
    rewrite (propagated_none (map _ _)), app_nil_r; [exact S2|].
    apply Forall_forall. intros a Ha. apply in_map_iff in Ha.
    destruct Ha as [e [<- _]]. exact I.
Qed.

(** ** The shape of a call of [next] (lines 38-166) *)

Lemma readings_app (l1 l2 : list action) :
  readings (l1 ++ l2) = readings l1 ++ readings l2.
Proof.
  induction l1 as [|a l1 IH]; simpl; [reflexivity|].
  destruct a; simpl; congruence.
Qed.

Lemma readings_none (l : list action) :
  Forall (fun a => match a with AClock _ => False | _ => True end) l ->
  readings l = [].
Proof.
  induction 1 as [|a l Ha _ IH]; simpl; [reflexivity|].
  destruct a; simpl in *; tauto.
Qed.

Lemma balanced_app (l1 l2 : list action) :
  balanced E l1 -> balanced E l2 -> balanced E (l1 ++ l2).
Proof.
  unfold balanced, with_deadline. intros H1 H2.
  rewrite readings_app, propagated_app, filter_app, !length_app. lia.
Qed.

Lemma balanced_quiet (l : list action) :
  Forall (fun a => match a with AClock _ | AOutputs _ => False | _ => True end) l ->
  balanced E l.
Proof.
  intros H. unfold balanced.
  rewrite readings_none, propagated_none; [reflexivity| |];
    (eapply Forall_impl; [|exact H]); intros a Ha; destruct a; simpl in *; tauto.
Qed.

(** One turn of the [while] loop: the clock is read at most once, first
    of all, and exactly when the reaction has a deadline. *)
Lemma run_reaction_reads (r : reaction_id) (w : @world U) :
  exists l,
    trace (run_reaction E r w) = trace w ++ l
    /\ Forall reaction_action l
    /\ propagated l = [r]
    /\ readings l =
       if deadline (reaction_tbl E r) >? 0 then [clock_gettime E w] else [].
Proof.
  assert (Hh : forall hs (w0 : @world U),
            exists l, trace (fold_left (fun w' h => invoke E h w') hs w0) = trace w0 ++ l
                      /\ Forall (fun a => match a with AInvoke _ _ => True | _ => False end) l).
  { intros hs w0.
    apply (invoke_handlers_by E
             (fun a => match a with AInvoke _ _ => True | _ => False end)).
    intros; exact I. }
  assert (Hc : exists l,
            trace (check_deadline E r w) = trace w ++ l
            /\ Forall reaction_action l /\ propagated l = []
            /\ readings l =
               if deadline (reaction_tbl E r) >? 0 then [clock_gettime E w] else []).
  { unfold check_deadline. destruct (deadline (reaction_tbl E r) >? 0).
    - set (w1 := log (AClock (clock_gettime E w)) w).
      assert (H1 : exists l,
                trace w1 = trace w ++ l /\ Forall reaction_action l
                /\ propagated l = [] /\ readings l = [clock_gettime E w]).
      { exists [AClock (clock_gettime E w)]. repeat split. repeat constructor. }
      destruct (physical_instant _ >? _); [|exact H1].
      destruct (deadline_violation (reaction_tbl E r)) as [t|]; [|exact H1].
      destruct (Hh (reactions (triggers E t)) w1) as [l [Hl Fl]].
      exists (AClock (clock_gettime E w) :: l). split; [|split; [|split]].
      + rewrite Hl. unfold w1. simpl. rewrite <- app_assoc. reflexivity.
      + constructor; [exact I|]. eapply Forall_impl; [|exact Fl].
        intros a Ha. destruct a; simpl in *; tauto.
      + simpl. apply propagated_none. eapply Forall_impl; [|exact Fl].
        intros a Ha. destruct a; simpl in *; tauto.
      + simpl. f_equal. apply readings_none. eapply Forall_impl; [|exact Fl].
        intros a Ha. destruct a; simpl in *; tauto.
    - exists []. rewrite app_nil_r. repeat split. constructor. }
  destruct Hc as [l [Hl [Fl [Pl Rl]]]].
  exists (l ++ [AInvoke r (current_time (rt (check_deadline E r w))); AOutputs r]).
  split; [|split; [|split]].
  - rewrite run_reaction_trace, Hl, <- app_assoc. reflexivity.
  - apply Forall_app. split; [exact Fl | repeat constructor].
  - rewrite propagated_app, Pl. reflexivity.
  - rewrite readings_app, Rl. simpl. apply app_nil_r.
Qed.

Lemma invoke_reactions_reads (fuel : nat) (w : @world U) :
  exists l,
    trace (loop_world (invoke_reactions E fuel w)) = trace w ++ l
    /\ Forall reaction_action l
    /\ balanced E l.
Proof.
  revert w. induction fuel as [|n IH]; intros w;
    destruct (reaction_q (rt w)) as [|r q] eqn:Hq;
    try (rewrite invoke_reactions_nil by exact Hq);
    try (rewrite (invoke_reactions_O _ _ _ _ Hq));
    try (exists []; simpl; rewrite app_nil_r;
         repeat split; constructor).
  rewrite (invoke_reactions_S _ _ _ _ _ Hq).
  set (w0 := on_rt (set_reaction_q q) w).
  destruct (run_reaction_reads r w0) as [l0 [Hl0 [F0 [P0 R0]]]].
  destruct (IH (run_reaction E r w0)) as [l1 [Hl1 [F1 B1]]].
  exists (l0 ++ l1). split; [|split].
  - rewrite Hl1, Hl0. unfold w0. simpl. rewrite <- app_assoc. reflexivity.
  - apply Forall_app. split; assumption.
  - apply balanced_app; [|exact B1].
    unfold balanced, with_deadline. rewrite P0, R0. simpl.
    destruct (deadline (reaction_tbl E r) >? 0); reflexivity.
Qed.

(** What a time step consists of, however it ends: the start-of-step
    hook, the turns of the [do] loop, the turns of the [while] loop, the
    payloads freed. *)
Lemma run_tag_shape (fuel : nat) (w : @world U) :
  exists pops runs frees,
    trace (world_of (run_tag E fuel w)) =
      trace w ++ AStartTimeStep :: pops ++ runs ++ frees
    /\ Forall drain_action pops
    /\ Forall reaction_action runs /\ balanced E runs
    /\ Forall is_free frees.
Proof.
  unfold run_tag.
  set (w1 := call AStartTimeStep (__start_time_step E) w).
  destruct (drain_reaction_q_perm fuel w1) as [l1 [Hl1 [F1 _]]].
  assert (H1 : trace w1 ++ l1 = trace w ++ AStartTimeStep :: l1 ++ [] ++ []).
  { unfold w1. simpl. rewrite app_nil_r, <- app_assoc. reflexivity. }
  destruct (drain E fuel w1) as [w2|x|x]; simpl in Hl1 |- *;
    try (exists l1, [], []; split; [rewrite Hl1; exact H1|];
         repeat split; try constructor; exact F1).
  destruct (invoke_reactions_reads fuel w2) as [l2 [Hl2 [F2 B2]]].
  assert (H2 : trace w2 ++ l2 = trace w ++ AStartTimeStep :: l1 ++ l2 ++ []).
  { rewrite Hl1. unfold w1. simpl. rewrite app_nil_r.
    repeat rewrite <- app_assoc. reflexivity. }
  destruct (invoke_reactions E fuel w2) as [w3|x|x]; simpl in Hl2 |- *;
    try (exists l1, l2, []; split; [rewrite Hl2; exact H2|];
         repeat split; try constructor; assumption).
  destruct (check_stop (free_all w3)) as [res w4] eqn:Hc. simpl.
  assert (Ht : trace w4 = trace w3 ++ map (fun e => AFree (payload e)) (free_q (rt w3))).
  { change w4 with (snd (res, w4)). rewrite <- Hc, check_stop_trace.
    apply free_all_trace. }
  exists l1, l2, (map (fun e => AFree (payload e)) (free_q (rt w3))).
  split; [|split; [exact F1 | split; [exact F2 | split; [exact B2|]]]].
  - rewrite Ht, Hl2, Hl1. unfold w1. simpl. repeat rewrite <- app_assoc. reflexivity.
  - apply Forall_forall. intros a Ha. apply in_map_iff in Ha.
    destruct Ha as [e [<- _]]. exact I.
Qed.

(** What a call of [next] consists of, however it ends. *)
Lemma next_shape (fuel : nat) (w : @world U) :
  let t := next_time_of (pqueue_peek (event_q (rt w))) in
  trace (world_of (next E fuel w)) = trace w
  \/ trace (world_of (next E fuel w)) = trace w ++ [AWait t]
  \/ exists pops runs frees,
       trace (world_of (next E fuel w)) =
         trace w ++ AWait t :: AStartTimeStep :: pops ++ runs ++ frees
       /\ Forall drain_action pops
       /\ Forall reaction_action runs /\ balanced E runs
       /\ Forall is_free frees.
Proof.
  intros t. unfold next.
  destruct (is_null _ && negb _); [left; reflexivity|]. right.
  fold t. set (w1 := snd (do_wait E t w)).
  assert (Hrun : exists pops runs frees,
            trace (world_of (run_tag E fuel w1)) =
              trace w ++ AWait t :: AStartTimeStep :: pops ++ runs ++ frees
            /\ Forall drain_action pops
            /\ Forall reaction_action runs /\ balanced E runs
            /\ Forall is_free frees).
  { destruct (run_tag_shape fuel w1) as [pops [runs [frees [Ht H]]]].
    exists pops, runs, frees. split; [|exact H].
    rewrite Ht. unfold w1. simpl. rewrite <- app_assoc. reflexivity. }
  unfold after_wait.
  destruct (fst (do_wait E t w) <? 0); [|right; exact Hrun].
  destruct (same_event _ _).
  - destruct (stop_reached (rt w1) || is_null _); [left; reflexivity | right; exact Hrun].
  - destruct (pqueue_peek (event_q (rt w1))); [right; exact Hrun | left; reflexivity].
Qed.

(** X7.  The parts of a call of [next] come in a fixed order.  A call
    does nothing, or waits once and returns, or waits once, calls the
    start-of-step hook once and then runs its three loops one after the
    other: after the first reaction has run no event is popped and no
    trigger is scheduled again by [next] itself, and payloads are freed
    only when the last reaction has run. *)
Theorem next_runs_its_phases_in_order (fuel : nat) (w : @world U) :
  let t := next_time_of (pqueue_peek (event_q (rt w))) in
  trace (world_of (next E fuel w)) = trace w
  \/ trace (world_of (next E fuel w)) = trace w ++ [AWait t]
  \/ exists pops runs frees,
       trace (world_of (next E fuel w)) =
         trace w ++ AWait t :: AStartTimeStep :: pops ++ runs ++ frees
       /\ Forall drain_action pops
       /\ Forall reaction_action runs
       /\ Forall is_free frees.
Proof.
  intros t. destruct (next_shape fuel w) as [H|[H|[pops [runs [frees [H [F1 [F2 [_ F3]]]]]]]]].
  - left. exact H.
  - right. left. exact H.
  - right. right. exists pops, runs, frees. auto.
Qed.

(** X8.  [next] reads the physical clock once for every reaction with a
    deadline that its [while] loop runs and at no other moment: in the
    trace of a call, however it ends, there are as many clock readings as
    reactions with a positive deadline were run.  In a program without
    deadlines [next] never reads the physical clock. *)
Theorem clock_read_once_per_deadline (fuel : nat) (w : @world U) :
  exists l,
    trace (world_of (next E fuel w)) = trace w ++ l
    /\ length (readings l) = length (with_deadline E (propagated l))
    /\ ((forall r, deadline (reaction_tbl E r) <= 0) -> readings l = []).
Proof.
  assert (H : exists l, trace (world_of (next E fuel w)) = trace w ++ l /\ balanced E l).
  { destruct (next_shape fuel w) as [H|[H|[pops [runs [frees [H [F1 [F2 [B F3]]]]]]]]].
    - exists []. rewrite app_nil_r. split; [exact H | reflexivity].
    - eexists. split; [exact H | reflexivity].
    - eexists. split; [exact H|].
      apply (balanced_app [AWait _; AStartTimeStep]); [reflexivity|].
      apply balanced_app.
      + apply balanced_quiet. eapply Forall_impl; [|exact F1].
        intros a Ha. destruct a; simpl in *; tauto.
      + apply balanced_app; [exact B|].
        apply balanced_quiet. eapply Forall_impl; [|exact F3].
        intros a Ha. destruct a; simpl in *; tauto. }
  destruct H as [l [Hl Bl]]. exists l. split; [exact Hl|]. split; [exact Bl|].
  intros Hd. unfold balanced in Bl.
  assert (Hn : forall rs, with_deadline E rs = []).
  { unfold with_deadline. induction rs as [|r rs IH]; simpl; [reflexivity|].
    destruct (Z.gtb_spec (deadline (reaction_tbl E r)) 0); [|exact IH].
    specialize (Hd r). lia. }
  rewrite Hn in Bl. simpl in Bl. apply length_zero_iff_nil. exact Bl.
Qed.

(** ** The payload the reactions see (lines 93-95) *)

Lemma reschedule_trigger_payload (t : trigger_id) (w : @world U) :
  trigger_payload (rt (reschedule E t w)) = trigger_payload (rt w).
Proof.
  unfold reschedule. destruct (period (triggers E t) >? 0); [|reflexivity].
  simpl. unfold __schedule.
  destruct (pqueue_pop (recycle_q (rt w))) as [[e q]|]; reflexivity.
Qed.

Lemma pop_event_trigger_payload_at (e : event_t) (q : list event_t) (w : @world U)
    (t : trigger_id) :
  trigger_payload (rt (pop_event E e q w)) t =
  if Nat.eqb t (trigger e) then payload e else trigger_payload (rt w) t.
Proof.
  unfold pop_event, park. simpl.
  destruct (payload e =? NULL); simpl; rewrite reschedule_trigger_payload; simpl;
    now rewrite (insert_reactions_frame E trigger_payload).
Qed.

Lemma last_payload_app (t : trigger_id) (l1 l2 : list event_t) (p : ptr) :
  last_payload t (l1 ++ l2) p = last_payload t l2 (last_payload t l1 p).
Proof. unfold last_payload. apply fold_left_app. Qed.

Lemma last_payload_others (t : trigger_id) (l : list event_t) (p : ptr) :
  Forall (fun y => trigger y <> t) l -> last_payload t l p = p.
Proof.
  unfold last_payload. revert p.
  induction l as [|y l IH]; intros p H; simpl; [reflexivity|].
  inversion H as [|a b Hy Hl]; subst.
  destruct (Nat.eqb_spec t (trigger y)) as [Heq|_]; [congruence|].
  apply IH. exact Hl.
Qed.

Lemma drain_last_payload (fuel : nat) (w : @world U) :
  exists l,
    trace (loop_world (drain E fuel w)) = trace w ++ l
    /\ forall t,
         trigger_payload (rt (loop_world (drain E fuel w))) t =
         last_payload t (popped l) (trigger_payload (rt w) t).
Proof.
  revert w. induction fuel as [|n IH]; intros w.
  - exists []. simpl. rewrite app_nil_r. split; reflexivity.
  - rewrite drain_S. destruct (event_q (rt w)) as [|e q] eqn:Hq.
    + exists []. simpl. rewrite app_nil_r. split; reflexivity.
    + destruct (more_now (rt (pop_event E e q w))).
      * destruct (IH (pop_event E e q w)) as [l [Hl Pl]].
        eexists. split.
        -- rewrite Hl, pop_event_trace, <- app_assoc. reflexivity.
        -- intros t. rewrite Pl, popped_app, popped_pop_event.
           rewrite pop_event_trigger_payload_at. reflexivity.
      * eexists. split; [apply pop_event_trace|].
        intros t. rewrite popped_pop_event. apply pop_event_trigger_payload_at.
Qed.

(** X9.  The [do] loop leaves in [trigger->payload] the payload of the
    last event of that trigger it popped: when it pops several events of
    one trigger in one step, the payloads of all but the last are
    overwritten before any reaction runs.  The payload of a trigger none of
    whose events was popped is left as it was. *)
Theorem last_popped_payload_is_delivered (fuel : nat) (w : @world U) :
  exists l,
    trace (loop_world (drain E fuel w)) = trace w ++ l
    /\ (forall l1 e l2,
          popped l = l1 ++ e :: l2 ->
          Forall (fun y => trigger y <> trigger e) l2 ->
          trigger_payload (rt (loop_world (drain E fuel w))) (trigger e) = payload e)
    /\ (forall t,
          Forall (fun y => trigger y <> t) (popped l) ->
          trigger_payload (rt (loop_world (drain E fuel w))) t =
          trigger_payload (rt w) t).
Proof.
  destruct (drain_last_payload fuel w) as [l [Hl Pl]].
  exists l. split; [exact Hl|]. split.
  - intros l1 e l2 Hp Ho. rewrite Pl, Hp.
    rewrite last_payload_app. change (e :: l2) with ([e] ++ l2).
    rewrite last_payload_app, (last_payload_others _ l2) by exact Ho.
    unfold last_payload at 1. simpl. now rewrite Nat.eqb_refl.
  - intros t Ho. rewrite Pl. apply last_payload_others. exact Ho.
Qed.

(** ** After the wait (lines 53-81) *)

(** A time step that finds [e] at the head of the event queue pops it
    first, right after the start-of-step hook. *)
Lemma run_tag_pops_head (n : nat) (w : @world U) (e : event_t) (q : list event_t) :
  event_q (rt w) = e :: q ->
  keeps event_q (__start_time_step E) ->
  exists l,
    trace (world_of (run_tag E (S n) w)) = trace w ++ AStartTimeStep :: APop e :: l.
Proof.
  intros Hq Hst.
  set (w2 := call AStartTimeStep (__start_time_step E) w).
  assert (H2 : event_q (rt w2) = e :: q).
  { unfold w2, call. simpl. rewrite Hst. exact Hq. }
  destruct (run_tag_after_drain E (S n) w) as [l1 [Hl1 _]]. fold w2 in Hl1.
  assert (Hd : extends_by (fun _ => True) (pop_event E e q w2)
                 (loop_world (drain E (S n) w2))).
  { rewrite drain_S, H2.
    destruct (more_now (rt (pop_event E e q w2))).
    - apply drain_by; auto.
    - apply extends_by_refl. }
  destruct Hd as [l0 [Hl0 _]].
  rewrite Hl1, Hl0, pop_event_trace. unfold w2. simpl.
  repeat rewrite <- app_assoc. simpl. eexists. reflexivity.
Qed.

(** X10.  When the wait is interrupted (a negative result), the head of
    the event queue is the event seen before the wait and the stop time is
    not reached, [next] neither returns nor waits again: it runs the time
    step at once.  The step pops that event and its reactions are invoked
    at the logical time the interrupted wait left, be it the time of the
    event or not. *)
Theorem interrupted_wait_with_unchanged_head (fuel : nat) (w : @world U)
    (e e' : event_t) (q q' : list event_t) :
  let w1 := mk_world (snd (wait_until E (time e) w)) (trace w ++ [AWait (time e)]) in
  event_q (rt w) = e :: q ->
  fst (wait_until E (time e) w) < 0 ->
  event_q (rt w1) = e' :: q' ->
  ev_addr e' = ev_addr e ->
  stop_reached (rt w1) = false ->
  next E fuel w = run_tag E fuel w1
  /\ (keeps event_q (__start_time_step E) ->
      exists l,
        trace (world_of (next E (S fuel) w)) =
          trace w ++ AWait (time e) :: AStartTimeStep :: APop e' :: l)
  /\ (clock_discipline E ->
      exists l,
        trace (world_of (next E fuel w)) = trace w ++ AWait (time e) :: l
        /\ forall x c, In (AInvoke x c) l -> c = current_time (rt w1)).
Proof.
  intros w1 Hq Hneg Hq1 Ha Hs.
  assert (Hnext : forall n, next E n w = run_tag E n w1).
  { intros n. unfold next. rewrite Hq. simpl. fold w1. unfold after_wait.
    destruct (Z.ltb_spec (fst (wait_until E (time e) w)) 0); [|lia].
    rewrite Hs, Hq1. simpl. rewrite Ha, Z.eqb_refl. reflexivity. }
  split; [apply Hnext|]. split.
  - intros Hst. rewrite Hnext.
    destruct (run_tag_pops_head fuel w1 e' q' Hq1 Hst) as [l Hl].
    exists l. rewrite Hl. unfold w1. simpl. rewrite <- app_assoc. reflexivity.
  - intros HC. rewrite Hnext.
    destruct (run_tag_at E HC fuel w1) as [_ [l [Hl Fl]]].
    exists l. split.
    + rewrite Hl. unfold w1. simpl. rewrite <- app_assoc. reflexivity.
    + intros x c Hin. rewrite Forall_forall in Fl. exact (Fl _ Hin).
Qed.

(** X11.  Logical time stands still during a call of [next] once the
    wait is over: in a program in which only [wait_until] sets the logical
    clock, every reaction invoked by a call is invoked at the logical time
    that the wait of this call left, and that is the logical time at which
    the call ends. *)
Theorem step_runs_at_one_instant (fuel : nat) (w : @world U) :
  let t := next_time_of (pqueue_peek (event_q (rt w))) in
  let c := current_time (snd (wait_until E t w)) in
  clock_discipline E ->
  is_null (pqueue_peek (event_q (rt w))) && negb (wait_specified (rt w)) = false ->
  current_time (rt (world_of (next E fuel w))) = c
  /\ exists l,
       trace (world_of (next E fuel w)) = trace w ++ AWait t :: l
       /\ forall x c', In (AInvoke x c') l -> c' = c.
Proof.
  intros t c HC Hgo. unfold next. rewrite Hgo. fold t.
  destruct (after_wait_at E HC fuel (pqueue_peek (event_q (rt w)))
              (fst (do_wait E t w)) (snd (do_wait E t w))) as [Hk [l [Hl Fl]]].
  split.
  - rewrite (clocks_current_time _ _ Hk). reflexivity.
  - exists l. split.
    + rewrite Hl. simpl. rewrite <- app_assoc. reflexivity.
    + intros x c' Hin. rewrite Forall_forall in Fl. exact (Fl _ Hin).
Qed.

Lemma run_tag_fault_state (fuel : nat) (w x : @world U) :
  run_tag E fuel w = Fault x ->
  x = call AStartTimeStep (__start_time_step E) w /\ event_q (rt x) = [].
Proof.
  unfold run_tag.
  destruct (drain E fuel _) as [w2|y|y] eqn:Hd; try discriminate.
  - pose proof (invoke_reactions_safe E fuel w2) as Hs.
    destruct (invoke_reactions E fuel w2) as [w3|y|y]; try discriminate.
    intros H. exfalso. apply (Hs y). reflexivity.
  - intros H. inversion H; subst y.
    apply drain_fault in Hd. destruct Hd as [Hd ->]. split; [reflexivity | exact Hd].
Qed.

(** X12.  [next] dereferences a NULL event only with an empty event
    queue and before anything is popped or invoked: a call that ends so
    has only waited, and perhaps called the start-of-step hook.  A call
    that finds an event in the queue before the wait and one after it, in
    a program whose start-of-step hook leaves the event queue alone, never
    ends so. *)
Theorem null_event_only_on_empty_queue :
  (forall fuel (w x : @world U),
     next E fuel w = Fault x ->
     let t := next_time_of (pqueue_peek (event_q (rt w))) in
     event_q (rt x) = []
     /\ (trace x = trace w ++ [AWait t]
         \/ trace x = trace w ++ [AWait t; AStartTimeStep]))
  /\ (forall fuel (w : @world U) e q e' q',
       event_q (rt w) = e :: q ->
       event_q (snd (wait_until E (time e) w)) = e' :: q' ->
       keeps event_q (__start_time_step E) ->
       forall x, next E fuel w <> Fault x).
Proof.
  split.
  - intros fuel w x. unfold next.
    destruct (is_null _ && negb _); [discriminate|].
    set (t := next_time_of (pqueue_peek (event_q (rt w)))).
    set (w1 := snd (do_wait E t w)).
    assert (Hrun : run_tag E fuel w1 = Fault x ->
                   event_q (rt x) = []
                   /\ (trace x = trace w ++ [AWait t]
                       \/ trace x = trace w ++ [AWait t; AStartTimeStep])).
    { intros H. apply run_tag_fault_state in H. destruct H as [Hx Hq].
      split; [exact Hq|]. right. rewrite Hx. unfold w1. simpl.
      rewrite <- app_assoc. reflexivity. }
    unfold after_wait.
    destruct (fst (do_wait E t w) <? 0); [|exact Hrun].
    destruct (same_event _ _).
    + destruct (stop_reached (rt w1) || is_null _); [discriminate | exact Hrun].
    + destruct (pqueue_peek (event_q (rt w1))) as [y|] eqn:Hp; [exact Hrun|].
      intros H. inversion H; subst x. split.
      * destruct (event_q (rt w1)); [reflexivity | discriminate].
      * left. reflexivity.
  - intros fuel w e q e' q'. apply next_safe_with_event.
Qed.

(** A time step that comes to its end has popped an event first. *)
Lemma run_tag_done_trace (fuel : nat) (w : @world U) (res : Z) (w' : @world U) :
  run_tag E fuel w = Done (res, w') ->
  exists e l, trace w' = trace w ++ AStartTimeStep :: APop e :: l.
Proof.
  intros H. destruct (run_tag_parts fuel w res w' H) as [w2 [w3 [Hd [Hi [_ Hf]]]]].
  destruct (drain_pops _ _ _ Hd) as [e [q [l [_ [Ht _]]]]].
  assert (Hi' : extends_by reaction_action w2 (loop_world (invoke_reactions E fuel w2)))
    by (apply invoke_reactions_by; simpl; auto).
  rewrite Hi in Hi'. destruct Hi' as [l2 [Hl2 _]]. simpl in Hl2.
  exists e. eexists. rewrite Hf, Hl2, Ht. simpl.
  repeat rewrite <- app_assoc. simpl. reflexivity.
Qed.

(** A call of [next] that returns 1 has run a time step to its end. *)
Lemma next_one_run_tag (fuel : nat) (w w' : @world U) :
  next E fuel w = Done (1, w') ->
  run_tag E fuel
    (snd (do_wait E (next_time_of (pqueue_peek (event_q (rt w)))) w)) = Done (1, w').
Proof.
  unfold next.
  destruct (is_null _ && negb _); [discriminate|].
  set (t := next_time_of (pqueue_peek (event_q (rt w)))).
  set (w1 := snd (do_wait E t w)).
  unfold after_wait.
  destruct (fst (do_wait E t w) <? 0); [|auto].
  destruct (same_event _ _).
  - destruct (stop_reached (rt w1) || is_null _); [discriminate | auto].
  - destruct (pqueue_peek (event_q (rt w1))); [auto | discriminate].
Qed.

(** X13.  A call of [next] that returns 1 has made progress: it has
    waited, called the start-of-step hook and popped at least one event,
    and it leaves the reaction queue and the queue of payloads to free
    empty. *)
Theorem next_returns_one_after_a_pop (fuel : nat) (w w' : @world U) :
  next E fuel w = Done (1, w') ->
  let t := next_time_of (pqueue_peek (event_q (rt w))) in
  (exists e l, trace w' = trace w ++ AWait t :: AStartTimeStep :: APop e :: l)
  /\ reaction_q (rt w') = []
  /\ free_q (rt w') = [].
Proof.
  intros Hn t. apply next_one_run_tag in Hn. fold t in Hn.
  destruct (run_tag_done_trace _ _ _ _ Hn) as [e [l Ht]].
  destruct (run_tag_parts _ _ _ _ Hn) as [w2 [w3 [_ [Hi [Hc _]]]]].
  split; [|split].
  - exists e, l. rewrite Ht. simpl. rewrite <- app_assoc. reflexivity.
  - change w' with (snd (1, w')). rewrite Hc, check_stop_reaction_q.
    unfold free_all. rewrite free_payloads_reaction_q.
    apply (invoke_reactions_done_empty fuel w2 w3 Hi).
  - change w' with (snd (1, w')). rewrite Hc, check_stop_free_q.
    apply free_all_free_q.
Qed.

(** ** The loop of [main] (line 186) *)

Lemma waits_app (l1 l2 : list action) : waits (l1 ++ l2) = waits l1 ++ waits l2.
Proof.
  induction l1 as [|a l1 IH]; simpl; [reflexivity|].
  destruct a; simpl; congruence.
Qed.

Lemma waits_none (l : list action) : Forall tag_action l -> waits l = [].
Proof.
  induction 1 as [|a l Ha _ IH]; simpl; [reflexivity|].
  destruct a; simpl in *; tauto.
Qed.

Lemma next_value (fuel : nat) (w : @world U) (r : Z) (w' : @world U) :
  next E fuel w = Done (r, w') -> r = 0 \/ r = 1.
Proof.
  unfold next. destruct (is_null _ && negb _).
  - intros H. inversion H. auto.
  - apply after_wait_value.
Qed.

(** A call of [next] waits at most once, and has popped an event when it
    returns a value other than 0. *)
Lemma next_waits_and_pops (fuel : nat) (w : @world U) :
  exists l,
    trace (world_of (next E fuel w)) = trace w ++ l
    /\ (length (waits l) <= 1)%nat
    /\ forall r w', next E fuel w = Done (r, w') -> r <> 0 ->
                    (1 <= length (popped l))%nat.
Proof.
  assert (H : exists l, trace (world_of (next E fuel w)) = trace w ++ l
                        /\ (length (waits l) <= 1)%nat).
  { destruct (next_shape fuel w) as [H|[H|[pops [runs [frees [H [F1 [F2 [_ F3]]]]]]]]].
    - exists []. rewrite app_nil_r. split; [exact H | simpl; lia].
    - eexists. split; [exact H | simpl; lia].
    - eexists. split; [exact H|]. simpl. rewrite !waits_app.
      rewrite (waits_none pops), (waits_none runs), (waits_none frees); [simpl; lia| | |].
      + eapply Forall_impl; [|exact F3]. intros a Ha. destruct a; simpl in *; tauto.
      + eapply Forall_impl; [|exact F2]. intros a Ha. destruct a; simpl in *; tauto.
      + eapply Forall_impl; [|exact F1]. intros a Ha. destruct a; simpl in *; tauto. }
  destruct H as [l [Hl Hw]]. exists l. split; [exact Hl|]. split; [exact Hw|].
  intros r w' Hn Hr.
  destruct (next_value fuel w r w' Hn) as [->| ->]; [congruence|].
  pose proof (next_one_run_tag fuel w w' Hn) as Hrun.
  destruct (run_tag_done_trace _ _ _ _ Hrun) as [e [l' Ht]].
  rewrite Hn in Hl. simpl in Hl, Ht. rewrite Hl, <- app_assoc in Ht.
  apply app_inv_head in Ht. rewrite Ht. simpl. lia.
Qed.

(** X14.  The loop of [main] does not spin: every call of [next] but the
    last has popped at least one event, so that, however the loop ends,
    [wait_until] has been called at most once more than events have been
    popped. *)
Theorem main_loop_consumes_events (inner fuel : nat) (w : @world U) :
  exists l,
    trace (loop_world (event_loop E inner fuel w)) = trace w ++ l
    /\ (length (waits l) <= S (length (popped l)))%nat.
Proof.
  revert w. induction fuel as [|n IH]; intros w.
  - exists []. simpl. rewrite app_nil_r. split; [reflexivity | lia].
  - simpl. destruct (next_waits_and_pops inner w) as [l0 [Hl0 [Hw0 Hp0]]].
    destruct (next E inner w) as [[r w1]|x|x] eqn:Hn; simpl in Hl0;
      try (exists l0; split; [exact Hl0 | lia]).
    destruct (negb (r =? 0) && negb (stop_requested (rt w1))) eqn:Hc.
    + destruct (IH w1) as [l1 [Hl1 Hw1]].
      assert (Hr : r <> 0).
      { apply andb_true_iff in Hc. destruct Hc as [Hc _].
        apply negb_true_iff in Hc. apply Z.eqb_neq. exact Hc. }
      specialize (Hp0 r w1 eq_refl Hr).
      exists (l0 ++ l1). split.
      * rewrite Hl1, Hl0, <- app_assoc. reflexivity.
      * rewrite waits_app, popped_app, !length_app. lia.
    + exists l0. split; [exact Hl0 | lia].
Qed.

(** *** A stop requested before the loop begins *)

Section StopFlagKept.

Hypothesis HS : stop_flag_discipline E.

Lemma invoke_handlers_stop_flag (hs : list reaction_id) (w : @world U) :
  stop_requested (rt (fold_left (fun w' h => invoke E h w') hs w)) =
  stop_requested (rt w).
Proof.
  revert w. induction hs as [|h hs IH]; intros w; simpl; [reflexivity|].
  rewrite IH. simpl. apply (function_stop_flag E HS).
Qed.

Lemma run_reaction_stop_flag (r : reaction_id) (w : @world U) :
  stop_requested (rt (run_reaction E r w)) = stop_requested (rt w).
Proof.
  unfold run_reaction. simpl.
  rewrite (outputs_stop_flag E HS). simpl. rewrite (function_stop_flag E HS).
  unfold check_deadline.
  destruct (deadline (reaction_tbl E r) >? 0); [|reflexivity].
  destruct (physical_instant _ >? _); [|reflexivity].
  destruct (deadline_violation (reaction_tbl E r)); [|reflexivity].
  rewrite invoke_handlers_stop_flag. reflexivity.
Qed.

Lemma invoke_reactions_stop_flag (fuel : nat) (w : @world U) :
  stop_requested (rt (loop_world (invoke_reactions E fuel w))) =
  stop_requested (rt w).
Proof.
  revert w. induction fuel as [|n IH]; intros w;
    destruct (reaction_q (rt w)) as [|r q] eqn:Hq;
    try (rewrite invoke_reactions_nil by exact Hq; reflexivity);
    try (rewrite (invoke_reactions_O _ _ _ _ Hq); reflexivity).
  rewrite (invoke_reactions_S _ _ _ _ _ Hq), IH, run_reaction_stop_flag.
  reflexivity.
Qed.

Lemma drain_stop_flag (fuel : nat) (w : @world U) :
  stop_requested (rt (loop_world (drain E fuel w))) = stop_requested (rt w).
Proof.
  revert w. induction fuel as [|n IH]; intros w; [reflexivity|].
  rewrite drain_S. destruct (event_q (rt w)) as [|e q]; [reflexivity|].
  destruct (more_now (rt (pop_event E e q w)));
    [rewrite IH|]; apply (pop_event_rest E e q w).
Qed.

Lemma free_payloads_stop_flag (q : list event_t) (w : @world U) :
  stop_requested (rt (free_payloads q w)) = stop_requested (rt w).
Proof.
  revert w. induction q as [|e q IH]; intros w; simpl; [reflexivity|].
  rewrite IH. reflexivity.
Qed.

Lemma run_tag_stop_flag (fuel : nat) (w : @world U) :
  stop_requested (rt w) = true ->
  stop_requested (rt (world_of (run_tag E fuel w))) = true.
Proof.
  intros H. unfold run_tag.
  set (w1 := call AStartTimeStep (__start_time_step E) w).
  assert (H1 : stop_requested (rt w1) = true).
  { unfold w1. simpl. rewrite (hook_stop_flag E HS). exact H. }
  pose proof (drain_stop_flag fuel w1) as H2. rewrite H1 in H2.
  destruct (drain E fuel w1) as [w2|x|x]; simpl in H2 |- *; try exact H2.
  pose proof (invoke_reactions_stop_flag fuel w2) as H3. rewrite H2 in H3.
  destruct (invoke_reactions E fuel w2) as [w3|x|x]; simpl in H3 |- *; try exact H3.
  unfold check_stop, free_all.
  destruct (stop_reached _); simpl; [reflexivity|].
  rewrite free_payloads_stop_flag. exact H3.
Qed.

Lemma next_stop_flag (fuel : nat) (w : @world U) :
  stop_requested (rt w) = true ->
  stop_requested (rt (world_of (next E fuel w))) = true.
Proof.
  intros H. unfold next.
  destruct (is_null _ && negb _); [exact H|].
  set (t := next_time_of (pqueue_peek (event_q (rt w)))).
  set (w1 := snd (do_wait E t w)).
  assert (H1 : stop_requested (rt w1) = true).
  { unfold w1. simpl. rewrite (wait_stop_flag E HS). exact H. }
  unfold after_wait.
  destruct (fst (do_wait E t w) <? 0); [|apply run_tag_stop_flag; exact H1].
  destruct (same_event _ _).
  - destruct (stop_reached (rt w1) || is_null _);
      [reflexivity | apply run_tag_stop_flag; exact H1].
  - destruct (pqueue_peek (event_q (rt w1)));
      [apply run_tag_stop_flag; exact H1 | exact H1].
Qed.

End StopFlagKept.

(** X15.  The loop of [main] tests [stop_requested] only after a call of
    [next]: when a stop is requested before the loop begins and nothing
    called by [next] touches the flag, [next] is still called, once, and
    the loop ends with that call whatever it returns. *)
Theorem stop_requested_before_the_loop (inner n : nat) (w : @world U) :
  stop_flag_discipline E ->
  stop_requested (rt w) = true ->
  stop_requested (rt (world_of (next E inner w))) = true
  /\ event_loop E inner (S n) w =
     match next E inner w with
     | Done (_, w') => Done w'
     | Fault x => Fault x
     | Timeout x => Timeout x
     end.
Proof.
  intros HS H. pose proof (next_stop_flag HS inner w H) as Hn.
  split; [exact Hn|]. simpl.
  destruct (next E inner w) as [[r w1]|x|x]; try reflexivity.
  simpl in Hn. rewrite Hn, andb_false_r. reflexivity.
Qed.

End MoreFacts.

(** * The program, the stop time, the timers and [schedule] *)

Section Revised.

Context {U : Type}.
Variable E : @env U.

(** ** The loop of [main] (line 186) *)

(** The loop ends with the first call of [next] that returns 0 or leaves
    [stop_requested] set, given as many turns. *)
Lemma event_loop_ends (inner : nat) (w : @world U) (k : nat) (w' : @world U) :
  ends_after E inner w k w' ->
  forall fuel, (k <= fuel)%nat -> event_loop E inner fuel w = Done w'.
Proof.
  induction 1 as [w r w' Hn Hr | w r w1 k w' Hn Hr Hs _ IH]; intros fuel Hf.
  - destruct fuel as [|n]; [lia|]. simpl. rewrite Hn.
    destruct Hr as [-> | Hr]; [reflexivity|].
    rewrite Hr, andb_false_r. reflexivity.
  - destruct fuel as [|n]; [lia|]. simpl. rewrite Hn, Hs.
    destruct (Z.eqb_spec r 0) as [H0|_]; [contradiction|]. simpl.
    apply IH. lia.
Qed.

(** A loop that has ended has ended so. *)
Lemma event_loop_ended (inner fuel : nat) (w w' : @world U) :
  event_loop E inner fuel w = Done w' ->
  exists k, (k <= fuel)%nat /\ ends_after E inner w k w'.
Proof.
  revert w. induction fuel as [|n IH]; intros w; simpl; [discriminate|].
  destruct (next E inner w) as [[r w1]|x|x] eqn:Hn; try discriminate.
  destruct (negb (r =? 0) && negb (stop_requested (rt w1))) eqn:Hc.
  - intros H. destruct (IH _ H) as [k [Hk He]].
    apply andb_true_iff in Hc. destruct Hc as [Hr Hs].
    apply negb_true_iff in Hr, Hs. apply Z.eqb_neq in Hr.
    exists (S k). split; [lia|]. eapply ends_later; eauto.
  - intros H. inversion H; subst w1. exists 1%nat. split; [lia|].
    eapply ends_now; [exact Hn|].
    apply andb_false_iff in Hc. destruct Hc as [Hc|Hc];
      apply negb_false_iff in Hc; [left; apply Z.eqb_eq; exact Hc | right; exact Hc].
Qed.

(** C10.  When [process_args] fails (returns 0), [main] returns -1 having
    called nothing else: neither [initialize] nor [__start_timers], [next]
    or [wrapup].  When it succeeds, [main] calls [initialize] and
    [__start_timers] and then [next], again and again; as soon as a call of
    [next] returns 0 or leaves [stop_requested] set, it calls [wrapup] and
    returns 0, and it returns in no other way and no other value. *)
Theorem main_exit_code (inner fuel : nat) (argc : Z) (argv : list string)
    (w : @world U) :
  let ok := fst (process_args E argc argv w) in
  let w1 := mk_world (snd (process_args E argc argv w)) (trace w ++ [AProcessArgs]) in
  let w3 := call AStartTimers (__start_timers E) (call AInitialize (initialize E) w1) in
  (ok = 0 -> main E inner fuel argc argv w = Done (-1, w1))
  /\ (ok <> 0 ->
      trace w3 = trace w ++ [AProcessArgs; AInitialize; AStartTimers]
      /\ (forall k w4,
            ends_after E inner w3 k w4 -> (k <= fuel)%nat ->
            main E inner fuel argc argv w = Done (0, wrapup E w4))
      /\ (forall r w',
            main E inner fuel argc argv w = Done (r, w') ->
            r = 0
            /\ exists k w4,
                 (k <= fuel)%nat /\ ends_after E inner w3 k w4
                 /\ w' = wrapup E w4
                 /\ exists l, trace w4 = trace w3 ++ l /\ Forall loop_action l)).
Proof.
  intros ok w1 w3. split.
  - intros H0. unfold main. fold ok. rewrite H0. reflexivity.
  - intros Hok.
    assert (Hb : negb (ok =? 0) = true).
    { apply negb_true_iff. apply Z.eqb_neq. exact Hok. }
    split; [|split].
    + unfold w3, w1. simpl. repeat rewrite <- app_assoc. reflexivity.
    + intros k w4 He Hk. unfold main. fold ok. rewrite Hb. fold w1. fold w3.
      rewrite (event_loop_ends inner w3 k w4 He fuel Hk). reflexivity.
    + intros r w'. unfold main. fold ok. rewrite Hb. fold w1. fold w3.
      destruct (event_loop E inner fuel w3) as [w4|x|x] eqn:Hl; try discriminate.
      intros H. inversion H; subst. split; [reflexivity|].
      destruct (event_loop_ended inner fuel w3 w4 Hl) as [k [Hk He]].
      exists k, w4. split; [exact Hk|]. split; [exact He|]. split; [reflexivity|].
      pose proof (event_loop_by E inner fuel w3) as [l [Ht Fl]].
      rewrite Hl in Ht. simpl in Ht. exists l. split; assumption.
Qed.

(** ** Stop time (lines 53-64 and 161-165) *)

(** Whatever the [do] loop pops is the head of the queue, popped first, or
    an event stamped with the current time. *)
Lemma drain_pops_any (fuel : nat) (w : @world U) :
  exists l,
    trace (loop_world (drain E fuel w)) = trace w ++ l
    /\ Forall drain_action l
    /\ forall y, In y (popped l) ->
                 pqueue_peek (event_q (rt w)) = Some y
                 \/ time y = current_time (rt w).
Proof.
  revert w. induction fuel as [|n IH]; intros w.
  - exists []. simpl. rewrite app_nil_r. repeat split; [constructor | contradiction].
  - rewrite drain_S. destruct (event_q (rt w)) as [|e q] eqn:Hq.
    + exists []. simpl. rewrite app_nil_r. repeat split; [constructor | contradiction].
    + destruct (more_now (rt (pop_event E e q w))) eqn:Hm.
      * destruct (IH (pop_event E e q w)) as [l [Hl [Fl Pl]]].
        eexists. split; [|split].
        -- rewrite Hl, pop_event_trace, <- app_assoc. reflexivity.
        -- apply Forall_app. split; [|exact Fl].
           constructor; [exact I | apply pop_event_drain_actions].
        -- intros y Hy. rewrite popped_app, popped_pop_event in Hy.
           destruct Hy as [<- | Hy]; [left; reflexivity|].
           right. destruct (Pl y Hy) as [Hp | Ht].
           ++ unfold more_now in Hm. rewrite Hp in Hm.
              rewrite pop_event_current_time in Hm. apply Z.eqb_eq. exact Hm.
           ++ rewrite Ht. apply pop_event_current_time.
      * eexists. split; [apply pop_event_trace|]. split.
        -- constructor; [exact I | apply pop_event_drain_actions].
        -- intros y Hy. rewrite popped_pop_event in Hy.
           destruct Hy as [<- | []]. left. reflexivity.
Qed.

Lemma popped_quiet (l : list action) :
  Forall (fun a => reaction_action a \/ is_free a) l -> popped l = [].
Proof.
  induction 1 as [|a l Ha _ IH]; simpl; [reflexivity|].
  destruct a; simpl in *; tauto.
Qed.

Lemma rescheduled_quiet (l : list action) :
  Forall (fun a => reaction_action a \/ is_free a) l -> rescheduled l = [].
Proof.
  induction 1 as [|a l Ha _ IH]; simpl; [reflexivity|].
  destruct a; simpl in *; tauto.
Qed.

(** The trace of a time step: the hook, what the [do] loop did, and what
    the [while] loop and the freeing of payloads did. *)
Lemma run_tag_popped (fuel : nat) (w : @world U) :
  exists l1 l2,
    trace (world_of (run_tag E fuel w)) = trace w ++ AStartTimeStep :: l1 ++ l2
    /\ trace (loop_world (drain E fuel (call AStartTimeStep (__start_time_step E) w))) =
       trace (call AStartTimeStep (__start_time_step E) w) ++ l1
    /\ Forall (fun a => reaction_action a \/ is_free a) l2.
Proof.
  set (w1 := call AStartTimeStep (__start_time_step E) w).
  destruct (drain_pops_any fuel w1) as [l1 [Hl1 _]].
  assert (H : exists l2,
            trace (world_of (run_tag E fuel w)) =
              trace (loop_world (drain E fuel w1)) ++ l2
            /\ Forall (fun a => reaction_action a \/ is_free a) l2).
  { unfold run_tag. fold w1.
    destruct (drain E fuel w1) as [w2|x|x]; simpl;
      try (exists []; rewrite app_nil_r; split; [reflexivity | constructor]).
    assert (Hi : extends_by reaction_action w2 (loop_world (invoke_reactions E fuel w2)))
      by (apply invoke_reactions_by; simpl; auto).
    destruct Hi as [l3 [Hl3 F3]].
    assert (F3' : Forall (fun a => reaction_action a \/ is_free a) l3).
    { eapply Forall_impl; [|exact F3]. intros a Ha. left. exact Ha. }
    destruct (invoke_reactions E fuel w2) as [w3|x|x]; simpl in Hl3 |- *;
      try (exists l3; split; [exact Hl3 | exact F3']).
    destruct (check_stop (free_all w3)) as [res w4] eqn:Hc. simpl.
    assert (Hf : trace w4 = trace w3 ++ map (fun e => AFree (payload e)) (free_q (rt w3))).
    { change w4 with (snd (res, w4)). rewrite <- Hc, check_stop_trace.
      apply free_all_trace. }
    exists (l3 ++ map (fun e => AFree (payload e)) (free_q (rt w3))). split.
    - rewrite Hf, Hl3, <- app_assoc. reflexivity.
    - apply Forall_app. split; [exact F3'|].
      apply Forall_forall. intros a Ha. apply in_map_iff in Ha.
      destruct Ha as [e [<- _]]. right. exact I. }
  destruct H as [l2 [Hl2 F2]].
  exists l1, l2. split; [|split; [exact Hl1 | exact F2]].
  rewrite Hl2, Hl1. unfold w1. simpl. repeat rewrite <- app_assoc. reflexivity.
Qed.

Section StopTimeKept.

Hypothesis HC : clock_discipline E.
Hypothesis Hhook : keeps event_q (__start_time_step E).

(** A time step at a logical time not later than [b], begun with a head
    event not later than [b], pops no event stamped later than [b]. *)
Lemma run_tag_pops_within (fuel : nat) (w : @world U) (b : instant_t) :
  current_time (rt w) <= b ->
  (forall e, pqueue_peek (event_q (rt w)) = Some e -> time e <= b) ->
  exists l,
    trace (world_of (run_tag E fuel w)) = trace w ++ l
    /\ forall e, In e (popped l) -> time e <= b.
Proof.
  intros Hc Hh.
  destruct (run_tag_popped fuel w) as [l1 [l2 [Ht [Hd F2]]]].
  pose proof (popped_quiet l2 F2) as Hp2.
  set (w1 := call AStartTimeStep (__start_time_step E) w) in *.
  destruct (drain_pops_any fuel w1) as [l1' [Hl1' [_ Pl]]].
  assert (l1' = l1) by (rewrite Hd in Hl1'; apply app_inv_head in Hl1'; congruence).
  subst l1'.
  exists (AStartTimeStep :: l1 ++ l2). split; [exact Ht|].
  intros e He. simpl in He. rewrite popped_app, Hp2, app_nil_r in He.
  destruct (Pl e He) as [Hp | Hte].
  - apply Hh. unfold w1 in Hp. simpl in Hp. rewrite Hhook in Hp. exact Hp.
  - rewrite Hte. unfold w1. simpl.
    rewrite (clocks_current_time _ _ (start_clocks E HC w)). exact Hc.
Qed.

Hypothesis HW : stop_aware_wait E.

(** A call of [next] made with a stop time set and not yet passed pops no
    event stamped later than the stop time. *)
Lemma next_pops_within_stop_time (fuel : nat) (w : @world U) :
  0 < stop_time (rt w) ->
  current_time (rt w) <= stop_time (rt w) ->
  exists l,
    trace (world_of (next E fuel w)) = trace w ++ l
    /\ forall e, In e (popped l) -> time e <= stop_time (rt w).
Proof.
  intros Hs Hc. unfold next.
  destruct (is_null _ && negb _).
  { exists []. simpl. rewrite app_nil_r. split; [reflexivity | contradiction]. }
  set (t := next_time_of (pqueue_peek (event_q (rt w)))).
  set (w1 := snd (do_wait E t w)).
  assert (Hq1 : event_q (rt w1) = event_q (rt w)) by apply (wait_event_q E HW).
  assert (Hs1 : stop_time (rt w1) = stop_time (rt w)) by apply (wait_stop_time E HC).
  assert (Hc1 : current_time (rt w1) <= stop_time (rt w))
    by (apply (wait_bounded E HC); assumption).
  assert (Hnone : exists l,
            trace w1 = trace w ++ l
            /\ forall e, In e (popped l) -> time e <= stop_time (rt w)).
  { exists [AWait t]. split; [reflexivity | contradiction]. }
  assert (Hrun : (forall e, pqueue_peek (event_q (rt w)) = Some e ->
                            time e <= stop_time (rt w)) ->
                 exists l,
                   trace (world_of (run_tag E fuel w1)) = trace w ++ l
                   /\ forall e, In e (popped l) -> time e <= stop_time (rt w)).
  { intros Hh.
    destruct (run_tag_pops_within fuel w1 (stop_time (rt w)) Hc1) as [l [Hl Pl]].
    - rewrite Hq1. exact Hh.
    - exists (AWait t :: l). split; [|exact Pl].
      rewrite Hl. unfold w1. simpl. rewrite <- app_assoc. reflexivity. }
  destruct (pqueue_peek (event_q (rt w))) as [e|] eqn:Hp.
  - simpl in t. destruct (Z.le_gt_cases t (stop_time (rt w))) as [Hle | Hgt].
    + assert (Hrun' := Hrun ltac:(intros e0 H0; inversion H0; subst; exact Hle)).
      unfold after_wait.
      destruct (fst (do_wait E t w) <? 0); [|exact Hrun'].
      destruct (same_event _ _).
      * destruct (stop_reached (rt w1) || is_null _); [exact Hnone | exact Hrun'].
      * destruct (pqueue_peek (event_q (rt w1))); [exact Hrun' | exact Hnone].
    + destruct (wait_beyond E HW t w Hs Hgt) as [Hneg Hat].
      assert (Hsr : stop_reached (rt w1) = true).
      { unfold stop_reached. rewrite Hs1. apply andb_true_iff. split.
        - apply Z.gtb_lt. lia.
        - apply Z.geb_le. unfold w1. simpl. lia. }
      unfold after_wait.
      change (fst (do_wait E t w)) with (fst (wait_until E t w)).
      destruct (Z.ltb_spec (fst (wait_until E t w)) 0) as [_|Hge]; [|lia].
      rewrite Hsr, Hq1, Hp. simpl. rewrite Z.eqb_refl. exact Hnone.
  - assert (Hrun' := Hrun ltac:(intros e0 H0; discriminate H0)).
    unfold after_wait.
    destruct (fst (do_wait E t w) <? 0); [|exact Hrun'].
    rewrite Hq1, Hp. simpl. rewrite orb_true_r. exact Hnone.
Qed.

Lemma event_loop_within_stop_time (inner fuel : nat) (w : @world U) :
  0 < stop_time (rt w) ->
  current_time (rt w) <= stop_time (rt w) ->
  exists l,
    trace (loop_world (event_loop E inner fuel w)) = trace w ++ l
    /\ (forall e, In e (popped l) -> time e <= stop_time (rt w))
    /\ (forall x c, In (AInvoke x c) l -> c <= stop_time (rt w)).
Proof.
  revert w. induction fuel as [|n IH]; intros w Hs Hc.
  - exists []. simpl. rewrite app_nil_r. repeat split; contradiction.
  - simpl.
    destruct (next_by_stop_time E HC inner w Hs Hc) as [H1 [H2 [l0 [Hl0 F0]]]].
    destruct (next_pops_within_stop_time inner w Hs Hc) as [l0' [Hl0' P0]].
    assert (l0' = l0) by (rewrite Hl0 in Hl0'; apply app_inv_head in Hl0'; congruence).
    subst l0'.
    assert (Hone : exists l,
              trace (world_of (next E inner w)) = trace w ++ l
              /\ (forall e, In e (popped l) -> time e <= stop_time (rt w))
              /\ (forall x c, In (AInvoke x c) l -> c <= stop_time (rt w))).
    { exists l0. split; [exact Hl0|]. split; [exact P0|].
      intros x c Hin. rewrite Forall_forall in F0. exact (F0 _ Hin). }
    destruct (next E inner w) as [[r w1]|x|x]; simpl in *; try exact Hone.
    destruct (negb (r =? 0) && negb (stop_requested (rt w1))); [|exact Hone].
    destruct (IH w1) as [l1 [Hl1 [P1 I1]]]; [rewrite H1; exact Hs | rewrite H1; exact H2 |].
    rewrite H1 in P1, I1.
    exists (l0 ++ l1). split; [|split].
    + rewrite Hl1, Hl0, <- app_assoc. reflexivity.
    + intros e He. rewrite popped_app in He. apply in_app_or in He.
      destruct He; [apply P0 | apply P1]; assumption.
    + intros x c Hin. apply in_app_or in Hin. destruct Hin as [Hin|Hin].
      * rewrite Forall_forall in F0. exact (F0 _ Hin).
      * exact (I1 x c Hin).
Qed.

End StopTimeKept.


(** ** The instant [schedule] gives an event (lines 19-21) *)

(** C2.  [schedule] hands [trigger->offset + extra_delay] to [__schedule]
    and the event that comes of it carries an instant, the current instant
    plus the net delay, and no microstep.  When [__schedule] adds the
    offset of the trigger to the delay it is given, as the comment at lines
    88-89 says it does, the offset counts twice: the event is stamped
    [current_time + offset + extra_delay + offset], which is the instant
    [current_time + offset + extra_delay] documented at lines 7-10 only for
    a trigger without offset.  When [__schedule] adds nothing, the stamp is
    the documented instant.  Either way [schedule] leaves the logical time
    as it is. *)
Theorem schedule_firing_tag (t : trigger_id) (d : interval_t) (p : ptr)
    (r : @runtime U) :
  let c := current_time r in
  let off := offset (triggers E t) in
  let r' := snd (schedule E t d p r) in
  let e := mk_event (acquired_addr r) (c + schedule_net_delay E t d) t p in
  int64 (off + d) ->
  int64 (schedule_net_delay E t d) ->
  int64 (c + schedule_net_delay E t d) ->
  event_q r' = pqueue_insert time e (event_q r)
  /\ In e (event_q r')
  /\ current_time r' = c
  /\ (offset_added_by___schedule E = true ->
      time e = c + off + d + off
      /\ (time e = c + off + d <-> off = 0))
  /\ (offset_added_by___schedule E = false -> time e = c + off + d).
Proof.
  intros c off r' e Hn Hs Hc.
  pose proof (schedule_stamp E t d p r Hn Hs Hc) as Hq. fold c e r' in Hq.
  split; [exact Hq|]. split; [|split; [|split]].
  - rewrite Hq. apply pqueue_insert_In. auto.
  - apply schedule_current_time.
  - intros Hk. unfold e, schedule_net_delay. rewrite Hk. fold off. simpl.
    split; [lia|]. split; intros H; lia.
  - intros Hk. unfold e, schedule_net_delay. rewrite Hk. fold off. simpl. lia.
Qed.

(** ** Periodic triggers (lines 86-92) *)

Lemma rescheduled_app (l1 l2 : list action) :
  rescheduled (l1 ++ l2) = rescheduled l1 ++ rescheduled l2.
Proof.
  induction l1 as [|a l1 IH]; simpl; [reflexivity|].
  destruct a; simpl; congruence.
Qed.

Lemma reschedulings_app (l1 l2 : list event_t) :
  reschedulings E (l1 ++ l2) = reschedulings E l1 ++ reschedulings E l2.
Proof. unfold reschedulings. now rewrite filter_app, map_app. Qed.

Lemma pop_event_rescheduled (e : event_t) :
  rescheduled
    (APop e ::
     (if period (triggers E (trigger e)) >? 0
      then [ASchedule (trigger e)
              (sub64 (period (triggers E (trigger e))) (offset (triggers E (trigger e))))
              NULL]
      else [])) = reschedulings E [e].
Proof.
  unfold reschedulings. simpl.
  destruct (period (triggers E (trigger e)) >? 0); reflexivity.
Qed.

(** The [do] loop calls [__schedule] once for each event with a periodic
    trigger that it pops, in the order of the pops, and never otherwise. *)
Lemma drain_reschedules (fuel : nat) (w : @world U) :
  exists l,
    trace (loop_world (drain E fuel w)) = trace w ++ l
    /\ rescheduled l = reschedulings E (popped l).
Proof.
  revert w. induction fuel as [|n IH]; intros w.
  - exists []. simpl. rewrite app_nil_r. split; reflexivity.
  - rewrite drain_S. destruct (event_q (rt w)) as [|e q] eqn:Hq.
    + exists []. simpl. rewrite app_nil_r. split; reflexivity.
    + destruct (more_now (rt (pop_event E e q w))).
      * destruct (IH (pop_event E e q w)) as [l [Hl Rl]].
        eexists. split.
        -- rewrite Hl, pop_event_trace, <- app_assoc. reflexivity.
        -- rewrite rescheduled_app, popped_app, reschedulings_app, Rl.
           rewrite pop_event_rescheduled, popped_pop_event. reflexivity.
      * eexists. split; [apply pop_event_trace|].
        rewrite pop_event_rescheduled, popped_pop_event. reflexivity.
Qed.

(** The ways in which a call of [next] ends. *)
Lemma next_world_cases (fuel : nat) (w : @world U) (Q : @world U -> Prop) :
  Q w ->
  (let w1 := snd (do_wait E (next_time_of (pqueue_peek (event_q (rt w)))) w) in
   Q w1 /\ Q (on_rt (set_stop_requested true) w1)
   /\ Q (world_of (run_tag E fuel w1))) ->
  Q (world_of (next E fuel w)).
Proof.
  intros H0 [H1 [H2 H3]]. unfold next.
  destruct (is_null _ && negb _); [exact H0|].
  unfold after_wait.
  destruct (fst (do_wait E _ w) <? 0); [|exact H3].
  destruct (same_event _ _).
  - destruct (stop_reached _ || is_null _); [exact H2 | exact H3].
  - destruct (pqueue_peek (event_q (rt (snd (do_wait E _ w))))); [exact H3 | exact H1].
Qed.

Lemma next_reschedules (fuel : nat) (w : @world U) :
  exists l,
    trace (world_of (next E fuel w)) = trace w ++ l
    /\ rescheduled l = reschedulings E (popped l).
Proof.
  apply (next_world_cases fuel w
           (fun x => exists l, trace x = trace w ++ l
                               /\ rescheduled l = reschedulings E (popped l))).
  - exists []. rewrite app_nil_r. split; reflexivity.
  - set (t := next_time_of (pqueue_peek (event_q (rt w)))).
    intros w1. split; [|split].
    + exists [AWait t]. split; reflexivity.
    + exists [AWait t]. split; reflexivity.
    + destruct (run_tag_popped fuel w1) as [l1 [l2 [Ht [Hd F2]]]].
      destruct (drain_reschedules fuel (call AStartTimeStep (__start_time_step E) w1))
        as [l1' [Hl1' R1]].
      assert (l1' = l1) by (rewrite Hd in Hl1'; apply app_inv_head in Hl1'; congruence).
      subst l1'.
      exists (AWait t :: AStartTimeStep :: l1 ++ l2). split.
      * rewrite Ht. unfold w1. simpl. rewrite <- app_assoc. reflexivity.
      * simpl. rewrite rescheduled_app, popped_app.
        rewrite (rescheduled_quiet l2 F2), (popped_quiet l2 F2), !app_nil_r.
        exact R1.
Qed.

(** *** The event queue is left to [next] *)

Section OnlyTimers.

Hypothesis HO : only_timers E.

Lemma invoke_handlers_event_q (hs : list reaction_id) (w : @world U) :
  event_q (rt (fold_left (fun w' h => invoke E h w') hs w)) = event_q (rt w).
Proof.
  revert w. induction hs as [|h hs IH]; intros w; simpl; [reflexivity|].
  rewrite IH. simpl. apply (function_event_q E HO).
Qed.

Lemma run_reaction_event_q (r : reaction_id) (w : @world U) :
  event_q (rt (run_reaction E r w)) = event_q (rt w).
Proof.
  unfold run_reaction. simpl.
  rewrite (outputs_event_q E HO). simpl. rewrite (function_event_q E HO).
  unfold check_deadline.
  destruct (deadline (reaction_tbl E r) >? 0); [|reflexivity].
  destruct (physical_instant _ >? _); [|reflexivity].
  destruct (deadline_violation (reaction_tbl E r)); [|reflexivity].
  rewrite invoke_handlers_event_q. reflexivity.
Qed.

Lemma invoke_reactions_event_q (fuel : nat) (w : @world U) :
  event_q (rt (loop_world (invoke_reactions E fuel w))) = event_q (rt w).
Proof.
  revert w. induction fuel as [|n IH]; intros w;
    destruct (reaction_q (rt w)) as [|r q] eqn:Hq;
    try (rewrite invoke_reactions_nil by exact Hq; reflexivity);
    try (rewrite (invoke_reactions_O _ _ _ _ Hq); reflexivity).
  rewrite (invoke_reactions_S _ _ _ _ _ Hq), IH, run_reaction_event_q.
  reflexivity.
Qed.

End OnlyTimers.

Lemma free_payloads_event_q (q : list event_t) (w : @world U) :
  event_q (rt (free_payloads q w)) = event_q (rt w).
Proof.
  revert w. induction q as [|e q IH]; intros w; simpl; [reflexivity|].
  rewrite IH. reflexivity.
Qed.

Lemma weight_perm (W : reaction_id -> nat) (q q' : list reaction_id) :
  Permutation q q' -> weight W q = weight W q'.
Proof.
  induction 1 as [|x l l' _ IH|x y l|l l' l'' _ IH1 _ IH2]; simpl.
  - reflexivity.
  - rewrite IH. reflexivity.
  - lia.
  - congruence.
Qed.

Lemma firings_S (c per : Z) (k : nat) :
  firings c per (S k) = c :: firings (c + per) per k.
Proof.
  unfold firings. simpl. f_equal; [lia|].
  rewrite <- seq_shift, map_map. apply map_ext. intros j. lia.
Qed.

Lemma check_stop_event_q (w : @world U) :
  event_q (rt (snd (check_stop w))) = event_q (rt w).
Proof. unfold check_stop. destruct (stop_reached (rt w)); reflexivity. Qed.

(** *** A program with one timer *)

Section OneTimer.

Variable W : reaction_id -> nat.
Variable t0 : trigger_id.
Variables P off : interval_t.
Hypothesis HP : period (triggers E t0) = P.
Hypothesis Hoff : offset (triggers E t0) = off.
Hypothesis P_positive : 0 < P.
Hypothesis P_range : int64 P.
Hypothesis diff_range : int64 (P - off).
Hypothesis HK : offset_added_by___schedule E = true.
Hypothesis HC : clock_discipline E.
Hypothesis HQ : queue_discipline E.
Hypothesis HS : stop_flag_discipline E.
Hypothesis HT : termination_discipline E W.
Hypothesis HO : only_timers E.
Hypothesis HA : stop_aware_wait E.
Hypothesis HU : uninterrupted_wait E.

(** One call of [next] while the timer waits for the instant [c], not
    beyond the stop time: the event is popped, the reactions of the timer
    run at [c], and the timer waits for [c + P]. *)
Lemma timer_fires (c s : instant_t) (inner : nat) (w : @world U) :
  timer_waiting t0 c s w ->
  s <= 0 \/ c <= s ->
  int64 (c + P) ->
  (S (weight W (reactions (triggers E t0))) <= inner)%nat ->
  exists w' l,
    next E inner w = Done ((if (s >? 0) && (c >=? s) then 0 else 1), w')
    /\ trace w' = trace w ++ l
    /\ map time (popped l) = [c]
    /\ (forall x, In x (reactions (triggers E t0)) -> In (AInvoke x c) l)
    /\ (forall x c', In (AInvoke x c') l -> c' = c)
    /\ (exists a, event_q (rt w') = [mk_event a (c + P) t0 NULL])
    /\ reaction_q (rt w') = []
    /\ stop_time (rt w') = s
    /\ stop_requested (rt w') = (s >? 0) && (c >=? s).
Proof.
  intros ([a Hq] & Hrq & Hsr & Hst) Hcs Hr Hin.
  set (e := mk_event a c t0 NULL) in *.
  destruct (wait_reaches E HU c w) as [Hres Hct]; [rewrite Hst; exact Hcs|].
  set (w1 := mk_world (snd (wait_until E c w)) (trace w ++ [AWait c])).
  assert (Hnext : next E inner w = run_tag E inner w1).
  { unfold next. rewrite Hq. simpl. fold w1. unfold after_wait.
    destruct (Z.ltb_spec (fst (wait_until E c w)) 0); [lia | reflexivity]. }
  assert (Hq1 : event_q (rt w1) = [e])
    by (unfold w1; simpl; rewrite (wait_event_q E HA); exact Hq).
  assert (Hrq1 : reaction_q (rt w1) = [])
    by (unfold w1; simpl; rewrite (wait_reaction_q E HU); exact Hrq).
  assert (Hsr1 : stop_requested (rt w1) = false)
    by (unfold w1; simpl; rewrite (wait_stop_flag E HS); exact Hsr).
  assert (Hst1 : stop_time (rt w1) = s)
    by (unfold w1; simpl; rewrite (wait_stop_time E HC); exact Hst).
  assert (Hct1 : current_time (rt w1) = c) by exact Hct.
  set (w2 := call AStartTimeStep (__start_time_step E) w1).
  assert (Hq2 : event_q (rt w2) = [e])
    by (unfold w2; simpl; rewrite (start_event_q E HQ); exact Hq1).
  assert (Hrq2 : reaction_q (rt w2) = [])
    by (unfold w2; simpl; rewrite (start_reaction_q E HO); exact Hrq1).
  assert (Hsr2 : stop_requested (rt w2) = false)
    by (unfold w2; simpl; rewrite (hook_stop_flag E HS); exact Hsr1).
  assert (Hk2 : clocks (rt w2) = clocks (rt w1)) by apply (start_clocks E HC w1).
  assert (Hct2 : current_time (rt w2) = c)
    by (rewrite (clocks_current_time _ _ Hk2); exact Hct1).
  assert (Hst2 : stop_time (rt w2) = s)
    by (rewrite (clocks_stop_time _ _ Hk2); exact Hst1).
  set (w3 := pop_event E e [] w2).
  assert (Hq3 : event_q (rt w3) = [mk_event (acquired_addr (rt w2)) (c + P) t0 NULL]).
  { pose proof (pop_event_reschedules E e [] w2) as H. cbv zeta in H.
    change (trigger e) with t0 in H. rewrite HP, Hoff, Hct2 in H.
    destruct (H P_positive diff_range) as [H1 _]. exact (H1 HK P_range Hr). }
  assert (Hk3 : clocks (rt w3) = clocks (rt w2)) by apply pop_event_clocks.
  assert (Hct3 : current_time (rt w3) = c)
    by (rewrite (clocks_current_time _ _ Hk3); exact Hct2).
  assert (Hst3 : stop_time (rt w3) = s)
    by (rewrite (clocks_stop_time _ _ Hk3); exact Hst2).
  assert (Hsr3 : stop_requested (rt w3) = false).
  { destruct (pop_event_rest E e [] w2) as [_ H]. fold w3 in H. congruence. }
  assert (Hperm3 : Permutation (reaction_q (rt w3)) (reactions (triggers E t0))).
  { pose proof (pop_event_reaction_q_perm E e [] w2) as H. fold w3 in H.
    rewrite Hrq2 in H. exact H. }
  assert (Hm3 : more_now (rt w3) = false).
  { unfold more_now. rewrite Hq3, Hct3. simpl. apply Z.eqb_neq. lia. }
  assert (Hdrain : drain E inner w2 = Done w3).
  { destruct inner as [|n]; [lia|]. rewrite drain_S, Hq2. fold w3.
    rewrite Hm3. reflexivity. }
  assert (Ht3 : trace w3 = trace w2 ++ [APop e; ASchedule t0 (sub64 P off) NULL]).
  { unfold w3. rewrite pop_event_trace. simpl. rewrite HP, Hoff.
    destruct (Z.gtb_spec P 0); [reflexivity | lia]. }
  destruct (invoke_reactions_ends E W HQ HT inner w3) as [w4 Hi].
  { rewrite (weight_perm W _ _ Hperm3). lia. }
  pose proof (invoke_reactions_done_empty E inner w3 w4 Hi) as Hrq4.
  pose proof (invoke_reactions_event_q HO inner w3) as Hq4.
  pose proof (invoke_reactions_stop_flag E HS inner w3) as Hsr4.
  destruct (invoke_reactions_at E HC inner w3) as [Hk4 [l2 [Hl2 F2]]].
  assert (Hr2 : extends_by reaction_action w3 (loop_world (invoke_reactions E inner w3)))
    by (apply invoke_reactions_by; simpl; auto).
  rewrite Hi in Hq4, Hsr4, Hk4, Hl2, Hr2. cbn [loop_world] in Hq4, Hsr4, Hk4, Hl2.
  destruct Hr2 as [l2' [Hl2' R2]]. cbn [loop_world] in Hl2'.
  assert (l2' = l2) by (rewrite Hl2 in Hl2'; apply app_inv_head in Hl2'; congruence).
  subst l2'. rewrite Hct3 in F2.
  set (frees := map (fun x => AFree (payload x)) (free_q (rt w4))).
  set (w5 := free_all w4).
  assert (Ht5 : trace w5 = trace w4 ++ frees) by apply free_all_trace.
  assert (Hk5 : clocks (rt w5) = clocks (rt w4)) by apply free_payloads_clocks.
  assert (Hct5 : current_time (rt w5) = c).
  { rewrite (clocks_current_time _ _ Hk5), (clocks_current_time _ _ Hk4). exact Hct3. }
  assert (Hst5 : stop_time (rt w5) = s).
  { rewrite (clocks_stop_time _ _ Hk5), (clocks_stop_time _ _ Hk4). exact Hst3. }
  assert (Hb : stop_reached (rt w5) = (s >? 0) && (c >=? s)).
  { unfold stop_reached. rewrite Hst5, Hct5. reflexivity. }
  assert (Hrun : run_tag E inner w1 = Done (check_stop w5)).
  { unfold run_tag. fold w2. rewrite Hdrain, Hi. reflexivity. }
  exists (snd (check_stop w5)).
  exists (AWait c :: AStartTimeStep :: APop e :: ASchedule t0 (sub64 P off) NULL
          :: l2 ++ frees).
  assert (Hpf : popped (l2 ++ frees) = []).
  { rewrite popped_app, (popped_reaction_actions l2 R2). apply popped_frees. }
  split; [|split; [|split; [|split; [|split; [|split; [|split; [|split]]]]]]].
  - rewrite Hnext, Hrun. unfold check_stop. rewrite Hb.
    destruct ((s >? 0) && (c >=? s)); reflexivity.
  - rewrite check_stop_trace, Ht5, Hl2, Ht3. unfold w2, w1. simpl.
    repeat rewrite <- app_assoc. reflexivity.
  - simpl. rewrite Hpf. reflexivity.
  - intros x Hx.
    assert (Hx3 : In x (reaction_q (rt w3)))
      by (apply (Permutation_in x (Permutation_sym Hperm3)); exact Hx).
    destruct (invoke_reactions_fires E HC HQ inner w3 w4 x Hi Hx3) as [l' [Hl' Hin']].
    assert (l' = l2) by (rewrite Hl2 in Hl'; apply app_inv_head in Hl'; congruence).
    subst l'. rewrite Hct3 in Hin'.
    do 4 right. apply in_or_app. left. exact Hin'.
  - intros x c' Hx. destruct Hx as [Hx|[Hx|[Hx|[Hx|Hx]]]]; try discriminate Hx.
    apply in_app_or in Hx. destruct Hx as [Hx|Hx].
    + rewrite Forall_forall in F2. exact (F2 _ Hx).
    + unfold frees in Hx. apply in_map_iff in Hx. destruct Hx as [y [Hy _]].
      discriminate Hy.
  - exists (acquired_addr (rt w2)).
    rewrite check_stop_event_q. unfold w5, free_all.
    rewrite free_payloads_event_q, Hq4. exact Hq3.
  - rewrite check_stop_reaction_q. unfold w5, free_all.
    rewrite free_payloads_reaction_q. exact Hrq4.
  - rewrite (clocks_stop_time _ _ (check_stop_clocks w5)). exact Hst5.
  - unfold check_stop. rewrite Hb.
    destruct ((s >? 0) && (c >=? s)); simpl; [reflexivity|].
    unfold w5, free_all. rewrite free_payloads_stop_flag, Hsr4. exact Hsr3.
Qed.

(** The call of [next] made while the timer waits for an instant beyond
    the stop time: nothing is popped and a stop is requested. *)
Lemma timer_stops (c s : instant_t) (inner : nat) (w : @world U) :
  timer_waiting t0 c s w ->
  0 < s -> s < c ->
  exists w',
    next E inner w = Done (0, w')
    /\ trace w' = trace w ++ [AWait c]
    /\ stop_requested (rt w') = true.
Proof.
  intros ([a Hq] & Hrq & Hsr & Hst) Hs Hc.
  set (e := mk_event a c t0 NULL) in *.
  destruct (wait_beyond E HA c w) as [Hneg Hat]; [lia | lia |].
  set (w1 := mk_world (snd (wait_until E c w)) (trace w ++ [AWait c])).
  assert (Hq1 : event_q (rt w1) = [e])
    by (unfold w1; simpl; rewrite (wait_event_q E HA); exact Hq).
  assert (Hb : stop_reached (rt w1) = true).
  { unfold stop_reached, w1. simpl. rewrite (wait_stop_time E HC), Hst.
    apply andb_true_iff. split; [apply Z.gtb_lt | apply Z.geb_le]; lia. }
  exists (on_rt (set_stop_requested true) w1).
  split; [|split; reflexivity].
  unfold next. rewrite Hq.
  change (is_null (pqueue_peek [e]) && negb (wait_specified (rt w))) with false.
  change (next_time_of (pqueue_peek [e])) with c.
  change (snd (do_wait E c w)) with w1.
  change (fst (do_wait E c w)) with (fst (wait_until E c w)).
  unfold after_wait.
  destruct (Z.ltb_spec (fst (wait_until E c w)) 0) as [_|Hge]; [|lia].
  rewrite Hb, Hq1. simpl. rewrite Z.eqb_refl. reflexivity.
Qed.

Lemma firings_snoc (c : Z) (k : nat) :
  firings c P (S k) = firings c P k ++ [c + Z.of_nat k * P].
Proof. unfold firings. rewrite seq_S, map_app. reflexivity. Qed.

(** [k] calls of [next] in the loop of [main], none of them at an instant
    at which the stop time is reached: the timer has fired at [c],
    [c + P], ..., [c + (k - 1) * P] and waits for [c + k * P]. *)
Lemma timer_fires_on (k : nat) :
  forall (c s : instant_t) (inner : nat) (w : @world U),
    timer_waiting t0 c s w ->
    int64 c -> int64 (c + Z.of_nat k * P) ->
    (forall j, (j < k)%nat -> s <= 0 \/ c + Z.of_nat j * P < s) ->
    (S (weight W (reactions (triggers E t0))) <= inner)%nat ->
    exists w' l,
      (forall m, event_loop E inner (k + m) w = event_loop E inner m w')
      /\ trace w' = trace w ++ l
      /\ map time (popped l) = firings c P k
      /\ (forall j x, (j < k)%nat -> In x (reactions (triggers E t0)) ->
                      In (AInvoke x (c + Z.of_nat j * P)) l)
      /\ (forall x c', In (AInvoke x c') l -> In c' (firings c P k))
      /\ timer_waiting t0 (c + Z.of_nat k * P) s w'.
Proof.
  induction k as [|k IH]; intros c s inner w Hw Hc Hr Hj Hin.
  - exists w, []. rewrite app_nil_r.
    replace (c + Z.of_nat 0 * P) with c by lia.
    repeat split; try reflexivity; try exact Hw.
    + intros j x Hlt. lia.
    + intros x c' [].
    + destruct Hw as (H & _). exact H.
    + destruct Hw as (_ & H & _). exact H.
    + destruct Hw as (_ & _ & H & _). exact H.
    + destruct Hw as (_ & _ & _ & H). exact H.
  - assert (Hc1 : int64 (c + P)).
    { unfold int64, LLONG_MIN, LLONG_MAX in *. nia. }
    assert (H0 : s <= 0 \/ c < s).
    { destruct (Hj 0%nat ltac:(lia)) as [H|H]; [left; exact H | right; lia]. }
    assert (Hb : (s >? 0) && (c >=? s) = false).
    { destruct (Z.gtb_spec s 0); [|reflexivity].
      destruct (Z.geb_spec c s); [lia | reflexivity]. }
    destruct (timer_fires c s inner w Hw ltac:(lia) Hc1 Hin)
      as [w1 [l1 [Hn [Ht1 [Hp1 [Hi1 [Ha1 [Hq1 [Hrq1 [Hst1 Hsr1]]]]]]]]]].
    rewrite Hb in Hn, Hsr1.
    assert (Hw1 : timer_waiting t0 (c + P) s w1) by (repeat split; assumption).
    destruct (IH (c + P) s inner w1 Hw1 Hc1) as [w' [l' [Hl [Ht' [Hp' [Hi' [Ha' Hw']]]]]]].
    + replace (c + P + Z.of_nat k * P) with (c + Z.of_nat (S k) * P) by lia. exact Hr.
    + intros j Hlt. destruct (Hj (S j) ltac:(lia)) as [H|H]; [left; exact H|].
      right. lia.
    + exact Hin.
    + exists w', (l1 ++ l'). split; [|split; [|split; [|split; [|split]]]].
      * intros m. simpl. rewrite Hn, Hsr1. simpl. apply Hl.
      * rewrite Ht', Ht1, <- app_assoc. reflexivity.
      * rewrite popped_app, map_app, Hp1, Hp', firings_S. reflexivity.
      * intros j x Hlt Hx. apply in_or_app. destruct j as [|j].
        -- left. replace (c + Z.of_nat 0 * P) with c by lia. apply Hi1. exact Hx.
        -- right.
           replace (c + Z.of_nat (S j) * P) with (c + P + Z.of_nat j * P) by lia.
           apply Hi'; [lia | exact Hx].
      * intros x c' Hx. rewrite firings_S. apply in_app_or in Hx.
        destruct Hx as [Hx|Hx]; [left; symmetry; exact (Ha1 x c' Hx)|].
        right. exact (Ha' x c' Hx).
      * replace (c + Z.of_nat (S k) * P) with (c + P + Z.of_nat k * P) by lia.
        exact Hw'.
Qed.

(** With the stop time [s] between the firing number [k] and the next
    one, the loop of [main] ends: the timer has fired at [c], [c + P],
    ..., [c + k * P], and no more. *)
Lemma timer_fires_up_to_stop (k : nat) (c s : instant_t) (inner fuel : nat)
    (w : @world U) :
  timer_waiting t0 c s w ->
  int64 c -> int64 (c + Z.of_nat (S k) * P) ->
  c + Z.of_nat k * P <= s < c + Z.of_nat (S k) * P ->
  0 < s ->
  (S (weight W (reactions (triggers E t0))) <= inner)%nat ->
  (k + 2 <= fuel)%nat ->
  exists w' l,
    event_loop E inner fuel w = Done w'
    /\ trace w' = trace w ++ l
    /\ map time (popped l) = firings c P (S k)
    /\ (forall j x, (j <= k)%nat -> In x (reactions (triggers E t0)) ->
                    In (AInvoke x (c + Z.of_nat j * P)) l)
    /\ (forall x c', In (AInvoke x c') l -> In c' (firings c P (S k)))
    /\ stop_requested (rt w') = true.
Proof.
  intros Hw Hc Hr Hks Hs Hin Hf.
  set (ck := c + Z.of_nat k * P) in *.
  assert (Hck : int64 ck).
  { unfold ck, int64, LLONG_MIN, LLONG_MAX in *. nia. }
  destruct (timer_fires_on k c s inner w Hw Hc Hck) as [wk [lk [Hl [Htk [Hpk [Hik [Hak Hwk]]]]]]].
  { intros j Hlt. right. unfold ck in Hks. nia. }
  { exact Hin. }
  assert (Hck1 : int64 (ck + P)).
  { replace (ck + P) with (c + Z.of_nat (S k) * P) by (unfold ck; lia). exact Hr. }
  destruct (timer_fires ck s inner wk Hwk ltac:(lia) Hck1 Hin)
    as [w1 [l1 [Hn [Ht1 [Hp1 [Hi1 [Ha1 [Hq1 [Hrq1 [Hst1 Hsr1]]]]]]]]]].
  assert (Hfuel : exists m, fuel = (k + S (S m))%nat) by (exists (fuel - k - 2)%nat; lia).
  destruct Hfuel as [m ->].
  assert (Hinv : forall l',
            (forall x c', In (AInvoke x c') l' -> False) ->
            (forall j x, (j <= k)%nat -> In x (reactions (triggers E t0)) ->
                         In (AInvoke x (c + Z.of_nat j * P)) (lk ++ l1 ++ l'))
            /\ (forall x c', In (AInvoke x c') (lk ++ l1 ++ l') ->
                             In c' (firings c P (S k)))).
  { intros l' Hnone. split.
    - intros j x Hle Hx. apply in_or_app.
      destruct (Nat.eq_dec j k) as [->|Hne].
      + right. apply in_or_app. left. apply Hi1. exact Hx.
      + left. apply Hik; [lia | exact Hx].
    - intros x c' Hx. rewrite firings_snoc. apply in_or_app.
      apply in_app_or in Hx. destruct Hx as [Hx|Hx]; [left; exact (Hak x c' Hx)|].
      apply in_app_or in Hx. destruct Hx as [Hx|Hx].
      + right. left. symmetry. exact (Ha1 x c' Hx).
      + exfalso. exact (Hnone x c' Hx). }
  destruct (Z.eq_dec ck s) as [Heq|Hne].
  - assert (Hb : (s >? 0) && (ck >=? s) = true).
    { apply andb_true_iff. split; [apply Z.gtb_lt | apply Z.geb_le]; lia. }
    rewrite Hb in Hn, Hsr1.
    destruct (Hinv [] ltac:(intros x c' [])) as [HA1 HA2].
    rewrite app_nil_r in HA1, HA2.
    exists w1, (lk ++ l1). split; [|split; [|split; [|split; [|split]]]].
    + rewrite Hl. simpl. rewrite Hn. reflexivity.
    + rewrite Ht1, Htk, <- app_assoc. reflexivity.
    + rewrite popped_app, map_app, Hpk, Hp1, firings_snoc. reflexivity.
    + exact HA1.
    + exact HA2.
    + exact Hsr1.
  - assert (Hb : (s >? 0) && (ck >=? s) = false).
    { destruct (Z.gtb_spec s 0); [|reflexivity].
      destruct (Z.geb_spec ck s); [lia | reflexivity]. }
    rewrite Hb in Hn, Hsr1.
    assert (Hw1 : timer_waiting t0 (ck + P) s w1) by (repeat split; assumption).
    destruct (timer_stops (ck + P) s inner w1 Hw1 Hs) as [w2 [Hn2 [Ht2 Hsr2]]].
    { unfold ck in *. lia. }
    destruct (Hinv [AWait (ck + P)]) as [HA1 HA2].
    { intros x c' [Hx|[]]. discriminate Hx. }
    exists w2, (lk ++ l1 ++ [AWait (ck + P)]).
    split; [|split; [|split; [|split; [|split]]]].
    + rewrite Hl. simpl. rewrite Hn, Hsr1. simpl. rewrite Hn2. reflexivity.
    + rewrite Ht2, Ht1, Htk. repeat rewrite <- app_assoc. reflexivity.
    + rewrite !popped_app, !map_app, Hpk, Hp1, firings_snoc. simpl.
      rewrite ?app_nil_r. reflexivity.
    + exact HA1.
    + exact HA2.
    + exact Hsr2.
Qed.

End OneTimer.


End Revised.

(** * The statements on the sample programs *)

Ltac int64_range :=
  unfold int64, LLONG_MIN, LLONG_MAX; split; apply Z.leb_le; vm_compute; reflexivity.

(** ** The sample programs are well behaved *)

Lemma fast_wait_stop_time {U : Type} (t : instant_t) (w : @world U) :
  stop_time (snd (fast_wait t w)) = stop_time (rt w).
Proof.
  unfold fast_wait. destruct ((stop_time (rt w) >? 0) && (t >? stop_time (rt w)));
    reflexivity.
Qed.

Lemma fast_wait_bounded {U : Type} (t : instant_t) (w : @world U) :
  0 < stop_time (rt w) ->
  current_time (rt w) <= stop_time (rt w) ->
  current_time (snd (fast_wait t w)) <= stop_time (rt w).
Proof.
  intros Hs Hc. unfold fast_wait.
  destruct (Z.gtb_spec (stop_time (rt w)) 0); [|lia].
  destruct (Z.gtb_spec t (stop_time (rt w))); simpl; lia.
Qed.

Lemma timer_env_clocks (adds : bool) (off per : interval_t) :
  clock_discipline (timer_env adds off per).
Proof.
  constructor.
  - intros r w. reflexivity.
  - intros r w. reflexivity.
  - intros w. reflexivity.
  - intros t w. apply (fast_wait_stop_time t w).
  - intros t w. apply (fast_wait_bounded t w).
Qed.

Lemma timer_env_queues (adds : bool) (off per : interval_t) :
  queue_discipline (timer_env adds off per).
Proof.
  constructor.
  - intros r w. reflexivity.
  - intros r w x H. exact H.
  - intro w. reflexivity.
Qed.

Lemma timer_env_terminates :
  termination_discipline (timer_env false 0 50) (fun _ => 1%nat).
Proof.
  constructor.
  - intros t _. vm_compute. discriminate.
  - intros r. apply le_n.
  - intros r w. simpl. lia.
Qed.

Lemma timer_env_stop_aware (adds : bool) (off per : interval_t) :
  stop_aware_wait (timer_env adds off per).
Proof.
  constructor.
  - intros t w. simpl. unfold fast_wait.
    destruct ((stop_time (rt w) >? 0) && (t >? stop_time (rt w))); reflexivity.
  - intros t w Hs Ht. simpl. unfold fast_wait.
    destruct (Z.gtb_spec (stop_time (rt w)) 0); [|lia].
    destruct (Z.gtb_spec t (stop_time (rt w))); [|lia].
    simpl. lia.
Qed.

Lemma timer_env_uninterrupted (adds : bool) (off per : interval_t) :
  uninterrupted_wait (timer_env adds off per).
Proof.
  constructor.
  - intros t w. simpl. unfold fast_wait.
    destruct ((stop_time (rt w) >? 0) && (t >? stop_time (rt w))); reflexivity.
  - intros t w H. simpl. unfold fast_wait.
    destruct (Z.gtb_spec (stop_time (rt w)) 0); simpl; [|lia].
    destruct (Z.gtb_spec t (stop_time (rt w))); simpl; lia.
Qed.

Lemma timer_env_only_timers (adds : bool) (off per : interval_t) :
  only_timers (timer_env adds off per).
Proof.
  constructor.
  - intros r w. reflexivity.
  - intros r w. reflexivity.
  - intros w. reflexivity.
Qed.

Lemma timer_env_stop_flag (adds : bool) (off per : interval_t) :
  stop_flag_discipline (timer_env adds off per).
Proof.
  constructor.
  - intros r w. reflexivity.
  - intros r w. reflexivity.
  - intros w. reflexivity.
  - intros t w. simpl. unfold fast_wait.
    destruct ((stop_time (rt w) >? 0) && (t >? stop_time (rt w))); reflexivity.
Qed.

Lemma timer_env_terminates_adding :
  termination_discipline (timer_env true 10 50) (fun _ => 1%nat).
Proof.
  constructor.
  - intros t _. vm_compute. discriminate.
  - intros r. apply le_n.
  - intros r w. simpl. lia.
Qed.

(** ** Scheduling *)

(** C1 fails as stated: with no offset and an extra delay of -5 at logical
    time 100, the event is stamped 95, before the current time. *)
Lemma schedule_negative_delay_in_the_past :
  ~ (forall (E : @env (list Z)) t d p r,
       d < 0 ->
       forall e, In e (event_q (snd (schedule E t d p r))) ->
                 In e (event_q r) \/ current_time r <= time e).
Proof.
  intros H.
  specialize (H (timer_env false 0 0) 0%nat (-5) NULL
                (runtime_at [] 100 0 false []) ltac:(lia)
                (mk_event 1000 95 0%nat NULL) ltac:(left; reflexivity)).
  simpl in H. destruct H as [[]|H]. lia.
Qed.

Lemma schedule_applies_net_delay_witness :
  let E := timer_env false 0 0 in
  let r := runtime_at [] 100 0 false [] in
  int64 (offset (triggers E 0%nat) + -5)
  /\ int64 (schedule_net_delay E 0%nat (-5))
  /\ int64 (current_time r + schedule_net_delay E 0%nat (-5))
  /\ event_q (snd (schedule E 0%nat (-5) NULL r)) = [mk_event 1000 95 0%nat NULL]
  /\ (schedule_net_delay E 0%nat (-5) < 0 <-> 95 < 100).
Proof.
  intros E r.
  assert (H1 : int64 (offset (triggers E 0%nat) + -5)) by int64_range.
  assert (H2 : int64 (schedule_net_delay E 0%nat (-5))) by int64_range.
  assert (H3 : int64 (current_time r + schedule_net_delay E 0%nat (-5))) by int64_range.
  pose proof (schedule_applies_net_delay E 0%nat (-5) NULL r H1 H2 H3) as [Ha [_ Hb]].
  exact (conj H1 (conj H2 (conj H3 (conj Ha Hb)))).
Defined.



(** A trigger with offset 10 scheduled with an extra delay of 5 at logical
    time 100, when [__schedule] adds the offset: the event is stamped 125,
    not 115. *)
Lemma schedule_firing_tag_witness :
  let E := timer_env true 10 0 in
  let r := runtime_at [] 100 0 false [] in
  offset_added_by___schedule E = true
  /\ int64 (offset (triggers E 0%nat) + 5)
  /\ int64 (schedule_net_delay E 0%nat 5)
  /\ int64 (current_time r + schedule_net_delay E 0%nat 5)
  /\ event_q (snd (schedule E 0%nat 5 NULL r)) = [mk_event 1000 125 0%nat NULL]
  /\ 125 = 100 + 10 + 5 + 10
  /\ (125 = 100 + 10 + 5 <-> 10 = 0).
Proof.
  intros E r.
  assert (H1 : int64 (offset (triggers E 0%nat) + 5)) by int64_range.
  assert (H2 : int64 (schedule_net_delay E 0%nat 5)) by int64_range.
  assert (H3 : int64 (current_time r + schedule_net_delay E 0%nat 5)) by int64_range.
  destruct (schedule_firing_tag E 0%nat 5 NULL r H1 H2 H3) as [Hq [_ [_ [Hk _]]]].
  destruct (Hk eq_refl) as [Ha Hb].
  exact (conj eq_refl (conj H1 (conj H2 (conj H3 (conj Hq (conj Ha Hb)))))).
Defined.

(** ** Deadlines *)

(** Scenario S4: a deadline of 1 ms at logical time 100 ms, the physical
    clock at 200 ms. *)
Lemma deadline_policy_witness :
  let E := deadline_env in
  let w := world_at [] 100000000 0 false [] in
  0 < deadline (reaction_tbl E 0%nat)
  /\ int64 (current_time (rt w) + deadline (reaction_tbl E 0%nat))
  /\ exists l c',
       trace (run_reaction E 0%nat w) =
         trace w ++ AClock (mk_timespec 0 200000000) :: l
                 ++ [AInvoke 0%nat c'; AOutputs 0%nat]
       /\ invocations_of [1%nat] l.
Proof.
  intros E w.
  assert (H1 : 0 < deadline (reaction_tbl E 0%nat)) by reflexivity.
  assert (H2 : int64 (current_time (rt w) + deadline (reaction_tbl E 0%nat)))
    by int64_range.
  destruct (deadline_policy E 0%nat w H1 H2) as [Hv _].
  exact (conj H1 (conj H2 (Hv 1%nat eq_refl eq_refl))).
Defined.

(** ** Return values and the empty queue *)

(** Scenario S6: no event and no [-wait]. *)
Lemma next_return_values_witness :
  let E := timer_env false 0 0 in
  let w := world_at [] 0 0 false [] in
  event_q (rt w) = [] /\ wait_specified (rt w) = false
  /\ next E 3 w = Done (0, w).
Proof.
  intros E w.
  destruct (next_return_values E 3 w) as [_ [H _]].
  exact (conj eq_refl (conj eq_refl (H eq_refl eq_refl))).
Defined.

(** No event, [-wait], and a wait that does not block. *)
Lemma next_pops_empty_queue_witness :
  let E := timer_env false 0 0 in
  let w := world_at [] 0 0 true [] in
  event_q (rt w) = []
  /\ wait_specified (rt w) = true
  /\ 0 <= fst (wait_until E LLONG_MAX w)
  /\ event_q (snd (wait_until E LLONG_MAX w)) = []
  /\ keeps event_q (__start_time_step E)
  /\ exists x,
       next E 1 w = Fault x
       /\ event_q (rt x) = []
       /\ trace x = trace w ++ [AWait LLONG_MAX; AStartTimeStep].
Proof.
  intros E w.
  assert (H3 : 0 <= fst (wait_until E LLONG_MAX w)) by (apply Z.leb_le; reflexivity).
  assert (H5 : keeps event_q (__start_time_step E)) by (intros x; reflexivity).
  exact (conj eq_refl (conj eq_refl (conj H3 (conj eq_refl (conj H5
           (next_pops_empty_queue E O w eq_refl eq_refl H3 eq_refl H5)))))).
Defined.

(** ** An interrupted wait *)

(** C7 fails as stated.  First program: the wait for the event stamped 100
    is interrupted at instant 40, the head of the queue is unchanged and no
    stop time is set.  Second program: the wait is interrupted at instant
    40 by a new event stamped 60.  In both [next] calls [wait_until] once,
    then pops the head of the queue and invokes its reaction at logical
    time 40, before the instant of the event. *)
Lemma interrupted_wait_is_not_repeated :
  let e100 := mk_event 1 100 0%nat NULL in
  let e60 := mk_event 2 60 0%nat NULL in
  let Eb := with_wait (interrupted_wait 40) (timer_env false 0 0) in
  let Ea := with_wait (async_wait 40 e60) (timer_env false 0 0) in
  let w := world_at [] 0 0 false [e100] in
  (fst (wait_until Eb 100 w) < 0
   /\ match next Eb 5 w with
      | Done (r, w') =>
        r = 1
        /\ trace w' = [AWait 100; AStartTimeStep; APop e100;
                       AInvoke 0%nat 40; AOutputs 0%nat]
        /\ current_time (rt w') < time e100
      | _ => False
      end)
  /\ (fst (wait_until Ea 100 w) < 0
      /\ match next Ea 5 w with
         | Done (r, w') =>
           r = 1
           /\ trace w' = [AWait 100; AStartTimeStep; APop e60;
                          AInvoke 0%nat 40; AOutputs 0%nat]
           /\ current_time (rt w') < time e60
         | _ => False
         end).
Proof.
  vm_compute. repeat split.
Qed.

Lemma interrupted_wait_handling_witness :
  let e100 := mk_event 1 100 0%nat NULL in
  let e60 := mk_event 2 60 0%nat NULL in
  let E := with_wait (async_wait 40 e60) (timer_env false 0 0) in
  let w := world_at [] 0 0 false [e100] in
  is_null (pqueue_peek (event_q (rt w))) && negb (wait_specified (rt w)) = false
  /\ fst (wait_until E 100 w) < 0
  /\ exists l, trace (world_of (next E 5 w)) = trace w ++ AWait 100 :: l
               /\ Forall tag_action l.
Proof.
  intros e100 e60 E w.
  assert (H1 : is_null (pqueue_peek (event_q (rt w)))
               && negb (wait_specified (rt w)) = false) by reflexivity.
  assert (H2 : fst (wait_until E (next_time_of (pqueue_peek (event_q (rt w)))) w) < 0)
    by reflexivity.
  destruct (interrupted_wait_handling E 5 w H1 H2) as [_ Hc].
  destruct (Hc e60 eq_refl eq_refl) as [_ Hl].
  exact (conj H1 (conj H2 Hl)).
Defined.

(** ** Payloads *)


(** ** Stop time *)





(** ** Periodic triggers *)




(** ** The program *)

(** A command line that [process_args] rejects; scenario S6, where the
    first call of [next] returns 0; and scenario S1. *)
Lemma main_exit_code_witness :
  let E := timer_env false 0 50 in
  let w := world_at [] 0 100 false [] in
  let w0 := world_at [] 0 0 false [] in
  let w3 := mk_world (rt w0) [AProcessArgs; AInitialize; AStartTimers] in
  (fst (process_args (with_bad_args E) 0 [] w) = 0
   /\ main (with_bad_args E) 8 8 0 [] w =
        Done (-1, mk_world (rt w) [AProcessArgs]))
  /\ (fst (process_args idle_env 0 [] w0) <> 0
      /\ ends_after idle_env 8 w3 1 w3
      /\ main idle_env 8 8 0 [] w0 = Done (0, wrapup idle_env w3)
      /\ trace (wrapup idle_env w3) =
           [AProcessArgs; AInitialize; AStartTimers;
            APrintf "Elapsed logical time (in nsec): %lld\n" 0;
            AClock (mk_timespec 0 0);
            APrintf "Elapsed physical time (in nsec): %lld\n" 0])
  /\ (fst (process_args E 0 [] w) <> 0
      /\ match main E 8 8 0 [] w with
         | Done (r, w') =>
           r = 0 /\ invoked (trace w') = [0%nat; 0%nat; 0%nat]
         | _ => False
         end).
Proof.
  intros E w w0 w3. split; [|split].
  - destruct (main_exit_code (with_bad_args E) 8 8 0 [] w) as [H _].
    exact (conj eq_refl (H eq_refl)).
  - assert (H1 : fst (process_args idle_env 0 [] w0) <> 0) by discriminate.
    assert (H2 : ends_after idle_env 8 w3 1 w3).
    { apply (ends_now idle_env 8 w3 0 w3); [reflexivity | left; reflexivity]. }
    destruct (main_exit_code idle_env 8 8 0 [] w0) as [_ H].
    destruct (H H1) as [_ [Hd _]].
    exact (conj H1 (conj H2 (conj (Hd 1%nat w3 H2 ltac:(lia)) eq_refl))).
  - assert (H1 : fst (process_args E 0 [] w) <> 0) by discriminate.
    split; [exact H1|].
    destruct (main_exit_code E 8 8 0 [] w) as [_ H].
    destruct (H H1) as [_ [_ Hr]].
    destruct (main E 8 8 0 [] w) as [[r w']|x|x] eqn:Hm.
    + split; [exact (proj1 (Hr r w' eq_refl))|].
      vm_compute in Hm. inversion Hm. reflexivity.
    + vm_compute in Hm. discriminate Hm.
    + vm_compute in Hm. discriminate Hm.
Defined.



(** ** Scenarios of the specification *)

(** S1: a timer with offset 0 and period 50, stopped at 100, fires at 0, 50
    and 100. *)
Example timer_fires_until_stop :
  match main (timer_env false 0 50) 8 8 0 [] (world_at [] 0 100 false []) with
  | Done (r, w') => r = 0 /\ user (rt w') = [0; 50; 100]
  | _ => False
  end.
Proof. vm_compute. split; reflexivity. Qed.

(** S2: reaction 0 runs at instant 10 and schedules trigger 1 with no
    delay; the following call of [next] waits for instant 10 and runs
    reaction 1 at instant 10. *)
Example superdense_chain :
  match next chain_env 5 (world_at [] 0 0 false [mk_event 1 10 0%nat NULL]) with
  | Done (r1, w1) =>
    r1 = 1 /\ user (rt w1) = [10] /\ map time (event_q (rt w1)) = [10]
    /\ match next chain_env 5 (mk_world (rt w1) []) with
       | Done (r2, w2) =>
         r2 = 1 /\ user (rt w2) = [10; 10]
         /\ trace w2 = [AWait 10; AStartTimeStep;
                        APop (mk_event 1 10 1%nat NULL);
                        AInvoke 1%nat 10; AOutputs 1%nat]
       | _ => False
       end
  | _ => False
  end.
Proof. vm_compute. repeat split. Qed.

(** S3: two reactions triggered by the same event run in the order of
    their indices, the one of index 2 before the one of index 5. *)
Example reactions_run_by_index :
  match next two_reactions_env 5 (world_at [] 0 0 false [mk_event 1 20 0%nat NULL]) with
  | Done (_, w') => invoked (trace w') = [1%nat; 0%nat]
  | _ => False
  end.
Proof. vm_compute. reflexivity. Qed.

(** With offset 10 and period 50 the firings are 50 apart when
    [__schedule] adds the offset, and 40 apart when it does not. *)
Example timer_with_offset :
  match main (timer_env true 10 50) 8 8 0 [] (world_at [] 0 120 false []) with
  | Done (_, w') => user (rt w') = [10; 60; 110]
  | _ => False
  end
  /\ match main (timer_env false 10 50) 8 8 0 [] (world_at [] 0 120 false []) with
     | Done (_, w') => user (rt w') = [10; 50; 90]
     | _ => False
     end.
Proof. vm_compute. split; reflexivity. Qed.

(** ** The timer program, step by step *)

Section TimerRuns.

Variables off per : interval_t.
Hypothesis per_positive : 0 < per.
Hypothesis per_range : int64 per.
Hypothesis diff_range : int64 (per - off).

Lemma instants_S (k : nat) :
  instants off per (S k) = instants off per k ++ [off + Z.of_nat k * per].
Proof. unfold instants. rewrite seq_S, map_app. reflexivity. Qed.

(** One call of [next] on the timer program when [__schedule] adds the
    offset: the reaction runs at the instant of the event and the next
    event is one period later. *)
Lemma timer_step (i n : nat) (w : @world (list Z)) :
  int64 (off + Z.of_nat (S i) * per) ->
  ticking off per i w ->
  exists w',
    next (timer_env true off per) (S n) w = Done (1, w')
    /\ ticking off per (S i) w'.
Proof.
  intros Hr (H1 & H2 & H3 & H4 & [a H5] & H6).
  set (E := timer_env true off per).
  set (t := off + Z.of_nat i * per) in *.
  set (e := mk_event a t 0%nat NULL) in *.
  set (w1 := mk_world (set_current_time t (rt w)) (trace w ++ [AWait t])).
  set (w2 := call AStartTimeStep (__start_time_step E) w1).
  set (w3 := pop_event E e [] w2).
  assert (Hnext : next E (S n) w = run_tag E (S n) w1).
  { unfold next. rewrite H5.
    change (next_time_of (pqueue_peek [e])) with t.
    change (is_null (pqueue_peek [e])) with false.
    unfold do_wait, after_wait.
    change (wait_until E t w) with (fast_wait t w).
    unfold fast_wait. rewrite H1. reflexivity. }
  assert (Ht' : t + per = off + Z.of_nat (S i) * per) by (unfold t; lia).
  assert (Hq3 : event_q (rt w3) = [mk_event (acquired_addr (rt w)) (t + per) 0%nat NULL]).
  { destruct (pop_event_reschedules E e [] w2 per_positive diff_range) as [H _].
    apply H; try assumption; try reflexivity.
    change (int64 (t + per)). rewrite Ht'. exact Hr. }
  assert (Hc3 : current_time (rt w3) = t)
    by (apply (clocks_current_time _ _ (pop_event_clocks E e [] w2))).
  assert (Hs3 : stop_time (rt w3) = 0).
  { unfold w3. rewrite (clocks_stop_time _ _ (pop_event_clocks E e [] w2)).
    exact H1. }
  assert (Hm3 : more_now (rt w3) = false).
  { unfold more_now. rewrite Hq3, Hc3. simpl. apply Z.eqb_neq. lia. }
  assert (Hr3 : reaction_q (rt w3) = [0%nat]).
  { unfold w3. rewrite pop_event_reaction_q_eq.
    change (reactions (triggers E (trigger e))) with [0%nat].
    unfold insert_reactions. simpl. rewrite H3. reflexivity. }
  assert (Hf3 : free_q (rt w3) = []).
  { unfold w3. rewrite pop_event_free_q. exact H4. }
  destruct (pop_event_rest E e [] w2) as [Hu3 Hsr3]. fold w3 in Hu3, Hsr3.
  assert (Hdrain : drain E (S n) w2 = Done w3).
  { rewrite drain_S. change (event_q (rt w2)) with (event_q (rt w)).
    rewrite H5. fold w3. rewrite Hm3. reflexivity. }
  set (w4 := run_reaction E 0%nat (on_rt (set_reaction_q []) w3)).
  assert (Hinv : invoke_reactions E (S n) w3 = Done w4).
  { rewrite (invoke_reactions_S E n w3 0%nat [] Hr3). fold w4.
    apply invoke_reactions_nil. reflexivity. }
  assert (Hfree : free_all w4 = w4).
  { unfold free_all. change (free_q (rt w4)) with (free_q (rt w3)).
    rewrite Hf3. reflexivity. }
  assert (Hstop : check_stop w4 = (1, w4)).
  { unfold check_stop, stop_reached.
    change (stop_time (rt w4)) with (stop_time (rt w3)). rewrite Hs3. reflexivity. }
  exists w4. split.
  - rewrite Hnext. unfold run_tag. fold w2. rewrite Hdrain, Hinv, Hfree, Hstop.
    reflexivity.
  - unfold ticking.
    change (stop_time (rt w4)) with (stop_time (rt w3)).
    change (stop_requested (rt w4)) with (stop_requested (rt w3)).
    change (free_q (rt w4)) with (free_q (rt w3)).
    change (event_q (rt w4)) with (event_q (rt w3)).
    change (reaction_q (rt w4)) with (@nil reaction_id).
    change (user (rt w4)) with (user (rt w3) ++ [current_time (rt w3)]).
    rewrite Hs3, Hsr3, Hf3, Hq3, Hu3, Hc3, <- Ht', instants_S.
    repeat split; try assumption; try reflexivity.
    + eexists. reflexivity.
    + change (user (rt w2)) with (user (rt w)). rewrite H6. reflexivity.
Qed.

(** [k] calls of [next] in the loop of [main]: the reaction has run at the
    instants [off + i * per], ..., [off + (i + k - 1) * per]. *)
Lemma timer_steps (n k i : nat) (w : @world (list Z)) :
  int64 (off + Z.of_nat (i + k) * per) ->
  ticking off per i w ->
  exists w',
    event_loop (timer_env true off per) (S n) k w = Timeout w'
    /\ ticking off per (i + k) w'.
Proof.
  revert i w. induction k as [|k IH]; intros i w Hr Hw.
  - exists w. split; [reflexivity|]. now rewrite Nat.add_0_r.
  - assert (Hi : int64 (off + Z.of_nat (S i) * per)).
    { unfold int64, LLONG_MIN, LLONG_MAX in *.
      destruct Hw as (_ & _ & _ & _ & _ & _).
      assert (0 <= Z.of_nat i) by lia. assert (0 <= Z.of_nat k) by lia.
      replace (Z.of_nat (i + S k)) with (Z.of_nat (S i) + Z.of_nat k) in Hr by lia.
      unfold int64, LLONG_MIN, LLONG_MAX in per_range, diff_range. nia. }
    destruct (timer_step i n w Hi Hw) as [w1 [Hn Hw1]].
    replace (i + S k)%nat with (S i + k)%nat in * by lia.
    destruct (IH (S i) w1 Hr Hw1) as [w' [Hl Hw']].
    exists w'. split; [|exact Hw'].
    simpl. rewrite Hn.
    destruct Hw1 as (_ & Hsr & _). rewrite Hsr. simpl. exact Hl.
Qed.

End TimerRuns.

(** The timer program, started by [main]: with [__schedule] adding the
    offset, the first [k] firings are at [off], [off + per], ...,
    [off + (k - 1) * per]. *)
Lemma timer_firing_instants (off per : interval_t) (n k : nat) :
  0 < per -> int64 per -> int64 (per - off) -> int64 off ->
  int64 (off + Z.of_nat k * per) ->
  exists w',
    event_loop (timer_env true off per) (S n) k
      (call AStartTimers (__start_timers (timer_env true off per))
         (world_at [] 0 0 false [])) = Timeout w'
    /\ user (rt w') = instants off per k.
Proof.
  intros Hp Hp64 Hd Ho Hk.
  destruct (timer_steps off per Hp Hp64 Hd n k 0
              (call AStartTimers (__start_timers (timer_env true off per))
                 (world_at [] 0 0 false []))) as [w' [Hl Hw']].
  - exact Hk.
  - assert (Hs : add64 0 (add64 off 0) = off + Z.of_nat 0 * per).
    { unfold add64. rewrite Z.add_0_r, (wrap64_id off Ho). simpl.
      rewrite (wrap64_id off Ho). lia. }
    unfold ticking. repeat split; try reflexivity.
    exists 1000. rewrite <- Hs. reflexivity.
  - exists w'. split; [exact Hl|].
    destruct Hw' as (_ & _ & _ & _ & _ & Hu). exact Hu.
Qed.

(** * The further properties on the sample programs *)

Lemma signal_wait_clocks :
  clock_discipline (with_wait signal_wait (timer_env false 0 0)).
Proof.
  constructor.
  - intros r w. reflexivity.
  - intros r w. reflexivity.
  - intros w. reflexivity.
  - intros t w. reflexivity.
  - intros t w _ H. exact H.
Qed.

Lemma pipeline_env_indices : index_discipline pipeline_env.
Proof.
  constructor.
  - intros r w. reflexivity.
  - intros w. reflexivity.
  - intros r w Hs Hf. destruct r as [|r]; [|split; assumption].
    split.
    + unfold by_index in *. simpl.
      apply (pqueue_insert_sorted (fun x => Z.of_nat x) 1%nat). exact Hs.
    + unfold from_index in *. simpl. apply Forall_forall. intros x _.
      unfold reaction_index. simpl. lia.
Qed.

(** ** The time conversion and the end of the program *)

Lemma physical_instant_keeps_order_witness :
  let a := mk_timespec 1 999999999 in
  let b := mk_timespec 2 0 in
  normalised a /\ normalised b
  /\ physical_instant a = 1999999999
  /\ (not_later a b <-> physical_instant a <= physical_instant b).
Proof.
  intros a b.
  assert (Ha : normalised a) by (unfold normalised, BILLION; simpl; lia).
  assert (Hb : normalised b) by (unfold normalised, BILLION; simpl; lia).
  destruct (physical_instant_keeps_order a b Ha Hb) as [H1 [H2 _]].
  exact (conj Ha (conj Hb (conj H1 H2))).
Defined.

(** A program started at 10.5 s that ends at logical time 10.6 s, the
    physical clock at 12.25 s. *)
Lemma wrapup_elapsed_times_witness :
  let E := with_clock (fun _ => mk_timespec 12 250000000) (timer_env false 0 0) in
  let w := mk_world (started_at (mk_timespec 10 500000000)
                       (runtime_at [] 10600000000 0 false [])) [] in
  normalised (physicalStartTime (rt w))
  /\ normalised (mk_timespec 12 250000000)
  /\ 0 <= current_time (rt w) <= LLONG_MAX
  /\ trace (wrapup E w) =
       [APrintf "Elapsed logical time (in nsec): %lld\n" 100000000;
        AClock (mk_timespec 12 250000000);
        APrintf "Elapsed physical time (in nsec): %lld\n" 1750000000].
Proof.
  intros E w.
  assert (Hs : normalised (physicalStartTime (rt w)))
    by (unfold normalised, BILLION; simpl; lia).
  assert (Hn : normalised (mk_timespec 12 250000000))
    by (unfold normalised, BILLION; simpl; lia).
  assert (Hc : 0 <= current_time (rt w) <= LLONG_MAX)
    by (unfold LLONG_MAX; simpl; lia).
  destruct (wrapup_elapsed_times E w Hs Hn Hc) as [_ [Ht _]].
  exact (conj Hs (conj Hn (conj Hc Ht))).
Defined.

(** ** The [do] loop *)

(** At logical time 100: two events stamped 100 and one stamped 200. *)
Lemma drain_takes_simultaneous_events_witness :
  let E := timer_env false 0 0 in
  let w := world_at [] 100 0 false
             [mk_event 1 100 0%nat NULL; mk_event 2 100 0%nat NULL;
              mk_event 3 200 0%nat NULL] in
  match drain E 5 w with
  | Done w' =>
    exists e l,
      pqueue_peek (event_q (rt w)) = Some e
      /\ trace w' = trace w ++ APop e :: l
      /\ Forall (fun y => time y = current_time (rt w)) (popped l)
      /\ current_time (rt w') = current_time (rt w)
      /\ forall y, pqueue_peek (event_q (rt w')) = Some y ->
                   time y <> current_time (rt w)
  | _ => False
  end.
Proof.
  intros E w.
  destruct (drain E 5 w) as [w'|x|x] eqn:Hd.
  - exact (drain_takes_simultaneous_events E 5 w w' Hd).
  - vm_compute in Hd. discriminate Hd.
  - vm_compute in Hd. discriminate Hd.
Defined.

(** Two events of one trigger at the same instant: its reaction is queued
    twice, and run twice. *)
Example simultaneous_events_run_a_reaction_twice :
  let E := timer_env false 0 0 in
  let w := world_at [] 100 0 false
             [mk_event 1 100 0%nat NULL; mk_event 2 100 0%nat NULL] in
  reaction_q (rt (loop_world (drain E 5 w))) = [0%nat; 0%nat]
  /\ invoked (trace (world_of (run_tag E 5 w))) = [0%nat; 0%nat].
Proof. split; reflexivity. Qed.

(** Two events of trigger 0 at the same instant, with the payloads 77 and
    78. *)
Lemma last_popped_payload_is_delivered_witness :
  let E := timer_env false 0 0 in
  let e1 := mk_event 1 100 0%nat 77 in
  let e2 := mk_event 2 100 0%nat 78 in
  let w := world_at [] 100 0 false [e1; e2] in
  exists l,
    trace (loop_world (drain E 5 w)) = trace w ++ l
    /\ popped l = [e1] ++ e2 :: []
    /\ trigger_payload (rt (loop_world (drain E 5 w))) 0%nat = 78.
Proof.
  intros E e1 e2 w.
  destruct (last_popped_payload_is_delivered E 5 w) as [l [Hl [H _]]].
  assert (Hp : popped l = [e1] ++ e2 :: []).
  { assert (Ht : trace w ++ l = trace w ++ [APop e1; APop e2])
      by (rewrite <- Hl; reflexivity).
    apply app_inv_head in Ht. rewrite Ht. reflexivity. }
  exists l. split; [exact Hl|]. split; [exact Hp|].
  exact (H [e1] e2 [] Hp (Forall_nil _)).
Defined.

(** ** Reactions *)

(** Three events at the current instant. *)
Lemma popped_events_fire_witness :
  let E := timer_env false 0 0 in
  let w := world_at [] 0 0 false
             [mk_event 1 0 0%nat 77; mk_event 2 0 0%nat NULL; mk_event 3 0 0%nat 78] in
  clock_discipline E /\ queue_discipline E
  /\ match run_tag E 5 w with
     | Done (_, w') =>
       exists l,
         trace w' = trace w ++ l
         /\ (forall e x,
               In e (popped l) -> In x (reactions (triggers E (trigger e))) ->
               In (AInvoke x (current_time (rt w))) l)
         /\ reaction_q (rt w') = []
     | _ => False
     end.
Proof.
  intros E w.
  pose proof (timer_env_clocks false 0 0) as HC.
  pose proof (timer_env_queues false 0 0) as HQ.
  split; [exact HC|]. split; [exact HQ|].
  destruct (run_tag E 5 w) as [[res w']|x|x] eqn:Hrun.
  - exact (popped_events_fire E 5 w res w' HC HQ Hrun).
  - vm_compute in Hrun. discriminate Hrun.
  - vm_compute in Hrun. discriminate Hrun.
Defined.

(** The trigger lists reaction 2 before reaction 0, and reaction 0
    triggers reaction 1: they run in the order 0, 1, 2. *)
Lemma reactions_run_in_index_order_witness :
  let E := pipeline_env in
  let w := world_at [] 0 0 false [mk_event 1 0 0%nat NULL] in
  index_discipline E
  /\ by_index E (reaction_q (rt w))
  /\ propagated (trace (world_of (run_tag E 5 w))) = [0%nat; 1%nat; 2%nat]
  /\ exists l,
       trace (world_of (run_tag E 5 w)) = trace w ++ l
       /\ StronglySorted Z.le (map (reaction_index E) (propagated l)).
Proof.
  intros E w.
  assert (Hs : by_index E (reaction_q (rt w))) by constructor.
  exact (conj pipeline_env_indices
           (conj Hs (conj eq_refl
              (reactions_run_in_index_order E 5 w pipeline_env_indices Hs)))).
Defined.

(** Scenario S4 once more: one reaction with a deadline is run, and its
    violation handler; the clock is read once.  In the timer program,
    which has no deadline, it is not read. *)
Lemma clock_read_once_per_deadline_witness :
  let E := deadline_env in
  let w := world_at [] 100000000 0 false [mk_event 1 100000000 0%nat NULL] in
  let E' := timer_env false 0 0 in
  readings (trace (world_of (next E 5 w))) = [mk_timespec 0 200000000]
  /\ (forall r, deadline (reaction_tbl E' r) <= 0)
  /\ exists l,
       trace (world_of (next E' 5 w)) = trace w ++ l /\ readings l = [].
Proof.
  intros E w E'.
  assert (Hd : forall r, deadline (reaction_tbl E' r) <= 0) by (intros r; simpl; lia).
  destruct (clock_read_once_per_deadline E' 5 w) as [l [Hl [_ H]]].
  exact (conj eq_refl (conj Hd (ex_intro _ l (conj Hl (H Hd))))).
Defined.

(** ** The wait *)

(** The wait for the event stamped 100 is interrupted at once, at logical
    time 0, with the queue unchanged and no stop time: the event is popped
    and its reaction runs at logical time 0. *)
Lemma interrupted_wait_with_unchanged_head_witness :
  let E := with_wait signal_wait (timer_env false 0 0) in
  let e := mk_event 1 100 0%nat NULL in
  let w := world_at [] 0 0 false [e] in
  let w1 := mk_world (snd (wait_until E (time e) w)) (trace w ++ [AWait (time e)]) in
  event_q (rt w) = [e]
  /\ fst (wait_until E (time e) w) < 0
  /\ event_q (rt w1) = [e]
  /\ stop_reached (rt w1) = false
  /\ next E 5 w = run_tag E 5 w1
  /\ (exists l,
        trace (world_of (next E 6 w)) =
          trace w ++ AWait 100 :: AStartTimeStep :: APop e :: l)
  /\ (exists l,
        trace (world_of (next E 5 w)) = trace w ++ AWait 100 :: l
        /\ forall x c, In (AInvoke x c) l -> c = 0)
  /\ invoked (trace (world_of (next E 5 w))) = [0%nat].
Proof.
  intros E e w w1.
  assert (H2 : fst (wait_until E (time e) w) < 0) by reflexivity.
  destruct (interrupted_wait_with_unchanged_head E 5 w e e [] [] eq_refl H2
              eq_refl eq_refl eq_refl) as [Ha [Hb Hc]].
  exact (conj eq_refl (conj H2 (conj eq_refl (conj eq_refl (conj Ha
           (conj (Hb (fun x => eq_refl)) (conj (Hc signal_wait_clocks) eq_refl))))))).
Defined.

(** The timer program at logical time 50 with an event stamped 100. *)
Lemma step_runs_at_one_instant_witness :
  let E := timer_env false 0 50 in
  let w := world_at [] 50 0 false [mk_event 1 100 0%nat NULL] in
  clock_discipline E
  /\ current_time (rt (world_of (next E 5 w))) = 100
  /\ exists l,
       trace (world_of (next E 5 w)) = trace w ++ AWait 100 :: l
       /\ forall x c', In (AInvoke x c') l -> c' = 100.
Proof.
  intros E w.
  pose proof (timer_env_clocks false 0 50) as HC.
  exact (conj HC (step_runs_at_one_instant E 5 w HC eq_refl)).
Defined.

(** No event, [-wait], and a wait that does not block; then one event. *)
Lemma null_event_only_on_empty_queue_witness :
  let E := timer_env false 0 0 in
  let w := world_at [] 0 0 true [] in
  let e := mk_event 1 100 0%nat NULL in
  let w' := world_at [] 0 0 true [e] in
  (match next E 1 w with
   | Fault x =>
     event_q (rt x) = []
     /\ (trace x = trace w ++ [AWait LLONG_MAX]
         \/ trace x = trace w ++ [AWait LLONG_MAX; AStartTimeStep])
   | _ => False
   end)
  /\ event_q (rt w') = [e]
  /\ event_q (snd (wait_until E (time e) w')) = [e]
  /\ keeps event_q (__start_time_step E)
  /\ forall x, next E 5 w' <> Fault x.
Proof.
  intros E w e w'.
  destruct (null_event_only_on_empty_queue E) as [H1 H2].
  assert (Hk : keeps event_q (__start_time_step E)) by (intros x; reflexivity).
  split; [|exact (conj eq_refl (conj eq_refl (conj Hk
                    (H2 5%nat w' e [] e [] eq_refl eq_refl Hk))))].
  destruct (next E 1 w) as [[r y]|x|x] eqn:Hn.
  - vm_compute in Hn. discriminate Hn.
  - exact (H1 1%nat w x Hn).
  - vm_compute in Hn. discriminate Hn.
Defined.

(** The timer program at logical time 0 with an event stamped 50 and no
    stop time. *)
Lemma next_returns_one_after_a_pop_witness :
  let E := timer_env false 0 50 in
  let w := world_at [] 0 0 false [mk_event 1 50 0%nat NULL] in
  match next E 5 w with
  | Done (r, w') =>
    r = 1
    /\ (exists e l, trace w' = trace w ++ AWait 50 :: AStartTimeStep :: APop e :: l)
    /\ reaction_q (rt w') = []
    /\ free_q (rt w') = []
  | _ => False
  end.
Proof.
  intros E w.
  destruct (next E 5 w) as [[r w']|x|x] eqn:Hn.
  - assert (Hr : r = 1) by (vm_compute in Hn; congruence).
    split; [exact Hr|]. subst r.
    exact (next_returns_one_after_a_pop E 5 w w' Hn).
  - vm_compute in Hn. discriminate Hn.
  - vm_compute in Hn. discriminate Hn.
Defined.

(** ** The loop of [main] *)

(** The timer program with the stop already requested: one step is run,
    and no other. *)
Lemma stop_requested_before_the_loop_witness :
  let E := timer_env false 0 50 in
  let w := on_rt (set_stop_requested true)
             (world_at [] 0 0 false [mk_event 1 50 0%nat NULL]) in
  stop_flag_discipline E
  /\ stop_requested (rt w) = true
  /\ invoked (trace (loop_world (event_loop E 5 9 w))) = [0%nat]
  /\ event_loop E 5 9 w =
     match next E 5 w with
     | Done (_, w') => Done w'
     | Fault x => Fault x
     | Timeout x => Timeout x
     end.
Proof.
  intros E w.
  pose proof (timer_env_stop_flag false 0 50) as HS.
  destruct (stop_requested_before_the_loop E 5 8 w HS eq_refl) as [_ H].
  exact (conj HS (conj eq_refl (conj eq_refl H))).
Defined.
